(** * melobot session core: twin events, decorators, sessions, injection

    A shallow embedding of
      - [melobot/utils.py]        (AsyncTwinEvent, cooldown, speedlimit,
                                   async_guard, singleton, RWContext),
      - [melobot/session/base.py] (the session state classes, [Session],
                                   [Session.get], [Session.ctx]),
      - [melobot/_di.py]          (Depends, AutoDepends, inject_deps,
                                   _init_auto_deps),
      - [melobot/plugin/ipc.py]   (the share classes, IPCManager),
      - [melobot/models/session.py] (BotSessionManager),
    with the properties of the specification stated over it, and further
    properties of the code.

    Python objects live in explicit heaps and are referred to by their
    index (object identity); coroutines are functions of the world that
    either finish, raise, or stop at an [await] that really blocks, handing
    back the rest of the coroutine as a continuation. *)

From stdpp Require Import gmap strings list.
From Stdlib Require Import ZArith QArith Qround.
Close Scope Q_scope.

(* ===================================================================== *)
(** ** utils.py: AsyncTwinEvent and get_twin_event                        *)
(* ===================================================================== *)

Module TwinEvent.

(** An [AsyncTwinEvent] object: the flag of [asyncio.Event] and the
    [_twin] reference ([None] until [bind]). *)
Record AsyncTwinEvent := mkTwin { _value : bool; _twin : option nat }.

(** The objects allocated so far; an object's identity is its index. *)
Abbreviation heap := (list AsyncTwinEvent).

(** [AsyncTwinEvent.__init__]: flag unset, no twin. *)
Definition init : AsyncTwinEvent := {| _value := false; _twin := None |}.

Definition alloc (h : heap) : heap * nat := (h ++ [init], length h).

(** [asyncio.Event.is_set]. *)
Definition is_set (h : heap) (self : nat) : bool :=
  match h !! self with Some o => _value o | None => false end.

(** [asyncio.Event.set] and [asyncio.Event.clear], the methods reached
    through [super()]. *)
Definition super_set (h : heap) (self : nat) : heap :=
  match h !! self with
  | Some o => <[self := {| _value := true; _twin := _twin o |}]> h
  | None => h
  end.

Definition super_clear (h : heap) (self : nat) : heap :=
  match h !! self with
  | Some o => <[self := {| _value := false; _twin := _twin o |}]> h
  | None => h
  end.

Definition set_twin (h : heap) (self twin : nat) : heap :=
  match h !! self with
  | Some o => <[self := {| _value := _value o; _twin := Some twin |}]> h
  | None => h
  end.

Definition twin_of (h : heap) (self : nat) : option nat :=
  match h !! self with Some o => _twin o | None => None end.

(** [AsyncTwinEvent.bind]. *)
Definition bind (h : heap) (self twin : nat) : heap :=
  let h := set_twin h self twin in
  if is_set h self then super_clear h twin else super_set h twin.

(** [AsyncTwinEvent.set]: an event object is always truthy, so
    [if self._twin] tests the reference for [None]. *)
Definition set (h : heap) (self : nat) : heap :=
  let h := super_set h self in
  match twin_of h self with
  | Some t => super_clear h t
  | None => h
  end.

(** [AsyncTwinEvent.clear]. *)
Definition clear (h : heap) (self : nat) : heap :=
  let h := super_clear h self in
  match twin_of h self with
  | Some t => super_set h t
  | None => h
  end.

(** [get_twin_event]. *)
Definition get_twin_event (h : heap) : heap * (nat * nat) :=
  let '(h, a) := alloc h in
  let '(h, b) := alloc h in
  let h := bind h a b in
  let h := bind h b a in
  (h, (a, b)).

(** The operations a holder of the pair can perform. *)
Inductive op := OpSet | OpClear.
Inductive side := OnFirst | OnSecond.

Definition apply_op (a b : nat) (h : heap) (o : op * side) : heap :=
  let target := match snd o with OnFirst => a | OnSecond => b end in
  match fst o with
  | OpSet => set h target
  | OpClear => clear h target
  end.

Definition run_ops (a b : nat) (h : heap) (ops : list (op * side)) : heap :=
  foldl (apply_op a b) h ops.

(** Two distinct objects, bound to each other, with opposite flags. *)
Definition twinned (h : heap) (a b : nat) : Prop :=
  a ≠ b ∧
  ∃ va vb,
    h !! a = Some {| _value := va; _twin := Some b |} ∧
    h !! b = Some {| _value := vb; _twin := Some a |} ∧
    xorb va vb = true.

End TwinEvent.

(* ===================================================================== *)
(** ** utils.py: argument validation of the decorators                    *)
(* ===================================================================== *)

Module Utils.

(** The messages with which this file raises [ValidateError]. *)
Inductive ValidateError :=
| SpeedlimitLimit        (* speedlimit: limit must be > 0 *)
| SpeedlimitDuration     (* speedlimit: duration must be > 0 *)
| NotCallable            (* async_guard: func is not callable *)
| NotAwaitable.          (* async_guard: the call returned no awaitable *)

Inductive Exn :=
| EValidate (e : ValidateError)
| EUser (tag : nat).     (* whatever a user callback raises *)

(** Python values as far as [async_guard] looks at them: plain data,
    awaitables (with what awaiting them gives) and callables (with what
    calling them gives). *)
Inductive Obj :=
| Data (n : Z)
| Awaitable (res : Exn + Z)
| Callable (call : list Z → CallResult)
with CallResult :=
| Raises (e : Exn)
| Returns (o : Obj).

Definition callable (o : Obj) : bool :=
  match o with Callable _ => true | _ => false end.

Definition isawaitable (o : Obj) : bool :=
  match o with Awaitable _ => true | _ => false end.

(** [async_guard]. *)
Definition async_guard (func : Obj) (args : list Z) : Exn + Z :=
  match func with
  | Callable call =>
      match call args with
      | Raises e => inl e
      | Returns (Awaitable res) => res
      | Returns _ => inl (EValidate NotAwaitable)
      end
  | _ => inl (EValidate NotCallable)
  end.

(** What [cooldown(...)] builds before it returns [deco_func]: the lock
    and [pre_finish_t], captured by the closure. [now] is the value read
    from [time.perf_counter()]. *)
Record cooldown_env := mkCooldown {
  cd_busy_callback : option Obj;
  cd_cd_callback : option Obj;
  cd_interval : Q;
  cd_alock_locked : bool;
  pre_finish_t : Q
}.

Definition cooldown (now : Q) (busy_callback cd_callback : option Obj)
    (interval : Q) : ValidateError + cooldown_env :=
  inr {| cd_busy_callback := busy_callback;
         cd_cd_callback := cd_callback;
         cd_interval := interval;
         cd_alock_locked := false;
         pre_finish_t := (now - interval - 1)%Q |}.

(** What [speedlimit(...)] builds before it returns [deco_func]. *)
Record speedlimit_env := mkSpeedlimit {
  sl_callback : option Obj;
  sl_limit : Z;
  sl_duration : Z;
  called_num : Z;
  min_start : Q
}.

Definition speedlimit (now : Q) (callback : option Obj)
    (limit duration : Z) : ValidateError + speedlimit_env :=
  if (limit <=? 0)%Z then inl SpeedlimitLimit
  else if (duration <=? 0)%Z then inl SpeedlimitDuration
  else inr {| sl_callback := callback;
              sl_limit := limit;
              sl_duration := duration;
              called_num := 0%Z;
              min_start := now |}.

End Utils.

(* ===================================================================== *)
(** ** session/base.py                                                    *)
(* ===================================================================== *)

Module SessionBase.

(** A [Rule] object, known by its identity: the registry is a dict keyed
    by rule objects, which hash by identity. *)
Definition Rule := nat.

(** The four state classes; [Session._state] always holds an instance of
    one of them, whose only field is the back reference to the session. *)
Inductive SessionStateClass :=
| SpareSessionState
| WorkingSessionState
| SuspendSessionState
| ExpireSessionState.

#[global] Instance SessionStateClass_eq_dec : EqDecision SessionStateClass.
Proof. solve_decision. Defined.

(** The three ways [SessionStateError] is built: from the name of the
    refused method, or from one of the two explicit texts. *)
Inductive SessionStateMsg :=
| Unsupported (meth : string)
| NoRuleForRest
| NoRuleForSuspend.

Inductive Exn :=
| SessionStateError (msg : SessionStateMsg)
| CancelledError               (* asyncio.CancelledError *)
| KeyError                     (* dict lookup, set.remove *)
| LookupError                  (* no session in the context *)
| NoSuchObject                 (* a reference outside the heap; Python has none *)
| UserError (tag : nat).       (* whatever a handler body raises *)

(** The two condition variables of a session. *)
Inductive Cond :=
| refresh_cond (s : nat)
| wakeup_cond (s : nat).

(** What the other tasks can observe of a call besides the world:
    [cond.notify()] and the call of [nowait_cb]. *)
Inductive Effect :=
| Notify (c : Cond)
| CallNowaitCb (cb : nat).

(** How an [await] on a condition ends. *)
Inductive wake := Notified | TimedOut | Cancelled.

Section WithEvents.

Context {EventT : Type}.

(** [rule.compare(e1, e2)], indexed by the rule object. It is taken to
    be a function of the two events. *)
Variable compare : Rule → EventT → EventT → bool.

(** A [Session] object. [store] plays no part in the transitions and is
    left out; the conditions are named by the session ([Cond]). *)
Record Session := mkSession {
  event : EventT;
  rule : option Rule;
  keep : bool;
  _state : SessionStateClass
}.

(** The sessions allocated so far (identity = index), the class
    attributes [__instances__] (a set per rule, in iteration order) and
    [__instance_locks__] (its keys), the stack behind [_SESSION_CTX],
    and the effects so far. *)
Record World := mkWorld {
  sessions : list Session;
  instances : gmap Rule (list nat);
  instance_locks : gset Rule;
  session_ctx : list nat;
  trace : list Effect
}.

Definition set_sessions (f : list Session → list Session) (w : World) : World :=
  mkWorld (f (sessions w)) (instances w) (instance_locks w) (session_ctx w) (trace w).
Definition set_instances (f : gmap Rule (list nat) → gmap Rule (list nat))
    (w : World) : World :=
  mkWorld (sessions w) (f (instances w)) (instance_locks w) (session_ctx w) (trace w).
Definition set_instance_locks (f : gset Rule → gset Rule) (w : World) : World :=
  mkWorld (sessions w) (instances w) (f (instance_locks w)) (session_ctx w) (trace w).
Definition set_session_ctx (f : list nat → list nat) (w : World) : World :=
  mkWorld (sessions w) (instances w) (instance_locks w) (f (session_ctx w)) (trace w).
Definition set_trace (f : list Effect → list Effect) (w : World) : World :=
  mkWorld (sessions w) (instances w) (instance_locks w) (session_ctx w) (f (trace w)).

(** *** Coroutines

    A coroutine run from a world finishes with a value, raises, or
    reaches an [await] on a condition on which it blocks: it hands back
    the world as it leaves it and its own continuation, which is
    resumed with the way the wait ended and the world as the other
    tasks have left it. Lock acquisitions are taken to succeed at once
    (the locks are free when the call starts). *)
Inductive Outcome (A : Type) :=
| Done (a : A) (w : World)
| Raised (e : Exn) (w : World)
| Await (c : Cond) (timeout : option Q) (w : World)
        (k : wake → World → Outcome A).
Arguments Done {A}. Arguments Raised {A}. Arguments Await {A}.

Definition M (A : Type) := World → Outcome A.

Definition ret {A} (a : A) : M A := Done a.
Definition raise {A} (e : Exn) : M A := Raised e.

Fixpoint obind {A B} (o : Outcome A) (f : A → M B) : Outcome B :=
  match o with
  | Done a w => f a w
  | Raised e w => Raised e w
  | Await c t w k => Await c t w (λ r w', obind (k r w') f)
  end.

Definition bind {A B} (m : M A) (f : A → M B) : M B := λ w, obind (m w) f.

Notation "'let!' x ':=' m 'in' k" := (bind m (λ x, k))
  (at level 10, x pattern, m at level 100, k at level 200).

(** [await cond.wait()], with the timeout of [asyncio.wait_for] if any. *)
Definition wait (c : Cond) (timeout : option Q) : M wake :=
  λ w, Await c timeout w (λ r w', Done r w').

(** [try: o finally: fin]; an exception of [fin] replaces the outcome. *)
Fixpoint ofinally {A} (o : Outcome A) (fin : M unit) : Outcome A :=
  match o with
  | Done a w => obind (fin w) (λ _, ret a)
  | Raised e w => obind (fin w) (λ _, raise e)
  | Await c t w k => Await c t w (λ r w', ofinally (k r w') fin)
  end.

(** [try: o except ...: h]; [h e] is the handler if a clause matches. *)
Fixpoint ocatch {A} (o : Outcome A) (h : Exn → option (M A)) : Outcome A :=
  match o with
  | Done a w => Done a w
  | Raised e w => match h e with Some m => m w | None => Raised e w end
  | Await c t w k => Await c t w (λ r w', ocatch (k r w') h)
  end.

(** *** Field access *)

Definition get_session (s : nat) : M Session := λ w,
  match sessions w !! s with
  | Some x => Done x w
  | None => Raised NoSuchObject w
  end.

Definition set_event (s : nat) (ev : EventT) : M unit := λ w,
  match sessions w !! s with
  | Some x => Done tt (set_sessions
                <[s := mkSession ev (rule x) (keep x) (_state x)]> w)
  | None => Raised NoSuchObject w
  end.

Definition set_keep (s : nat) (b : bool) : M unit := λ w,
  match sessions w !! s with
  | Some x => Done tt (set_sessions
                <[s := mkSession (event x) (rule x) b (_state x)]> w)
  | None => Raised NoSuchObject w
  end.

(** [Session.to_state]. *)
Definition to_state (s : nat) (state_class : SessionStateClass) : M unit := λ w,
  match sessions w !! s with
  | Some x => Done tt (set_sessions
                <[s := mkSession (event x) (rule x) (keep x) state_class]> w)
  | None => Raised NoSuchObject w
  end.

(** [Session.on_state]. *)
Definition on_state (s : nat) (state_class : SessionStateClass) : M bool := λ w,
  Done (match sessions w !! s with
        | Some x => bool_decide (_state x = state_class)
        | None => false
        end) w.

(** [async with cond: cond.notify()]. *)
Definition notify (c : Cond) : M unit := λ w,
  Done tt (set_trace (λ t, t ++ [Notify c]) w).

(** *** The state classes *)

(** [SessionState]: every method refuses. *)
Definition SessionState_work (s : nat) (ev : EventT) : M unit :=
  raise (SessionStateError (Unsupported "work")).
Definition SessionState_rest (s : nat) : M unit :=
  raise (SessionStateError (Unsupported "rest")).
Definition SessionState_suspend (s : nat) (timeout : option Q) : M bool :=
  raise (SessionStateError (Unsupported "suspend")).
Definition SessionState_wakeup (s : nat) (ev : EventT) : M unit :=
  raise (SessionStateError (Unsupported "wakeup")).
Definition SessionState_expire (s : nat) : M unit :=
  raise (SessionStateError (Unsupported "expire")).

(** [SpareSessionState.work]. *)
Definition SpareSessionState_work (s : nat) (ev : EventT) : M unit :=
  let! _ := set_event s ev in
  to_state s WorkingSessionState.

(** [WorkingSessionState.rest]. *)
Definition WorkingSessionState_rest (s : nat) : M unit :=
  let! x := get_session s in
  match rule x with
  | None => raise (SessionStateError NoRuleForRest)
  | Some _ =>
      let! _ := notify (refresh_cond s) in
      to_state s SpareSessionState
  end.

(** [WorkingSessionState.suspend]. *)
Definition WorkingSessionState_suspend (s : nat) (timeout : option Q) : M bool :=
  let! x := get_session s in
  match rule x with
  | None => raise (SessionStateError NoRuleForSuspend)
  | Some _ =>
      let! _ := notify (refresh_cond s) in
      let! _ := to_state s SuspendSessionState in
      let! r := wait (wakeup_cond s) timeout in
      match timeout with
      | None =>
          match r with
          | Cancelled => raise CancelledError
          | _ => ret true
          end
      | Some _ =>
          match r with
          | Notified => ret true
          | TimedOut => ret false
          | Cancelled => raise CancelledError
          end
      end
  end.

(** [WorkingSessionState.expire]. *)
Definition WorkingSessionState_expire (s : nat) : M unit :=
  let! x := get_session s in
  let! _ := match rule x with
            | Some _ => notify (refresh_cond s)
            | None => ret tt
            end in
  to_state s ExpireSessionState.

(** [SuspendSessionState.wakeup]. *)
Definition SuspendSessionState_wakeup (s : nat) (ev : EventT) : M unit :=
  let! _ := set_event s ev in
  let! _ := notify (wakeup_cond s) in
  to_state s WorkingSessionState.

(** Method lookup on the class of [self._state]: a class answers with
    its own definition where it has one and with [SessionState]'s
    otherwise. [ExpireSessionState] defines nothing. *)
Definition work_of (c : SessionStateClass) : nat → EventT → M unit :=
  match c with
  | SpareSessionState => SpareSessionState_work
  | _ => SessionState_work
  end.
Definition rest_of (c : SessionStateClass) : nat → M unit :=
  match c with
  | WorkingSessionState => WorkingSessionState_rest
  | _ => SessionState_rest
  end.
Definition suspend_of (c : SessionStateClass) : nat → option Q → M bool :=
  match c with
  | WorkingSessionState => WorkingSessionState_suspend
  | _ => SessionState_suspend
  end.
Definition wakeup_of (c : SessionStateClass) : nat → EventT → M unit :=
  match c with
  | SuspendSessionState => SuspendSessionState_wakeup
  | _ => SessionState_wakeup
  end.
Definition expire_of (c : SessionStateClass) : nat → M unit :=
  match c with
  | WorkingSessionState => WorkingSessionState_expire
  | _ => SessionState_expire
  end.

(** [Session.work], [rest], [suspend], [wakeup], [expire]. *)
Definition work (s : nat) (ev : EventT) : M unit :=
  let! x := get_session s in work_of (_state x) s ev.
Definition rest (s : nat) : M unit :=
  let! x := get_session s in rest_of (_state x) s.
Definition suspend (s : nat) (timeout : option Q) : M bool :=
  let! x := get_session s in suspend_of (_state x) s timeout.
Definition wakeup (s : nat) (ev : EventT) : M unit :=
  let! x := get_session s in wakeup_of (_state x) s ev.
Definition expire (s : nat) : M unit :=
  let! x := get_session s in expire_of (_state x) s.

(** *** The registry: [Session.get] *)

(** [Session(event, rule, keep)]: a new object, in the working state. *)
Definition new_session (ev : EventT) (r : option Rule) (kp : bool) : M nat := λ w,
  Done (length (sessions w))
       (set_sessions (λ l, l ++ [mkSession ev r kp WorkingSessionState]) w).

(** [cls.__instance_locks__.setdefault(rule, Lock())]. *)
Definition setdefault_lock (r : Rule) : M unit := λ w,
  Done tt (set_instance_locks (λ ls, {[r]} ∪ ls) w).

(** [_set = cls.__instances__.setdefault(rule, set())]: the members of
    the set, in the order in which it is iterated. *)
Definition setdefault_instances (r : Rule) : M (list nat) := λ w,
  match instances w !! r with
  | Some l => Done l w
  | None => Done [] (set_instances <[r := []]> w)
  end.

(** [Session.__instances__[session.rule].remove(session)]: both the
    lookup of the key and [set.remove] raise [KeyError] on a miss. *)
Definition instances_remove (r : option Rule) (s : nat) : M unit := λ w,
  match r with
  | None => Raised KeyError w
  | Some r =>
      match instances w !! r with
      | None => Raised KeyError w
      | Some l =>
          if bool_decide (s ∈ l)
          then Done tt (set_instances <[r := filter (λ x, x ≠ s) l]> w)
          else Raised KeyError w
      end
  end.

(** [Session.__instances__[rule].add(session)]. *)
Definition instances_add (r : Rule) (s : nat) : M unit := λ w,
  match instances w !! r with
  | None => Raised KeyError w
  | Some l =>
      if bool_decide (s ∈ l) then Done tt w
      else Done tt (set_instances <[r := l ++ [s]]> w)
  end.

(** [await nowait_cb()]: the callback is known by its identity. *)
Definition call_nowait_cb (cb : nat) : M unit := λ w,
  Done tt (set_trace (λ t, t ++ [CallNowaitCb cb]) w).

(** A loop that can [return] from [get] gives [Some] of the returned
    value, and [None] when it runs to its end. *)

(** The loop over [suspends]; [filter] is lazy, so the state of a
    member is tested when the iteration reaches it. *)
Fixpoint scan_suspends (r : Rule) (ev : EventT) (_set : list nat)
    : M (option (option nat)) :=
  match _set with
  | [] => ret None
  | s :: rest_set =>
      let! on := on_state s SuspendSessionState in
      if on then
        let! x := get_session s in
        if compare r (event x) ev then
          let! _ := wakeup s ev in
          ret (Some None)
        else scan_suspends r ev rest_set
      else scan_suspends r ev rest_set
  end.

(** The loop over [spares]. *)
Fixpoint scan_spares (r : Rule) (ev : EventT) (kp : bool) (_set : list nat)
    : M (option (option nat)) :=
  match _set with
  | [] => ret None
  | s :: rest_set =>
      let! on := on_state s SpareSessionState in
      if on then
        let! x := get_session s in
        if compare r (event x) ev then
          let! _ := work s ev in
          let! _ := set_keep s kp in
          ret (Some (Some s))
        else scan_spares r ev kp rest_set
      else scan_spares r ev kp rest_set
  end.

(** [expires = list(filter(..., _set))]: evaluated at once. *)
Fixpoint collect_expires (_set : list nat) : M (list nat) :=
  match _set with
  | [] => ret []
  | s :: rest_set =>
      let! on := on_state s ExpireSessionState in
      let! l := collect_expires rest_set in
      ret (if on then s :: l else l)
  end.

(** The loop over [workings] (lazy again), with [expires] as it grows:
    [inl v] when the loop returns [v] from [get], [inr expires] at its
    end. *)
Fixpoint scan_workings (r : Rule) (ev : EventT) (wait_ : bool)
    (nowait_cb : option nat) (kp : bool) (_set : list nat)
    (expires : list nat) : M (option nat + list nat) :=
  match _set with
  | [] => ret (inr expires)
  | s :: rest_set =>
      let! on := on_state s WorkingSessionState in
      if on then
        let! x := get_session s in
        if negb (compare r (event x) ev) then
          scan_workings r ev wait_ nowait_cb kp rest_set expires
        else if negb wait_ then
          let! _ := match nowait_cb with
                    | Some cb => call_nowait_cb cb
                    | None => ret tt
                    end in
          ret (inl None)
        else
          let! wk := wait (refresh_cond s) None in
          match wk with
          | Cancelled => raise CancelledError
          | _ =>
              let! ex := on_state s ExpireSessionState in
              if ex then
                scan_workings r ev wait_ nowait_cb kp rest_set (expires ++ [s])
              else
                let! su := on_state s SuspendSessionState in
                if su then
                  let! _ := wakeup s ev in
                  ret (inl None)
                else
                  let! _ := work s ev in
                  let! _ := set_keep s kp in
                  ret (inl (Some s))
          end
      else scan_workings r ev wait_ nowait_cb kp rest_set expires
  end.

(** The loop over [expires]. *)
Fixpoint remove_expires (expires : list nat) : M unit :=
  match expires with
  | [] => ret tt
  | s :: l =>
      let! x := get_session s in
      let! _ := instances_remove (rule x) s in
      remove_expires l
  end.

(** [Session.get]. *)
Definition get (ev : EventT) (rule_ : option Rule) (wait_ : bool)
    (nowait_cb : option nat) (kp : bool) : M (option nat) :=
  match rule_ with
  | None =>
      let! s := new_session ev None kp in
      ret (Some s)
  | Some r =>
      let! _ := setdefault_lock r in
      let! _set := setdefault_instances r in
      let! found := scan_suspends r ev _set in
      match found with
      | Some v => ret v
      | None =>
          let! found := scan_spares r ev kp _set in
          match found with
          | Some v => ret v
          | None =>
              let! expires := collect_expires _set in
              let! found := scan_workings r ev wait_ nowait_cb kp _set expires in
              match found with
              | inl v => ret v
              | inr expires =>
                  let! _ := remove_expires expires in
                  let! s := new_session ev (Some r) kp in
                  let! _ := instances_add r s in
                  ret (Some s)
              end
          end
      end
  end.

(** *** The scoped region: [Session.ctx] *)

(** Modelled from the spec: [_SESSION_CTX.on_ctx(self)] of [_ctx.py],
    which is not among the sources: a scoped push, undone on every way
    out of the region. *)
Definition on_ctx_enter (s : nat) : M unit := λ w,
  Done tt (set_session_ctx (λ st, s :: st) w).
Definition on_ctx_exit : M unit := λ w,
  Done tt (set_session_ctx (λ st, tail st) w).

(** The [except asyncio.CancelledError] clause of [ctx]. *)
Definition ctx_except {A} (s : nat) (e : Exn) : option (M (option A)) :=
  match e with
  | CancelledError =>
      Some (let! su := on_state s SuspendSessionState in
            if su then
              let! x := get_session s in
              let! _ := wakeup s (event x) in
              ret None
            else ret None)
  | _ => None
  end.

(** The [finally] clause of [ctx]. *)
Definition ctx_finally (s : nat) : M unit :=
  let! x := get_session s in
  if keep x then rest s else expire s.

(** What [ctx] does once the region it wraps has ended with [o]: the
    [except] clause, the [finally] clause, the pop of the context. A
    region that ends normally with [a] gives [Some a]; a cancellation
    the generator has absorbed gives [None]. *)
Definition ctx_leave {A} (s : nat) (o : Outcome A) : Outcome (option A) :=
  ofinally
    (ofinally (ocatch (obind o (λ a, ret (Some a))) (ctx_except s))
              (ctx_finally s))
    on_ctx_exit.

(** [async with session.ctx(): body]. *)
Definition ctx {A} (s : nat) (body : M A) : M (option A) := λ w,
  obind (on_ctx_enter s w) (λ _ w1, ctx_leave s (body w1)).

(** The module-level [suspend]: [SessionCtx().get().suspend(timeout)]. *)
Definition suspend_current (timeout : option Q) : M bool := λ w,
  match session_ctx w with
  | s :: _ => suspend s timeout w
  | [] => Raised LookupError w
  end.

(** *** Vocabulary of the statements *)

(** The world after [to_state] has put session [s], which was [x], in
    the state [c]; the world after [cond.notify()]. *)
Definition moved (s : nat) (x : Session) (c : SessionStateClass) (w : World) : World :=
  set_sessions <[s := mkSession (event x) (rule x) (keep x) c]> w.
Definition signalled (c : Cond) (w : World) : World :=
  set_trace (λ t, t ++ [Notify c]) w.

(** The state of session [s], if it exists. *)
Definition state_in (w : World) (s : nat) : option SessionStateClass :=
  _state <$> sessions w !! s.

(** The members of the registry of rule [r], in iteration order. *)
Definition registry (w : World) (r : Rule) : list nat :=
  default [] (instances w !! r).

(** If the cell [s] holds a session in state [c] whose event the rule
    matches with [ev]. *)
Definition matches (c : SessionStateClass) (r : Rule) (ev : EventT)
    (w : World) (s : nat) : bool :=
  match sessions w !! s with
  | Some x => bool_decide (_state x = c) && compare r (event x) ev
  | None => false
  end.

(** The first member of [l] that [matches]. *)
Definition first_match (c : SessionStateClass) (r : Rule) (ev : EventT)
    (w : World) (l : list nat) : option nat :=
  head (filter (λ s, matches c r ev w s = true) l).

(** The members of [l] that are in the expired state. *)
Definition is_expired (w : World) (s : nat) : bool :=
  bool_decide (state_in w s = Some ExpireSessionState).

(** Working, spare and suspended are the live states. *)
Definition live (c : SessionStateClass) : bool :=
  match c with ExpireSessionState => false | _ => true end.

(** Every live session that has a rule is a member of the registry of
    its rule. *)
Definition live_registered (w : World) : Prop :=
  ∀ s x r, sessions w !! s = Some x → rule x = Some r →
           live (_state x) = true → s ∈ registry w r.

(** The members of a registry are distinct sessions of its rule. *)
Definition registry_wf (w : World) : Prop :=
  ∀ r l, instances w !! r = Some l →
         NoDup l ∧ ∀ s, s ∈ l → ∃ x, sessions w !! s = Some x ∧ rule x = Some r.

Definition registry_inv (w : World) : Prop := live_registered w ∧ registry_wf w.

(** What every task leaves alone, between two points at which the
    others can run: sessions stay allocated with the rule they have, a
    session that has expired stays expired, and the registry keeps its
    keys. *)
Definition settled (w w' : World) : Prop :=
  (∀ s x, sessions w !! s = Some x →
          ∃ x', sessions w' !! s = Some x' ∧ rule x' = rule x ∧
                (_state x = ExpireSessionState → _state x' = ExpireSessionState)) ∧
  (∀ r, is_Some (instances w !! r) → is_Some (instances w' !! r)).

(** [o] runs safely from [w0], the world at the last point at which
    another task could run: at each blocking [await] and at a raise the
    world satisfies [registry_inv] and is a [settled] step from the
    world at the point before, provided the other tasks do the same
    while [o] waits; where [o] finishes, [Q] holds of the world at the
    last such point, the value and the world. *)
Fixpoint runs_safely {A} (Q : World → A → World → Prop) (w0 : World)
    (o : Outcome A) : Prop :=
  match o with
  | Done a w => Q w0 a w
  | Raised _ w => registry_inv w ∧ settled w0 w
  | Await _ _ w k =>
      registry_inv w ∧ settled w0 w ∧
      ∀ wk w1, registry_inv w1 → settled w w1 →
               runs_safely Q w1 (k wk w1)
  end.

(** [o] keeps the registry invariant at every point at which another
    task can run, its end included. *)
Definition keeps_registry {A} (w0 : World) (o : Outcome A) : Prop :=
  runs_safely (λ w0 _ w, registry_inv w ∧ settled w0 w) w0 o.

(** The loop invariant of [get] on rule [r]: the registry invariant,
    a settled step from the last point at which others could run, and
    the key [r] in the registry. *)
Definition held (r : option Rule) (w0 w : World) : Prop :=
  registry_inv w ∧ settled w0 w ∧
  match r with Some r => is_Some (instances w !! r) | None => True end.

(** How [suspend] goes on after its wait on [wakeup_cond]. *)
Definition suspend_resumes (timeout : option Q) (r : wake) (w : World)
    : Outcome bool :=
  match timeout, r with
  | _, Notified => Done true w
  | None, TimedOut => Done true w
  | Some _, TimedOut => Done false w
  | _, Cancelled => Raised CancelledError w
  end.

(** The refusal of [SessionState]: the exception, the world untouched. *)
Definition refused {A} (meth : string) (w : World) : Outcome A :=
  Raised (SessionStateError (Unsupported meth)) w.

(** The outcome of the region [ctx] wraps, and what [ctx] makes of it
    when its [finally] clause succeeds in world [w]. *)
Definition region_end {A} (r : Exn + A) (w : World) : Outcome A :=
  match r with inr a => Done a w | inl e => Raised e w end.
Definition ctx_result {A} (r : Exn + A) (w : World) : Outcome (option A) :=
  match r with
  | inr a => Done (Some a) w
  | inl CancelledError => Done None w
  | inl e => Raised e w
  end.

End WithEvents.

Arguments Done {EventT A}.
Arguments Raised {EventT A}.
Arguments Await {EventT A}.
Arguments refused {EventT A}.

End SessionBase.

(* ===================================================================== *)
(** ** _di.py                                                             *)
(* ===================================================================== *)

Module DI.

(** Class objects, known by their identity. *)
Definition PyType := nat.

(** The class of [VoidType.VOID]. *)
Definition VoidType : PyType := 0.

(** Runtime values: the sentinel [VoidType.VOID], or an object of a
    class. *)
Inductive Val :=
| VOID
| PyObj (ty : PyType) (ident : nat).

#[global] Instance Val_eq_dec : EqDecision Val.
Proof. solve_decision. Defined.

(** [type(val)]. *)
Definition type_of (v : Val) : PyType :=
  match v with VOID => VoidType | PyObj ty _ => ty end.

Section WithTyping.

(** The type expressions that can stand in an annotation; they are
    only looked at through [is_type] and [is_subhint] of [typ.py]. *)
Context {TypeExpr : Type}.

(** What calling the [getter] of a [CustomLogger] gives. *)
Inductive GetterResult :=
| GetterReturns (v : Val)
| GetterRaises (tag : nat).

(** The metadata objects that can follow the type in [Annotated]. *)
Inductive Metadata :=
| Exclude (types : list PyType)
| CustomLogger (getter : GetterResult)
| OtherMetadata (tag : nat).

(** An annotation: a type expression [t], or [Annotated[t, m1, ...]]. *)
Inductive Hint :=
| HPlain (t : TypeExpr)
| HAnnotated (t : TypeExpr) (metadata : list Metadata).

Inductive Exn :=
| DependNotMatched (func_name arg_name : string) (real_type : PyType)
                   (hint : Hint)
| DependInitError
| CtxLookupError           (* a context that holds nothing *)
| UserError (tag : nat).   (* whatever user code raises *)

Definition call_getter_result (g : GetterResult) : Exn + Val :=
  match g with
  | GetterReturns v => inr v
  | GetterRaises tag => inl (UserError tag)
  end.

(** [issubclass], behind [isinstance(val, t)]. *)
Variable issubclass : PyType → PyType → bool.
(** [is_type(val, hint)] and [is_subhint(hint, other)] of [typ.py]. *)
Variable is_type : Val → Hint → bool.
Variable is_subhint : Hint → Hint → bool.
(** The hints given by [LoggerCtx().get_type()],
    [SessionCtx().get_store_type()], [SessionCtx().get_rule_type() | None],
    [BotCtx().get_type()], [EventBuildInfoCtx().get_adapter_type()] and
    [SessionCtx().get_event_type()]. *)
Variables LoggerT StoreT RuleOrNoneT BotT AdapterT EventT : Hint.

Definition isinstance (v : Val) (t : PyType) : bool := issubclass (type_of v) t.

(** Modelled from the spec: the context stacks of [_ctx.py], which is
    not among the sources. Each holds the current value or nothing; the
    session context gives the store, the rule and the event of the
    current session, the event-build context the adapter. *)
Record SessionView := mkSessionView {
  sv_store : Val; sv_rule : Val; sv_event : Val
}.
Record Contexts := mkContexts {
  logger_ctx : option Val;
  session_ctx : option SessionView;
  bot_ctx : option Val;
  event_build_ctx : option Val      (* the adapter of the build info *)
}.

(** The six getters [AutoDepends.__init__] chooses from. *)
Inductive OrigGetter :=
| LoggerCtx_get | Session_store | Session_rule | BotCtx_get
| EventBuild_adapter | Session_event.

Definition from_ctx (o : option Val) : Exn + Val :=
  match o with Some v => inr v | None => inl CtxLookupError end.

Definition call_orig_getter (g : OrigGetter) (c : Contexts) : Exn + Val :=
  match g with
  | LoggerCtx_get => from_ctx (logger_ctx c)
  | Session_store => from_ctx (sv_store <$> session_ctx c)
  | Session_rule => from_ctx (sv_rule <$> session_ctx c)
  | BotCtx_get => from_ctx (bot_ctx c)
  | EventBuild_adapter => from_ctx (event_build_ctx c)
  | Session_event => from_ctx (sv_event <$> session_ctx c)
  end.

(** A post-processing function given as [sub_getter]. *)
Definition SubGetter := Val → Exn + Val.

(** A [Depends] object: its identity, what it draws from (a factory,
    known by its identity, or another [Depends]), [sub_getter], and
    whether it was built with [cache=True] ([_lock] is not [None]).
    These never change; [_cached] does and lives in the state. *)
Inductive Depends :=
| DependsOn (id : nat) (getter : nat) (sub_getter : option SubGetter)
            (cache : bool)
| DependsRef (id : nat) (ref : Depends) (sub_getter : option SubGetter)
             (cache : bool).

Definition dep_id (d : Depends) : nat :=
  match d with DependsOn id _ _ _ | DependsRef id _ _ _ => id end.
Definition dep_cache (d : Depends) : bool :=
  match d with DependsOn _ _ _ c | DependsRef _ _ _ c => c end.
Definition dep_sub_getter (d : Depends) : option SubGetter :=
  match d with DependsOn _ _ g _ | DependsRef _ _ g _ => g end.

(** An [AutoDepends] object. *)
Record AutoDepends := mkAutoDepends {
  ad_id : nat;
  ad_hint : Hint;
  ad_func : string;            (* func.__qualname__ *)
  ad_arg_name : string;
  ad_metadata : option Metadata;
  ad_orig_getter : OrigGetter
}.

(** What a factory returns (or raises) at each of its invocations,
    numbered from 0. *)
Variable factory : nat → nat → Exn + Val.

(** The mutable state: [_cached] of every [Depends] (absent: still
    [VOID]), the [dep_scope] dict of the call in progress (keyed by the
    identity of the [Depends]), the factories invoked so far, oldest
    first, and the contexts. *)
Record State := mkState {
  cached : gmap nat Val;
  dep_scope : gmap nat Val;
  invoked : list nat;
  contexts : Contexts
}.

Definition cached_of (st : State) (id : nat) : Val :=
  default VOID (cached st !! id).
Definition set_cached (id : nat) (v : Val) (st : State) : State :=
  mkState (<[id := v]> (cached st)) (dep_scope st) (invoked st) (contexts st).
Definition set_scope (id : nat) (v : Val) (st : State) : State :=
  mkState (cached st) (<[id := v]> (dep_scope st)) (invoked st) (contexts st).
Definition new_scope (st : State) : State :=
  mkState (cached st) ∅ (invoked st) (contexts st).

(** How often factory [g] has been invoked. *)
Definition times_invoked (g : nat) (st : State) : nat :=
  length (filter (λ x, x = g) (invoked st)).

(** [await self.getter()]. *)
Definition call_getter (g : nat) (st : State) : (Exn + Val) * State :=
  (factory g (times_invoked g st),
   mkState (cached st) (dep_scope st) (invoked st ++ [g]) (contexts st)).

(** The [sub_getter] step at the end of [_get]. *)
Definition apply_sub_getter (sg : option SubGetter) (r : (Exn + Val) * State)
    : (Exn + Val) * State :=
  match r with
  | (inr val, st) =>
      match sg with
      | Some f => (f val, st)
      | None => (inr val, st)
      end
  | (inl e, st) => (inl e, st)
  end.

(** [fulfill_with _get d]: the body of [Depends.fulfill], given
    [self._get]. The lock is free when the call starts. *)
Definition fulfill_with (_get : State → (Exn + Val) * State) (d : Depends)
    (st : State) : (Exn + Val) * State :=
  let r :=
    if negb (dep_cache d) then _get st
    else if negb (bool_decide (cached_of st (dep_id d) = VOID))
    then (inr (cached_of st (dep_id d)), st)
    else
      (* async with self._lock *)
      let locked :=
        if bool_decide (cached_of st (dep_id d) = VOID) then
          match _get st with
          | (inr v, st1) => (inr tt, set_cached (dep_id d) v st1)
          | (inl e, st1) => (inl e, st1)
          end
        else (inr tt, st) in
      match locked with
      | (inr _, st2) => (inr (cached_of st2 (dep_id d)), st2)
      | (inl e, st2) => (inl e, st2)
      end in
  match r with
  | (inr val, st') => (inr val, set_scope (dep_id d) val st')
  | (inl e, st') => (inl e, st')
  end.

(** [Depends.fulfill], with [Depends._get] as its local [_get]. *)
Fixpoint fulfill (d : Depends) (st : State) : (Exn + Val) * State :=
  let _get (st : State) : (Exn + Val) * State :=
    match d with
    | DependsOn _ g sg _ => apply_sub_getter sg (call_getter g st)
    | DependsRef _ ref sg _ =>
        let val := default VOID (dep_scope st !! dep_id ref) in
        apply_sub_getter sg
          (if bool_decide (val = VOID) then fulfill ref st
           else (inr val, st))
    end in
  fulfill_with _get d st.

(** [AutoDepends.__init__]. *)
Definition is_CustomLogger (m : option Metadata) : bool :=
  match m with Some (CustomLogger _) => true | _ => false end.

Definition AutoDepends_init (id : nat) (func name : string) (hint : Hint)
    : Exn + AutoDepends :=
  let metadata :=
    match hint with
    | HAnnotated _ [m] => inr (Some m)
    | HAnnotated _ _ => inl DependInitError
    | HPlain _ => inr None
    end in
  match metadata with
  | inl e => inl e
  | inr metadata =>
      let build g := inr (mkAutoDepends id hint func name metadata g) in
      if is_CustomLogger metadata then build LoggerCtx_get
      else if is_subhint hint LoggerT then build LoggerCtx_get
      else if is_subhint hint StoreT then build Session_store
      else if is_subhint hint RuleOrNoneT then build Session_rule
      else if is_subhint hint BotT then build BotCtx_get
      else if is_subhint hint AdapterT then build EventBuild_adapter
      else if is_subhint hint EventT then build Session_event
      else inl DependInitError
  end.

(** [AutoDepends._get_unmatch_exc]. *)
Definition _get_unmatch_exc (a : AutoDepends) (real_type : PyType) : Exn :=
  DependNotMatched (ad_func a) (ad_arg_name a) real_type (ad_hint a).

(** [super().fulfill(dep_scope)] of an [AutoDepends]: [Depends.fulfill]
    of an object built with [orig_getter], no [sub_getter], no cache. *)
Definition AutoDepends_super_fulfill (a : AutoDepends) (st : State)
    : (Exn + Val) * State :=
  match call_orig_getter (ad_orig_getter a) (contexts st) with
  | inr val => (inr val, set_scope (ad_id a) val st)
  | inl e => (inl e, st)
  end.

(** [AutoDepends.fulfill]. *)
Definition AutoDepends_fulfill (a : AutoDepends) (st : State)
    : (Exn + Val) * State :=
  match AutoDepends_super_fulfill a st with
  | (inl e, st') => (inl e, st')
  | (inr val, st') =>
      let check :=
        if is_type val (ad_hint a) then inr val
        else inl (_get_unmatch_exc a (type_of val)) in
      match ad_metadata a with
      | Some (Exclude types) =>
          if existsb (isinstance val) types
          then (inl (_get_unmatch_exc a (type_of val)), st')
          else (check, st')
      | Some (CustomLogger getter) =>
          if negb (is_type val (ad_hint a)) then (call_getter_result getter, st')
          else (inr val, st')
      | _ =>
          if is_subhint (ad_hint a) LoggerT then (inr val, st')
          else (check, st')
      end
  end.

(** Successive resolutions of one [Depends], for statements about its
    lifetime: each either starts a new call of [wrapped] (a new, empty
    [dep_scope]) or is one more reference within the call in progress. *)
Fixpoint fulfill_many (d : Depends) (new_call : list bool) (st : State)
    : list (Exn + Val) * State :=
  match new_call with
  | [] => ([], st)
  | b :: bs =>
      let '(r, st1) := fulfill d (if b then new_scope st else st) in
      let '(rs, st2) := fulfill_many d bs st1 in
      (r :: rs, st2)
  end.

(** What [_get] of a [Depends] on factory [g] would give in [st]. *)
Definition first_resolution (g : nat) (sg : option SubGetter) (st : State)
    : Exn + Val :=
  fst (apply_sub_getter sg (call_getter g st)).

(** An argument after [_get_bound_args]: a value of the caller, or a
    default that is a [Depends] or an [AutoDepends]. *)
Inductive Arg :=
| Given (v : Val)
| Dep (d : Depends)
| Auto (a : AutoDepends).

Definition fulfill_arg (x : Arg) (st : State) : (Exn + Val) * State :=
  match x with
  | Given v => (inr v, st)
  | Dep d => fulfill d st
  | Auto a => AutoDepends_fulfill a st
  end.

(** The two loops of [wrapped] over [_args] and [_kwargs]. *)
Fixpoint fulfill_args (args : list Arg) (st : State)
    : (Exn + list Val) * State :=
  match args with
  | [] => (inr [], st)
  | x :: args' =>
      match fulfill_arg x st with
      | (inl e, st1) => (inl e, st1)
      | (inr v, st1) =>
          match fulfill_args args' st1 with
          | (inl e, st2) => (inl e, st2)
          | (inr vs, st2) => (inr (v :: vs), st2)
          end
      end
  end.

Fixpoint fulfill_kwargs (kwargs : list (string * Arg)) (st : State)
    : (Exn + list (string * Val)) * State :=
  match kwargs with
  | [] => (inr [], st)
  | (k, x) :: kwargs' =>
      match fulfill_arg x st with
      | (inl e, st1) => (inl e, st1)
      | (inr v, st1) =>
          match fulfill_kwargs kwargs' st1 with
          | (inl e, st2) => (inl e, st2)
          | (inr vs, st2) => (inr ((k, v) :: vs), st2)
          end
      end
  end.

(** The fetched values [AutoDepends.fulfill] reports as a mismatch:
    one excluded by the [Exclude] tag or, where the hint is checked at
    all, one that does not satisfy it. *)
Definition reports_mismatch (a : AutoDepends) (val : Val) : Prop :=
  match ad_metadata a with
  | Some (Exclude types) =>
      existsb (isinstance val) types = true ∨
      is_type val (ad_hint a) = false
  | Some (CustomLogger _) => False
  | _ => is_subhint (ad_hint a) LoggerT = false ∧
         is_type val (ad_hint a) = false
  end.

(** A default that refers to the cached [Depends] with identity [id]
    on factory [g]: that object itself, or an uncached [Depends] built
    on it (a distinct object). *)
Definition refers_to_cached (id g : nat) (sg : option SubGetter) (x : Arg) : Prop :=
  x = Dep (DependsOn id g sg true) ∨
  ∃ i, i ≠ id ∧ x = Dep (DependsRef i (DependsOn id g sg true) None false).

(** The scope holds nothing for [id], or [v]. *)
Definition scope_agrees (id : nat) (v : Val) (st : State) : Prop :=
  dep_scope st !! id = None ∨ dep_scope st !! id = Some v.

(** The user callable behind [injected]. *)
Definition Injected := list Val → list (string * Val) → State → (Exn + Val) * State.

(** [wrapped] of [inject_deps], from the bound arguments on. *)
Definition wrapped (injected : Injected) (_args : list Arg)
    (_kwargs : list (string * Arg)) (st : State) : (Exn + Val) * State :=
  match fulfill_args _args (new_scope st) with
  | (inl e, st1) => (inl e, st1)
  | (inr vals, st1) =>
      match fulfill_kwargs _kwargs st1 with
      | (inl e, st2) => (inl e, st2)
      | (inr kvals, st2) => injected vals kvals st2
      end
  end.

End WithTyping.

End DI.

(* ===================================================================== *)
(** ** Concrete worlds                                                    *)
(* ===================================================================== *)

Module Scenarios.
Import SessionBase.

(** Events are user ids here, and every rule matches two events of the
    same user. *)
Definition same_user (r : Rule) (e1 e2 : nat) : bool := Nat.eqb e1 e2.

(** Nothing allocated, nothing registered. *)
Definition w_empty : @World nat := mkWorld [] ∅ ∅ [] [].

(** After [Session.get(7, rule 0)] on the empty world: session 0 is
    working and registered under rule 0. *)
Definition w_working : @World nat :=
  mkWorld [mkSession 7 (Some 0) false WorkingSessionState]
          {[0 := [0]]} {[0]} [] [].

(** After [expire()] on session 0 of [w_working]. *)
Definition w_expired : @World nat :=
  mkWorld [mkSession 7 (Some 0) false ExpireSessionState]
          {[0 := [0]]} {[0]} [] [Notify (refresh_cond 0)].

(** After [suspend()] on session 0 of [w_working] has reached its wait. *)
Definition w_suspended : @World nat :=
  mkWorld [mkSession 7 (Some 0) false SuspendSessionState]
          {[0 := [0]]} {[0]} [] [Notify (refresh_cond 0)].

(** After [Session.get(7, rule=None, keep=True)] on the empty world: a
    one-shot session that is to be kept. *)
Definition w_oneshot_keep : @World nat :=
  mkWorld [mkSession 7 None true WorkingSessionState] ∅ ∅ [] [].

Import DI.

(** A small class hierarchy: 1 logger, 2 store, 3 rule, 4 bot, 5 adapter,
    6 event with the subclasses 7 (message event) and 8 (notice event),
    9 a class apart. A hint is satisfied by the instances of its class,
    and is a subhint of the hints of the classes above its own. *)
Definition toy_issubclass (a b : PyType) : bool :=
  Nat.eqb a b || (Nat.eqb b 6 && (Nat.eqb a 7 || Nat.eqb a 8)).
Definition hint_class (h : @Hint PyType) : PyType :=
  match h with HPlain t | HAnnotated t _ => t end.
Definition toy_is_type (v : Val) (h : @Hint PyType) : bool :=
  toy_issubclass (type_of v) (hint_class h).
Definition toy_is_subhint (h1 h2 : @Hint PyType) : bool :=
  toy_issubclass (hint_class h1) (hint_class h2).

(** A factory that returns a new object of class 9 at each invocation. *)
Definition toy_factory (g n : nat) : @Exn PyType + Val :=
  inr (PyObj 9 (100 * g + n)).

Definition toy_init :=
  AutoDepends_init toy_is_subhint (HPlain 1) (HPlain 2) (HPlain 3) (HPlain 4)
                   (HPlain 5) (HPlain 6).
Definition toy_auto_fulfill :=
  AutoDepends_fulfill toy_issubclass toy_is_type toy_is_subhint (HPlain 1).
Definition toy_wrapped :=
  wrapped toy_issubclass toy_is_type toy_is_subhint (HPlain 1) toy_factory.

(** A message event is current, and the logger context holds an object
    that is no logger. *)
Definition st_message : State :=
  mkState ∅ ∅ []
    (mkContexts (Some (PyObj 9 0))
                (Some (mkSessionView (PyObj 2 0) (PyObj 3 0) (PyObj 7 0)))
                (Some (PyObj 4 0)) (Some (PyObj 5 0))).

(** The parameter [event: NoticeEvent] of [handler]. *)
Definition notice_param : AutoDepends :=
  mkAutoDepends 0 (HPlain 8) "handler" "event" None Session_event.

(** The parameter [logger: Logger] of [handler]. *)
Definition logger_param : AutoDepends :=
  mkAutoDepends 1 (HPlain 1) "handler" "logger" None LoggerCtx_get.

(** The parameter [logger: Annotated[Logger, CustomLogger(getter)]],
    whose getter returns a logger. *)
Definition custom_logger_param : AutoDepends :=
  mkAutoDepends 2 (HAnnotated 1 [CustomLogger (GetterReturns (PyObj 1 5))])
                "handler" "logger"
                (Some (CustomLogger (GetterReturns (PyObj 1 5)))) LoggerCtx_get.

(** A [Depends] on factory 3, built with [cache=True]. *)
Definition cached_dep : @Depends PyType := DependsOn 5 3 None true.

End Scenarios.

(* ===================================================================== *)
(** ** session/base.py: vocabulary for the calls of [get]                 *)
(* ===================================================================== *)

Module SessionProps.
Import SessionBase.

Section WithEvents.

Context {EventT : Type}.

(** [o] ends without reaching a blocking [await]. *)
Definition immediate {A} (o : @Outcome EventT A) : Prop :=
  match o with
  | Await _ _ _ _ => False
  | _ => True
  end.

(** Whenever [o] returns, after any number of waits and whatever the
    other tasks have made of the world meanwhile, [P] holds of the value
    and the world at the return. *)
Fixpoint returns {A} (P : A → @World EventT → Prop) (o : Outcome A) : Prop :=
  match o with
  | Done a w => P a w
  | Raised _ _ => True
  | Await _ _ _ k => ∀ wk w1, returns P (k wk w1)
  end.

(** The session a call of [get] hands out is working, bound to the
    event of the call and has the [keep] of the call. *)
Definition handed_out (ev : EventT) (kp : bool) (res : option nat)
    (w : @World EventT) : Prop :=
  ∀ s, res = Some s →
       ∃ x, sessions w !! s = Some x ∧ _state x = WorkingSessionState ∧
            event x = ev ∧ keep x = kp.

(** The world after [nowait_cb], if there is one, has been awaited. *)
Definition after_nowait_cb (cb : option nat) (w : @World EventT) : @World EventT :=
  match cb with
  | Some c => set_trace (λ t, t ++ [CallNowaitCb c]) w
  | None => w
  end.

(** The world in which [get] on rule [r] scans: the lock of the rule
    has been created. *)
Definition scanning (r : Rule) (w : @World EventT) : @World EventT :=
  set_instance_locks (λ ls, {[r]} ∪ ls) w.

(** How the loop over [workings] goes on when its wait on the
    [refresh_cond] of [S] ends, [rest_set] being the members still to
    visit and [expires] the list so far. *)
Definition resumed_behind (compare : Rule → EventT → EventT → bool) (r : Rule)
    (ev : EventT) (cb : option nat) (kp : bool) (S : nat) (rest_set expires : list nat)
    (wk : wake) : M (option nat + list nat) :=
  match wk with
  | Cancelled => raise CancelledError
  | _ =>
      bind (on_state S ExpireSessionState) (λ ex,
        if ex then scan_workings compare r ev true cb kp rest_set (expires ++ [S])
        else
          bind (on_state S SuspendSessionState) (λ su,
            if su then bind (wakeup S ev) (λ _, ret (inl None))
            else bind (work S ev) (λ _,
                   bind (set_keep S kp) (λ _, ret (inl (Some S))))))
  end.

End WithEvents.

End SessionProps.

(* ===================================================================== *)
(** ** Vocabulary for the statements about _di.py                         *)
(* ===================================================================== *)

Module DIProps.
Import DI.

Section WithTyping.

Context {TypeExpr : Type}.
Variable factory : nat → nat → @Exn TypeExpr + Val.

(** [sub_getter] applied to a value, where there is one. *)
Definition sub_value (sg : option (@SubGetter TypeExpr)) (v : Val)
    : @Exn TypeExpr + Val :=
  match sg with
  | Some f => f v
  | None => inr v
  end.

(** What [_get] of a [Depends] on factory [g] gives when it makes the
    [n]-th invocation of the factory. *)
Definition resolution_at (g : nat) (sg : option (@SubGetter TypeExpr)) (n : nat)
    : @Exn TypeExpr + Val :=
  match factory g n with
  | inr v => sub_value sg v
  | inl e => inl e
  end.

(** The values a list of [sub_getter]s gives on [v], up to the first
    that raises. *)
Fixpoint sub_values (v : Val) (sgs : list (option (@SubGetter TypeExpr)))
    : @Exn TypeExpr + list Val :=
  match sgs with
  | [] => inr []
  | sg :: sgs' =>
      match sub_value sg v with
      | inl e => inl e
      | inr x =>
          match sub_values v sgs' with
          | inl e => inl e
          | inr xs => inr (x :: xs)
          end
      end
  end.

(** Defaults that are uncached [Depends] objects built on [base], each
    with its identity and its [sub_getter]. *)
Definition refs_to (base : @Depends TypeExpr)
    (refs : list (nat * option (@SubGetter TypeExpr))) : list (@Arg TypeExpr) :=
  map (λ r, Dep (DependsRef r.1 base r.2 false)) refs.

(** The values an [AutoDepends] lets through where it checks the hint:
    they satisfy it, and are instances of no type of its [Exclude] tag. *)
Definition admissible (issubclass : PyType → PyType → bool)
    (is_type : Val → @Hint TypeExpr → bool) (a : @AutoDepends TypeExpr) (v : Val)
    : Prop :=
  is_type v (ad_hint a) = true ∧
  ∀ types, ad_metadata a = Some (Exclude types) →
           ∀ t, t ∈ types → isinstance issubclass v t = false.

End WithTyping.

End DIProps.

(* ===================================================================== *)
(** ** utils.py: the decorated calls of speedlimit, singleton *)
(* ===================================================================== *)

Module UtilsCalls.
Import Utils.

(** *** Twin events *)

(** The flag the first event of a pair has after operation [o]. *)
Definition sets_first (o : TwinEvent.op * TwinEvent.side) : bool :=
  match o with
  | (TwinEvent.OpSet, TwinEvent.OnFirst)
  | (TwinEvent.OpClear, TwinEvent.OnSecond) => true
  | _ => false
  end.

(** *** speedlimit *)

(** What [result_set] is started on: the decorated function, or
    [callback]. *)
Inductive Target := TFunc | TCallback.

(** The task [_wrapped_func] creates:
    [result_set(target, res_fut, delay, ...)]. *)
Record ResultSet := mkResultSet { rs_target : Target; rs_delay : Q }.

(** [ValidateError] aside, what a call can end with here: the
    [OverflowError] of an integer too large to be converted to a float. *)
Inductive ArithError := OverflowError.

(** How [result_set] begins: with [delay > 0] it sleeps and then calls
    [_wrapped_func] again; otherwise it awaits [async_guard] on its
    target. *)
Inductive Started :=
| Guarded (t : Target)
| SleepRetry (delay : Q).

Definition result_set (rs : ResultSet) : Started :=
  if Qlt_le_dec 0 (rs_delay rs) then SleepRetry (rs_delay rs)
  else Guarded (rs_target rs).

Section Arithmetic.

(** The clock gives floats. A float is known by the rational number it
    stands for, and a comparison, also of a float with an integer, is
    exact; but what a subtraction gives is rounded, and nothing is
    assumed of it: [fsub x y] is the float the machine computes for
    [x - y], and [isub n y] the one it computes for [n - y] with [n] an
    integer, [None] when [n] is too large to be converted. (The readings
    of [time.perf_counter()] are finite and not negative, so their
    differences are finite too.) *)
Variable fsub : Q → Q → Q.
Variable isub : Z → Q → option Q.

(** [_wrapped_func]. [now] is the value [time.perf_counter()] gives for
    [passed_time], [now'] the one it gives when the window is reset. The
    environment is left as it is when the call raises. *)
Definition _wrapped_func (now now' : Q) (env : speedlimit_env)
    : (ArithError + ResultSet) * speedlimit_env :=
  let passed_time := fsub now (min_start env) in
  if Qle_bool passed_time (inject_Z (sl_duration env)) then
    if (called_num env <? sl_limit env)%Z then
      (inr (mkResultSet TFunc (-1)),
       mkSpeedlimit (sl_callback env) (sl_limit env) (sl_duration env)
                    (called_num env + 1)%Z (min_start env))
    else
      match sl_callback env with
      | Some _ => (inr (mkResultSet TCallback (-1)), env)
      | None =>
          match isub (sl_duration env) passed_time with
          | Some delay => (inr (mkResultSet TFunc delay), env)
          | None => (inl OverflowError, env)
          end
      end
  else
    (inr (mkResultSet TFunc (-1)),
     mkSpeedlimit (sl_callback env) (sl_limit env) (sl_duration env)
                  (0 + 1)%Z now').

(** How the task of a call begins, if the call creates one. *)
Definition started (r : ArithError + ResultSet) : ArithError + Started :=
  match r with
  | inr rs => inr (result_set rs)
  | inl e => inl e
  end.

(** Successive calls of [_wrapped_func], each with its clock readings,
    and how each goes on. *)
Fixpoint calls (clock : list (Q * Q)) (env : speedlimit_env)
    : list (ArithError + Started) * speedlimit_env :=
  match clock with
  | [] => ([], env)
  | (now, now') :: clock' =>
      let '(r, env1) := _wrapped_func now now' env in
      let '(ss, env2) := calls clock' env1 in
      (started r :: ss, env2)
  end.

(** What a call in the window in progress gets once the counter is at
    [limit]. *)
Definition over_limit (env : speedlimit_env) (now : Q) : ArithError + Started :=
  match sl_callback env with
  | Some _ => inr (Guarded TCallback)
  | None =>
      match isub (sl_duration env) (fsub now (min_start env)) with
      | Some delay => inr (result_set (mkResultSet TFunc delay))
      | None => inl OverflowError
      end
  end.

End Arithmetic.

(** *** singleton *)

(** The closure of [singleton(cls)]: [obj_map], which holds at most the
    key [cls], and how often [cls] has been called. An object is known by
    the number of the call that built it. *)
Record singleton_env := mkSingleton { obj_map : option nat; cls_calls : nat }.

(** [wrapped] of [singleton]; [cls n args] tells whether the [n]-th call
    of the class, with [args], raises. *)
Definition singleton_wrapped (cls : nat → list Z → option Exn) (args : list Z)
    (env : singleton_env) : (Exn + nat) * singleton_env :=
  match obj_map env with
  | Some o => (inr o, env)
  | None =>
      match cls (cls_calls env) args with
      | Some e => (inl e, mkSingleton None (S (cls_calls env)))
      | None =>
          (inr (cls_calls env),
           mkSingleton (Some (cls_calls env)) (S (cls_calls env)))
      end
  end.

Fixpoint singleton_calls (cls : nat → list Z → option Exn) (argss : list (list Z))
    (env : singleton_env) : list (Exn + nat) * singleton_env :=
  match argss with
  | [] => ([], env)
  | args :: argss' =>
      let '(r, env1) := singleton_wrapped cls args env in
      let '(rs, env2) := singleton_calls cls argss' env1 in
      (r :: rs, env2)
  end.

End UtilsCalls.

(* ===================================================================== *)
(** ** More concrete worlds                                               *)
(* ===================================================================== *)

Module MoreScenarios.
Import SessionBase Scenarios.

(** Rules that match any two events. *)
Definition any_event (r : Rule) (e1 e2 : nat) : bool := true.

(** Session 0 of rule 0 was kept and is spare. *)
Definition w_spare : @World nat :=
  mkWorld [mkSession 7 (Some 0) true SpareSessionState]
          {[0 := [0]]} {[0]} [] [Notify (refresh_cond 0)].

Import DI DIProps.

(** A factory whose first invocation raises and whose later ones return
    a new object of class 9. *)
Definition flaky_factory (g n : nat) : @Exn PyType + Val :=
  if Nat.eqb n 0 then inl (UserError 1) else inr (PyObj 9 n).

(** A [sub_getter] that gives the object next to the one it gets. *)
Definition next_object : @SubGetter PyType :=
  λ v, match v with
       | PyObj t i => inr (PyObj t (S i))
       | VOID => inl (UserError 2)
       end.

(** A [Depends] on factory 3, built without [cache]. *)
Definition uncached_dep : @Depends PyType := DependsOn 6 3 None false.

(** The parameter [event: MessageEvent] of [handler]. *)
Definition message_param : AutoDepends :=
  mkAutoDepends 3 (HPlain 7) "handler" "event" None Session_event.

Definition toy_fulfill_args :=
  fulfill_args toy_issubclass toy_is_type toy_is_subhint (HPlain 1) toy_factory.

Import Utils UtilsCalls.

(** [speedlimit(limit=2, duration=60)] built at time 0, and the same
    with its two calls used up. *)
Definition two_per_minute : speedlimit_env := mkSpeedlimit None 2 60 0 0.
Definition two_per_minute_used : speedlimit_env := mkSpeedlimit None 2 60 2 0.

(** An arithmetic that does not round, and one that rounds every
    difference to the nearest integer below. *)
Definition exact_fsub (x y : Q) : Q := (x - y)%Q.
Definition exact_isub (n : Z) (y : Q) : option Q := Some (inject_Z n - y)%Q.
Definition floor_fsub (x y : Q) : Q := inject_Z (Qfloor (x - y)).

(** A class whose first call raises. *)
Definition flaky_cls (n : nat) (args : list Z) : option Exn :=
  if Nat.eqb n 0 then Some (EUser 1) else None.

End MoreScenarios.

(* ===================================================================== *)
(** ** utils.py: RWContext                                                *)
(* ===================================================================== *)

Module RWContext.

(** An [RWContext] object: the values of the two semaphores
    ([read_semaphore] is [None] when reads are not limited), [read_num],
    and whether [read_num_lock] is held. *)
Record RWContext := mkRW {
  write_semaphore : nat;
  read_semaphore : option nat;
  read_num : Z;
  read_num_lock : bool
}.

Inductive InitError := ValueError.

(** [RWContext.__init__]. [if read_limit] is false for [None] and for 0;
    [asyncio.Semaphore] refuses a negative initial value. *)
Definition init (read_limit : option Z) : InitError + RWContext :=
  match read_limit with
  | None => inr (mkRW 1 None 0 false)
  | Some n =>
      if (n =? 0)%Z then inr (mkRW 1 None 0 false)
      else if (n <? 0)%Z then inl ValueError
      else inr (mkRW 1 (Some (Z.to_nat n)) 0 false)
  end.

(** Where a task stands in [read()] or in [write()]: between two of these
    points it runs without giving up control. *)
Inductive pc :=
| RStart        (* read(): before [read_semaphore.acquire()] *)
| RHasPermit    (* before [async with read_num_lock] *)
| RWaitWrite    (* holds [read_num_lock], in [write_semaphore.acquire()] *)
| RIn           (* at [yield]: inside the read region *)
| RDone
| WStart        (* write(): before [write_semaphore.acquire()] *)
| WIn           (* at [yield]: inside the write region *)
| WDone.

#[global] Instance pc_eq_dec : EqDecision pc.
Proof. solve_decision. Defined.

(** What a task does when it is scheduled: [None] when it is blocked or
    has finished. No task is cancelled. *)
Definition step (t : pc) (c : RWContext) : option (pc * RWContext) :=
  match t with
  | RStart =>
      match read_semaphore c with
      | None => Some (RHasPermit, c)
      | Some 0 => None
      | Some (S v) =>
          Some (RHasPermit,
                mkRW (write_semaphore c) (Some v) (read_num c) (read_num_lock c))
      end
  | RHasPermit =>
      if read_num_lock c then None
      else if (read_num c =? 0)%Z then
        match write_semaphore c with
        | 0 => Some (RWaitWrite,
                     mkRW (write_semaphore c) (read_semaphore c) (read_num c) true)
        | S v => Some (RIn, mkRW v (read_semaphore c) (read_num c + 1) false)
        end
      else
        Some (RIn, mkRW (write_semaphore c) (read_semaphore c) (read_num c + 1) false)
  | RWaitWrite =>
      match write_semaphore c with
      | 0 => None
      | S v => Some (RIn, mkRW v (read_semaphore c) (read_num c + 1) false)
      end
  | RIn =>
      if read_num_lock c then None
      else
        Some (RDone,
              mkRW (if (read_num c - 1 =? 0)%Z then S (write_semaphore c)
                    else write_semaphore c)
                   (S <$> read_semaphore c) (read_num c - 1) false)
  | WStart =>
      match write_semaphore c with
      | 0 => None
      | S v => Some (WIn, mkRW v (read_semaphore c) (read_num c) (read_num_lock c))
      end
  | WIn =>
      Some (WDone,
            mkRW (S (write_semaphore c)) (read_semaphore c) (read_num c)
                 (read_num_lock c))
  | RDone | WDone => None
  end.

(** The tasks that use one context, with the context. *)
Definition System : Type := RWContext * list pc.

(** The event loop runs task [i] up to its next point. *)
Definition schedule (i : nat) (s : System) : System :=
  match s.2 !! i with
  | Some t =>
      match step t s.1 with
      | Some (t', c') => (c', <[i := t']> s.2)
      | None => s
      end
  | None => s
  end.

Definition run (sched : list nat) (s : System) : System :=
  foldl (λ s i, schedule i s) s sched.

(** How many tasks stand at [p]. *)
Definition count (p : pc) (tasks : list pc) : nat :=
  length (filter (λ t, t = p) tasks).

(** Tasks that have not begun. *)
Definition fresh (tasks : list pc) : Prop :=
  Forall (λ t, t = RStart ∨ t = WStart) tasks.

(** No task is inside [read()] or [write()]. *)
Definition quiescent (tasks : list pc) : Prop :=
  Forall (λ t, t = RStart ∨ t = RDone ∨ t = WStart ∨ t = WDone) tasks.

(** What holds of a context with its tasks at every point: [limit] is
    the number of read permits, if reads are limited. *)
Definition consistent (limit : option nat) (s : System) : Prop :=
  read_num s.1 = Z.of_nat (count RIn s.2) ∧
  write_semaphore s.1 + count WIn s.2 + (if count RIn s.2 is 0 then 0 else 1) = 1 ∧
  count RWaitWrite s.2 = (if read_num_lock s.1 then 1 else 0) ∧
  (read_num_lock s.1 = true → count RIn s.2 = 0) ∧
  match limit with
  | None => read_semaphore s.1 = None
  | Some n =>
      ∃ v, read_semaphore s.1 = Some v ∧
           v + count RHasPermit s.2 + count RWaitWrite s.2 + count RIn s.2 = n
  end.

(** The tasks [d], [d + 1], ... up to [k] of them, each run twice: through
    [read_semaphore] and into the read region. *)
Fixpoint readers_schedule (d k : nat) : list nat :=
  match k with
  | 0 => []
  | S k' => d :: d :: readers_schedule (S d) k'
  end.

(** A context without read limit with [d] tasks inside [read()] and [k]
    that have not begun. *)
Definition readers_state (d k : nat) : System :=
  (mkRW (if d is 0 then 1 else 0) None (Z.of_nat d) false,
   replicate d RIn ++ replicate k RStart).

End RWContext.

(* ===================================================================== *)
(** ** plugin/ipc.py                                                      *)
(* ===================================================================== *)

Module Ipc.

(** The texts with which this file raises [BotIpcError]. *)
Inductive BotIpcError :=
| PrivateName             (* the name of a share starts with "_" *)
| StaticWithCallback      (* a static share built with a callback *)
| ReflectorBound          (* __call__: there is a reflector already *)
| StaticSetter            (* setter: the share is static *)
| CallbackBound           (* setter: there is a callback already *)
| NoReflector             (* get: no reflector is bound *)
| NoCallback              (* set: no callback is bound *)
| DuplicateShare (plugin name : string)
| NoSuchPlugin (plugin : string)
| NoSuchShare (id : string).

(** An [AsyncShare] or a [SyncShare] object; the two classes differ only
    in whether the reflector and the callback are awaited. Functions are
    known by their identity. *)
Record Share := mkShare {
  name : string;
  reflect : option nat;
  callback : option nat;
  _static : bool
}.

Definition startswith (prefix s : string) : bool := String.prefix prefix s.

(** [__init__]. *)
Definition Share_init (name : string) (reflector callabck : option nat)
    (static : bool) : BotIpcError + Share :=
  if startswith "_" name then inl PrivateName
  else if static && bool_decide (callabck ≠ None) then inl StaticWithCallback
  else inr (mkShare name reflector callabck static).

(** [__call__]: the decorator that binds the reflector. *)
Definition Share_call (func : nat) (self : Share) : BotIpcError + Share :=
  if bool_decide (reflect self ≠ None) then inl ReflectorBound
  else inr (mkShare (name self) (Some func) (callback self) (_static self)).

(** [setter]: the decorator that binds the callback. *)
Definition Share_setter (func : nat) (self : Share) : BotIpcError + Share :=
  if _static self then inl StaticSetter
  else if bool_decide (callback self ≠ None) then inl CallbackBound
  else inr (mkShare (name self) (reflect self) (Some func) (_static self)).

(** [get] and [set], up to the call of the bound function: which function
    is called. *)
Definition Share_get (self : Share) : BotIpcError + nat :=
  match reflect self with
  | None => inl NoReflector
  | Some f => inr f
  end.

Definition Share_set (self : Share) : BotIpcError + nat :=
  match callback self with
  | None => inl NoCallback
  | Some f => inr f
  end.

(** The two decorators, as applied to a share over its life. *)
Inductive Binding := Call (func : nat) | Setter (func : nat).

(** A decorator that raises leaves the share as it is. *)
Definition bind_step (self : Share) (b : Binding) : Share :=
  match (match b with
         | Call f => Share_call f self
         | Setter f => Share_setter f self
         end) with
  | inr self' => self'
  | inl _ => self
  end.

Definition bind_all (self : Share) (bs : list Binding) : Share :=
  foldl bind_step self bs.

(** The share objects allocated so far, and [IPCManager._shares], which
    holds references to them. *)
Record IPCManager := mkIPC {
  heap : list Share;
  _shares : gmap string (gmap string nat)
}.

Definition name_of (m : IPCManager) (obj : nat) : string :=
  match heap m !! obj with Some s => name s | None => "" end.

(** [IPCManager.add]. [setdefault] has been done when the duplicate test
    raises. *)
Definition add (plugin : string) (obj : nat) (m : IPCManager)
    : option BotIpcError * IPCManager :=
  let '(objs, shares1) :=
    match _shares m !! plugin with
    | Some objs => (objs, _shares m)
    | None => (∅, <[plugin := ∅]> (_shares m))
    end in
  match objs !! name_of m obj with
  | Some _ => (Some (DuplicateShare plugin (name_of m obj)), mkIPC (heap m) shares1)
  | None =>
      (None,
       mkIPC (heap m) (<[plugin := <[name_of m obj := obj]> objs]> shares1))
  end.

(** [IPCManager.add_func]: a static [SyncShare] named after the function,
    whose reflector returns the function. *)
Definition add_func (plugin : string) (func_name : string) (reflector : nat)
    (m : IPCManager) : option BotIpcError * IPCManager :=
  match Share_init func_name (Some reflector) None true with
  | inl e => (Some e, m)
  | inr s => add plugin (length (heap m)) (mkIPC (heap m ++ [s]) (_shares m))
  end.

(** [IPCManager.get]. *)
Definition get (plugin id : string) (m : IPCManager) : BotIpcError + nat :=
  match _shares m !! plugin with
  | None => inl (NoSuchPlugin plugin)
  | Some objs =>
      match objs !! id with
      | None => inl (NoSuchShare id)
      | Some obj => inr obj
      end
  end.

(** The calls made on a manager. *)
Inductive Op :=
| Add (plugin : string) (obj : nat)
| AddFunc (plugin func_name : string) (reflector : nat).

Definition apply_op (m : IPCManager) (o : Op) : IPCManager :=
  match o with
  | Add plugin obj => (add plugin obj m).2
  | AddFunc plugin func_name reflector => (add_func plugin func_name reflector m).2
  end.

(** Every plugin that has an entry has a share. *)
Definition no_empty_plugin (m : IPCManager) : Prop :=
  ∀ plugin objs, _shares m !! plugin = Some objs → objs ≠ ∅.

End Ipc.

(* ===================================================================== *)
(** ** models/session.py: BotSessionManager                               *)
(* ===================================================================== *)

Module BotSessions.

Inductive BotExceptionMsg :=
| DuplicateRegister    (* register: the handler has a session space already *)
| HupWithoutSpace      (* _hup: no space_tag *)
| HupExpired           (* _hup: the session has expired *)
| DestroyEmpty.        (* destory: an empty session *)

Inductive Exn :=
| BotException (msg : BotExceptionMsg)
| KeyError             (* a handler that is no key, set.remove of a non-member *)
| NoSuchObject.        (* a reference outside the heap; Python has none *)

Section WithEvents.

Context {EventT : Type}.

(** [handler._rule.verify(e1, e2)], indexed by the handler; the first
    event is [None] for a session without events. *)
Variable verify : nat → option EventT → EventT → bool.

(** A [BotSession] object, as far as the manager touches it:
    [_awake_signal] is seen through its flag alone. *)
Record BotSession := mkBotSession {
  store : list (nat * nat);
  hup_times : list Q;
  events : list EventT;
  _free_signal : bool;
  _awake_signal : bool;
  _expired : bool;
  _space_tag : option nat
}.

(** [BotSession.__init__]. *)
Definition BotSession_init (space_tag : option nat) : BotSession :=
  mkBotSession [] [] [] true true false space_tag.

(** The property [event]: the last event, if any. *)
Definition event (s : BotSession) : option EventT := last (events s).

(** The sessions allocated so far and the class attributes [STORAGE] and
    [HUP_STORAGE]; a set of sessions is the list of its members in
    iteration order. *)
Record Manager := mkManager {
  sessions : list BotSession;
  STORAGE : gmap nat (list nat);
  HUP_STORAGE : gmap nat (list nat)
}.

Definition set_session (s : nat) (x : BotSession) (m : Manager) : Manager :=
  mkManager (<[s := x]> (sessions m)) (STORAGE m) (HUP_STORAGE m).

(** [set.remove] and [set.add]. *)
Definition set_remove (s : nat) (l : list nat) : option (list nat) :=
  if bool_decide (s ∈ l) then Some (filter (λ y, y ≠ s) l) else None.
Definition set_add (s : nat) (l : list nat) : list nat :=
  if bool_decide (s ∈ l) then l else l ++ [s].

(** [cls.STORAGE[tag].remove(session)] and the like. *)
Definition storage_remove (tag s : nat) (m : Manager) : Exn + Manager :=
  match STORAGE m !! tag with
  | None => inl KeyError
  | Some l =>
      match set_remove s l with
      | None => inl KeyError
      | Some l' => inr (mkManager (sessions m) (<[tag := l']> (STORAGE m)) (HUP_STORAGE m))
      end
  end.
Definition storage_add (tag s : nat) (m : Manager) : Exn + Manager :=
  match STORAGE m !! tag with
  | None => inl KeyError
  | Some l =>
      inr (mkManager (sessions m) (<[tag := set_add s l]> (STORAGE m)) (HUP_STORAGE m))
  end.
Definition hup_storage_remove (tag s : nat) (m : Manager) : Exn + Manager :=
  match HUP_STORAGE m !! tag with
  | None => inl KeyError
  | Some l =>
      match set_remove s l with
      | None => inl KeyError
      | Some l' => inr (mkManager (sessions m) (STORAGE m) (<[tag := l']> (HUP_STORAGE m)))
      end
  end.
Definition hup_storage_add (tag s : nat) (m : Manager) : Exn + Manager :=
  match HUP_STORAGE m !! tag with
  | None => inl KeyError
  | Some l =>
      inr (mkManager (sessions m) (STORAGE m) (<[tag := set_add s l]> (HUP_STORAGE m)))
  end.

(** The result of a method that returns nothing: the exception it ends
    with, if any, and the manager as it has been left. *)
Definition Outcome : Type := option Exn * Manager.

(** [register]. *)
Definition register (handler : nat) (m : Manager) : Outcome :=
  match STORAGE m !! handler with
  | None =>
      (None, mkManager (sessions m) (<[handler := []]> (STORAGE m))
                       (<[handler := []]> (HUP_STORAGE m)))
  | Some _ => (Some (BotException DuplicateRegister), m)
  end.

(** [_make], for a handler with a rule ([with_rule]) or without. *)
Definition _make (ev : EventT) (handler : option nat) (with_rule : bool)
    (m : Manager) : (Exn + nat) * Manager :=
  let s := length (sessions m) in
  match handler with
  | Some h =>
      if with_rule then
        let m1 := mkManager (sessions m ++ [mkBotSession [] [] [ev] true true false (Some h)])
                            (STORAGE m) (HUP_STORAGE m) in
        match storage_add h s m1 with
        | inr m2 => (inr s, m2)
        | inl e => (inl e, m1)
        end
      else
        (inr s, mkManager (sessions m ++ [mkBotSession [] [] [ev] true true false None])
                          (STORAGE m) (HUP_STORAGE m))
  | None =>
      (inr s, mkManager (sessions m ++ [mkBotSession [] [] [ev] true true false None])
                        (STORAGE m) (HUP_STORAGE m))
  end.

(** [_hup]; [now] is what [time.time()] gives. *)
Definition _hup (now : Q) (s : nat) (m : Manager) : Outcome :=
  match sessions m !! s with
  | None => (Some NoSuchObject, m)
  | Some x =>
      match _space_tag x with
      | None => (Some (BotException HupWithoutSpace), m)
      | Some tag =>
          if _expired x then (Some (BotException HupExpired), m)
          else
            let x1 := mkBotSession (store x) (hup_times x ++ [now]) (events x)
                                   (_free_signal x) (_awake_signal x) (_expired x)
                                   (_space_tag x) in
            let m1 := set_session s x1 m in
            match storage_remove tag s m1 with
            | inl e => (Some e, m1)
            | inr m2 =>
                match hup_storage_add tag s m2 with
                | inl e => (Some e, m2)
                | inr m3 =>
                    (None,
                     set_session s
                       (mkBotSession (store x1) (hup_times x1) (events x1)
                                     (_free_signal x1) false (_expired x1)
                                     (_space_tag x1)) m3)
                end
            end
      end
  end.

(** [_rouse]. [HUP_STORAGE[None]] is a [KeyError]. *)
Definition _rouse (s : nat) (m : Manager) : Outcome :=
  match sessions m !! s with
  | None => (Some NoSuchObject, m)
  | Some x =>
      match _space_tag x with
      | None => (Some KeyError, m)
      | Some tag =>
          match hup_storage_remove tag s m with
          | inl e => (Some e, m)
          | inr m1 =>
              match storage_add tag s m1 with
              | inl e => (Some e, m1)
              | inr m2 =>
                  (None,
                   set_session s
                     (mkBotSession (store x) (hup_times x) (events x)
                                   (_free_signal x) true (_expired x)
                                   (_space_tag x)) m2)
              end
          end
      end
  end.

(** [_expire]. *)
Definition _expire (s : nat) (m : Manager) : Outcome :=
  match sessions m !! s with
  | None => (Some NoSuchObject, m)
  | Some x =>
      if _expired x then (None, m)
      else
        let m1 := set_session s
                    (mkBotSession [] [] [] (_free_signal x) (_awake_signal x) true
                                  (_space_tag x)) m in
        match _space_tag x with
        | Some tag =>
            match storage_remove tag s m1 with
            | inl e => (Some e, m1)
            | inr m2 => (None, m2)
            end
        | None => (None, m1)
        end
  end.

(** [BotSession.destory]. *)
Definition destory (s : nat) (m : Manager) : Outcome :=
  match sessions m !! s with
  | None => (Some NoSuchObject, m)
  | Some x =>
      match event x with
      | None => (Some (BotException DestroyEmpty), m)
      | Some _ => _expire s m
      end
  end.

(** [recycle]. *)
Definition recycle (s : nat) (alive : bool) (m : Manager) : Outcome :=
  match sessions m !! s with
  | None => (Some NoSuchObject, m)
  | Some x =>
      let m1 := set_session s
                  (mkBotSession (store x) (hup_times x) (events x) true
                                (_awake_signal x) (_expired x) (_space_tag x)) m in
      if alive then (None, m1) else _expire s m1
  end.

(** The loop of [__attach] over [HUP_STORAGE[handler]]: the first hung-up
    session whose last event the rule matches with the new one. *)
Definition attachable (handler : nat) (ev : EventT) (m : Manager) (s : nat) : bool :=
  match sessions m !! s with
  | Some x => verify handler (event x) ev
  | None => false
  end.

(** [__attach]. *)
Definition __attach (ev : EventT) (handler : nat) (m : Manager)
    : (Exn + bool) * Manager :=
  match HUP_STORAGE m !! handler with
  | None => (inl KeyError, m)
  | Some l =>
      match head (filter (λ s, attachable handler ev m s = true) l) with
      | None => (inr false, m)
      | Some s =>
          match sessions m !! s with
          | None => (inl NoSuchObject, m)
          | Some x =>
              let m1 := set_session s
                          (mkBotSession (store x) (hup_times x) (events x ++ [ev])
                                        (_free_signal x) (_awake_signal x)
                                        (_expired x) (_space_tag x)) m in
              match _rouse s m1 with
              | (Some e, m2) => (inl e, m2)
              | (None, m2) => (inr true, m2)
              end
          end
      end
  end.

End WithEvents.

Arguments mkBotSession {EventT}.
Arguments mkManager {EventT}.

End BotSessions.

(* ===================================================================== *)
(** ** _di.py: _init_auto_deps                                            *)
(* ===================================================================== *)

Module AutoDeps.
Import DI.

(** [inspect.Parameter.kind]. *)
Inductive ParamKind :=
| POSITIONAL_ONLY | POSITIONAL_OR_KEYWORD | VAR_POSITIONAL
| KEYWORD_ONLY | VAR_KEYWORD.

#[global] Instance ParamKind_eq_dec : EqDecision ParamKind.
Proof. solve_decision. Defined.

Inductive InitExn :=
| Raised (e : @Exn PyType)  (* what [AutoDepends.__init__] raised *)
| IndexError.               (* [ds.popleft()] on an empty deque *)

Section WithTyping.

Variable is_subhint : @Hint PyType → @Hint PyType → bool.
Variables LoggerT StoreT RuleOrNoneT BotT AdapterT EventT : @Hint PyType.

(** A default value: one the author wrote, or an [AutoDepends]. *)
Inductive DefaultVal :=
| Written (v : Val)
| Injects (a : @AutoDepends PyType).

Definition is_AutoDepends (d : DefaultVal) : bool :=
  match d with
  | Injects _ => true
  | Written _ => false
  end.

(** A parameter as [inspect.signature] gives it; [None] stands for
    [Parameter.empty]. *)
Record Param := mkParam {
  p_name : string;
  p_kind : ParamKind;
  p_default : option DefaultVal;
  p_annotation : option (@Hint PyType)
}.

(** A function object. Its code object gives the names of the positional
    parameters ([co_varnames[:co_argcount]]), how many of them are
    positional-only, the names of the keyword-only parameters and those
    of [*args] and [**kwargs]; these cannot be assigned. The attributes
    [__annotations__], [__defaults__] and [__kwdefaults__] can. *)
Record Function := mkFunction {
  __qualname__ : string;
  co_posonlyargcount : nat;
  positional : list string;
  varargs : option string;
  keyword_only : list string;
  varkw : option string;
  __annotations__ : gmap string (@Hint PyType);
  __defaults__ : option (list DefaultVal);
  __kwdefaults__ : option (gmap string DefaultVal)
}.

(** The function object after [__defaults__] and [__kwdefaults__] have
    been assigned. *)
Definition assign_defaults (f : Function) (d : option (list DefaultVal))
    (kw : option (gmap string DefaultVal)) : Function :=
  mkFunction (__qualname__ f) (co_posonlyargcount f) (positional f) (varargs f)
             (keyword_only f) (varkw f) (__annotations__ f) d kw.

(** The positional parameters of a signature: the first [non_default]
    have no default, the others take theirs from [defaults] in order.
    (As [signature] calls it, that tuple is not shorter than the names
    left.) *)
Fixpoint positional_params (ann : gmap string (@Hint PyType))
    (names : list string) (posonly_left non_default : nat)
    (defaults : list DefaultVal) : list Param :=
  match names with
  | [] => []
  | name :: names' =>
      let kind := match posonly_left with
                  | 0 => POSITIONAL_OR_KEYWORD
                  | S _ => POSITIONAL_ONLY
                  end in
      match non_default with
      | S n =>
          mkParam name kind None (ann !! name)
          :: positional_params ann names' (pred posonly_left) n defaults
      | 0 =>
          mkParam name kind (head defaults) (ann !! name)
          :: positional_params ann names' (pred posonly_left) 0 (tail defaults)
      end
  end.

(** [inspect.signature(func).parameters] of a plain function, in order:
    it is computed from the attributes of the function object each time.
    [__defaults__] belongs to the last positional parameters
    ([positional[:pos_count - len(defaults)]], a slice, have none), and a
    keyword-only parameter has the default [__kwdefaults__] holds under
    its name. *)
Definition signature (f : Function) : list Param :=
  let ann := __annotations__ f in
  let defaults := default [] (__defaults__ f) in
  let kwdefaults := default ∅ (__kwdefaults__ f) in
  let pos_count := length (positional f) in
  let non_default_count :=
    if length defaults <=? pos_count then pos_count - length defaults
    else 2 * pos_count - length defaults in
  positional_params ann (positional f) (co_posonlyargcount f) non_default_count
                    defaults
  ++ ((λ name, mkParam name VAR_POSITIONAL None (ann !! name))
        <$> option_list (varargs f))
  ++ ((λ name, mkParam name KEYWORD_ONLY (kwdefaults !! name) (ann !! name))
        <$> keyword_only f)
  ++ ((λ name, mkParam name VAR_KEYWORD None (ann !! name))
        <$> option_list (varkw f)).

(** The variables of the loop: the length of the deque [ds], [kwds],
    [vals], and the identity the next [AutoDepends] object gets. *)
Record Loop := mkLoop {
  ds : nat;
  kwds : gmap string DefaultVal;
  vals : list DefaultVal;
  next_id : nat
}.

(** The body of the loop over [sign.parameters]. An [AutoDepends] that
    has been built is an object, so the test [dep is None] never holds. *)
Definition visit (func : string) (allow_pass_arg : bool) (st : Loop)
    (p : Param) : InitExn + Loop :=
  match p_kind p with
  | VAR_POSITIONAL | VAR_KEYWORD => inr st
  | _ =>
      match p_default p with
      | Some d =>
          if bool_decide (is_Some (kwds st !! p_name p)) then inr st
          else
            match ds st with
            | 0 => inl IndexError
            | S n => inr (mkLoop n (kwds st) (vals st ++ [d]) (next_id st))
            end
      | None =>
          match p_annotation p with
          | None => inr st
          | Some hint =>
              match AutoDepends_init is_subhint LoggerT StoreT RuleOrNoneT BotT
                      AdapterT EventT (next_id st) func (p_name p) hint with
              | inl DependInitError =>
                  if allow_pass_arg then inr st else inl (Raised DependInitError)
              | inl e => inl (Raised e)
              | inr dep =>
                  match p_kind p with
                  | KEYWORD_ONLY =>
                      inr (mkLoop (ds st) (<[p_name p := Injects dep]> (kwds st))
                                  (vals st) (S (next_id st)))
                  | _ =>
                      inr (mkLoop (ds st) (kwds st) (vals st ++ [Injects dep])
                                  (S (next_id st)))
                  end
              end
          end
      end
  end.

Fixpoint visit_all (func : string) (allow_pass_arg : bool) (st : Loop)
    (ps : list Param) : (option InitExn) * Loop :=
  match ps with
  | [] => (None, st)
  | p :: ps' =>
      match visit func allow_pass_arg st p with
      | inl e => (Some e, st)
      | inr st' => visit_all func allow_pass_arg st' ps'
      end
  end.

(** [_init_auto_deps]: the exception it ends with, if any, the function
    object as it is left, and the next free identity. The signature is
    taken once, before the loop. When it raises, [__defaults__] has not
    been assigned, but a [__kwdefaults__] dict that was there has been
    written to in place. *)
Definition _init_auto_deps (f : Function) (allow_pass_arg : bool) (next : nat)
    : option InitExn * Function * nat :=
  let sign := signature f in
  let st0 := mkLoop (length (default [] (__defaults__ f)))
                    (default ∅ (__kwdefaults__ f)) [] next in
  match visit_all (__qualname__ f) allow_pass_arg st0 sign with
  | (Some e, st) =>
      (Some e,
       assign_defaults f (__defaults__ f)
                       (match __kwdefaults__ f with
                        | Some _ => Some (kwds st)
                        | None => None
                        end),
       next_id st)
  | (None, st) =>
      (None,
       assign_defaults f
         (if bool_decide (vals st = []) then None else Some (vals st))
         (if bool_decide (kwds st = ∅) then None else Some (kwds st)),
       next_id st)
  end.

(** What Python keeps true of the function object a [def] makes: the
    names of the parameters are distinct, [__defaults__] is not longer
    than the positional parameters, and [__kwdefaults__] holds only names
    of keyword-only parameters. *)
Definition well_formed (f : Function) : Prop :=
  NoDup (positional f ++ option_list (varargs f) ++ keyword_only f
         ++ option_list (varkw f)) ∧
  length (default [] (__defaults__ f)) ≤ length (positional f) ∧
  ∀ name, is_Some (default ∅ (__kwdefaults__ f) !! name) →
          name ∈ keyword_only f.

(** [p'] is the parameter [p] but for its default, which is the one of
    [p] if [p] has one. *)
Definition keeps_default (p p' : Param) : Prop :=
  p_name p' = p_name p ∧ p_kind p' = p_kind p ∧
  p_annotation p' = p_annotation p ∧
  (is_Some (p_default p) → p_default p' = p_default p).

End WithTyping.

End AutoDeps.

(* ===================================================================== *)
(** ** Concrete contexts, shares, managers and functions                  *)
(* ===================================================================== *)

Module FurtherScenarios.
Import Scenarios.

(** [RWContext(read_limit=2)]. *)
Definition two_readers : RWContext.RWContext := RWContext.mkRW 1 (Some 2) 0 false.

(** A share named "counter" with its reflector bound, and a manager that
    has allocated it and shares nothing yet. *)
Definition counter_share : Ipc.Share := Ipc.mkShare "counter" (Some 1) None false.
Definition new_manager : Ipc.IPCManager := Ipc.mkIPC [counter_share] ∅.

(** Rules that match any two events, and a manager on which handler 5
    has been registered. *)
Definition any_events (h : nat) (e1 : option nat) (e2 : nat) : bool := true.
Definition registered : @BotSessions.Manager nat :=
  BotSessions.mkManager [] {[5 := []]} {[5 := []]}.

Import DI AutoDeps.

(** [def handler(event: MessageEvent, n=..., *, logger: Logger,
    other: Other, flag=...)], where nothing can be injected for
    [Other]. *)
Definition handler_function : Function :=
  mkFunction "handler" 0 ["event"; "n"] None ["logger"; "other"; "flag"] None
    {["event" := HPlain 7; "logger" := HPlain 1; "other" := HPlain 9]}
    (Some [Written (PyObj 9 1)])
    (Some {["flag" := Written (PyObj 9 2)]}).

Definition toy_init_auto_deps :=
  _init_auto_deps toy_is_subhint (HPlain 1) (HPlain 2) (HPlain 3) (HPlain 4)
                  (HPlain 5) (HPlain 6).

End FurtherScenarios.

(* ===================================================================== *)
(** ** Theorems: twin events                                              *)
(* ===================================================================== *)

Module TwinEventFacts.
Import TwinEvent.

Lemma twinned_is_set_xor h a b :
  twinned h a b → xorb (is_set h a) (is_set h b) = true.
Proof.
  intros (_ & va & vb & Ha & Hb & Hx). unfold is_set. by rewrite Ha, Hb.
Qed.

Lemma twinned_sym h a b : twinned h a b → twinned h b a.
Proof.
  intros (Hne & va & vb & Ha & Hb & Hx). split; [done|].
  exists vb, va. by rewrite xorb_comm.
Qed.

Lemma set_twinned h a b : twinned h a b → twinned (set h a) a b.
Proof.
  intros (Hne & va & vb & Ha & Hb & Hx).
  assert (Hla : a < length h) by (by eapply lookup_lt_Some).
  assert (Hlb : b < length h) by (by eapply lookup_lt_Some).
  split; [done|]. exists true, false.
  unfold set, super_set, twin_of. rewrite Ha. simpl.
  rewrite list_lookup_insert_eq by done. simpl.
  unfold super_clear. rewrite list_lookup_insert_ne, Hb by done. simpl.
  rewrite list_lookup_insert_ne by done.
  rewrite list_lookup_insert_eq by done.
  rewrite list_lookup_insert_eq by (by rewrite length_insert).
  done.
Qed.

Lemma clear_twinned h a b : twinned h a b → twinned (clear h a) a b.
Proof.
  intros (Hne & va & vb & Ha & Hb & Hx).
  assert (Hla : a < length h) by (by eapply lookup_lt_Some).
  assert (Hlb : b < length h) by (by eapply lookup_lt_Some).
  split; [done|]. exists false, true.
  unfold clear, super_clear, twin_of. rewrite Ha. simpl.
  rewrite list_lookup_insert_eq by done. simpl.
  unfold super_set. rewrite list_lookup_insert_ne, Hb by done. simpl.
  rewrite list_lookup_insert_ne by done.
  rewrite list_lookup_insert_eq by done.
  rewrite list_lookup_insert_eq by (by rewrite length_insert).
  done.
Qed.

Lemma apply_op_twinned h a b o : twinned h a b → twinned (apply_op a b h o) a b.
Proof.
  intros H. destruct o as [[] []]; unfold apply_op; simpl.
  - by apply set_twinned.
  - by apply twinned_sym, set_twinned, twinned_sym.
  - by apply clear_twinned.
  - by apply twinned_sym, clear_twinned, twinned_sym.
Qed.

Lemma run_ops_twinned ops : ∀ h a b,
  twinned h a b → twinned (run_ops a b h ops) a b.
Proof.
  induction ops as [|o ops IH]; intros h a b H; [done|].
  unfold run_ops. simpl. apply IH. by apply apply_op_twinned.
Qed.

Lemma get_twin_event_twinned h :
  let '(h', (a, b)) := get_twin_event h in
  twinned h' a b ∧ is_set h' a = false ∧ is_set h' b = true.
Proof.
  unfold get_twin_event, alloc. simpl.
  set (a := length h). set (b := length (h ++ [init])).
  assert (Hb : b = S a) by (unfold a, b; rewrite length_app; simpl; lia).
  set (h0 := (h ++ [init]) ++ [init]).
  assert (H0a : h0 !! a = Some init).
  { unfold h0. rewrite lookup_app_l by (rewrite length_app; simpl; lia).
    rewrite lookup_app_r by (unfold a; lia).
    by replace (a - length h)%nat with 0%nat by (unfold a; lia). }
  assert (H0b : h0 !! b = Some init).
  { unfold h0. rewrite lookup_app_r by (unfold b; lia).
    by replace (b - length (h ++ [init]))%nat with 0%nat by (unfold b; lia). }
  assert (Hla : a < length h0) by (by eapply lookup_lt_Some).
  assert (Hlb : b < length h0) by (by eapply lookup_lt_Some).
  assert (Hne : a ≠ b) by lia.
  (* a.bind(b) *)
  set (h1 := bind h0 a b).
  assert (H1 : h1 !! a = Some (mkTwin false (Some b)) ∧
               h1 !! b = Some (mkTwin true None) ∧ length h1 = length h0).
  { unfold h1, bind, set_twin, is_set. rewrite H0a.
    rewrite list_lookup_insert_eq by done. simpl.
    unfold super_set. rewrite list_lookup_insert_ne, H0b by done.
    rewrite list_lookup_insert_ne by done.
    rewrite list_lookup_insert_eq by done.
    rewrite list_lookup_insert_eq by (by rewrite length_insert).
    by rewrite !length_insert. }
  destruct H1 as (H1a & H1b & H1l).
  (* b.bind(a) *)
  assert (H2 : bind h1 b a !! a = Some (mkTwin false (Some b)) ∧
               bind h1 b a !! b = Some (mkTwin true (Some a))).
  { unfold bind, set_twin, is_set. rewrite H1b.
    rewrite list_lookup_insert_eq by lia. simpl.
    unfold super_clear. rewrite list_lookup_insert_ne, H1a by done.
    rewrite list_lookup_insert_eq by (rewrite length_insert; lia).
    rewrite list_lookup_insert_ne by done.
    rewrite list_lookup_insert_eq by lia.
    done. }
  destruct H2 as (H2a & H2b).
  split; [|unfold is_set; by rewrite H2a, H2b].
  split; [done|]. by exists false, true.
Qed.

(** C6. The pair returned by [get_twin_event] has exactly one of its two
    events set (the first unset, the second set), and after any sequence
    of [set()] and [clear()] calls on either event exactly one of the two
    is set. *)
Theorem twin_invariant (h : heap) (ops : list (op * side)) :
  let '(h', (a, b)) := get_twin_event h in
  xorb (is_set h' a) (is_set h' b) = true ∧
  xorb (is_set (run_ops a b h' ops) a) (is_set (run_ops a b h' ops) b) = true.
Proof.
  pose proof (get_twin_event_twinned h) as H.
  destruct (get_twin_event h) as [h' [a b]].
  destruct H as (Ht & _ & _). split.
  - by apply twinned_is_set_xor.
  - by apply twinned_is_set_xor, run_ops_twinned.
Qed.

End TwinEventFacts.

(* ===================================================================== *)
(** ** Theorems: decorator validation                                     *)
(* ===================================================================== *)

Module UtilsFacts.
Import Utils.

Lemma speedlimit_limit now cb limit duration :
  (limit ≤ 0)%Z → speedlimit now cb limit duration = inl SpeedlimitLimit.
Proof.
  intros H. unfold speedlimit.
  by destruct (Z.leb_spec limit 0); [|lia].
Qed.

Lemma speedlimit_duration now cb limit duration :
  (0 < limit)%Z → (duration ≤ 0)%Z →
  speedlimit now cb limit duration = inl SpeedlimitDuration.
Proof.
  intros Hl Hd. unfold speedlimit.
  destruct (Z.leb_spec limit 0); [lia|].
  by destruct (Z.leb_spec duration 0); [|lia].
Qed.

Lemma speedlimit_accepts now cb limit duration :
  (0 < limit)%Z → (0 < duration)%Z →
  speedlimit now cb limit duration =
    inr (mkSpeedlimit cb limit duration 0%Z now).
Proof.
  intros Hl Hd. unfold speedlimit.
  destruct (Z.leb_spec limit 0); [lia|].
  by destruct (Z.leb_spec duration 0); [lia|].
Qed.

Lemma async_guard_not_callable func args :
  callable func = false → async_guard func args = inl (EValidate NotCallable).
Proof. by destruct func. Qed.




End UtilsFacts.

(* ===================================================================== *)
(** ** Theorems: dependency injection                                     *)
(* ===================================================================== *)

Module DIFacts.
Import DI.

Section WithTyping.

Context {TypeExpr : Type}.
Variable issubclass : PyType → PyType → bool.
Variable is_type : Val → @Hint TypeExpr → bool.
Variable is_subhint : @Hint TypeExpr → @Hint TypeExpr → bool.
Variables LoggerT StoreT RuleOrNoneT BotT AdapterT EventT : @Hint TypeExpr.
Variable factory : nat → nat → @Exn TypeExpr + Val.

Abbreviation call_orig_getter := (@call_orig_getter TypeExpr).
Abbreviation SubGetter := (@SubGetter TypeExpr).
Abbreviation reports_mismatch := (reports_mismatch issubclass is_type is_subhint LoggerT).
Abbreviation refers_to_cached := (@refers_to_cached TypeExpr).
Abbreviation AutoDepends_fulfill :=
  (AutoDepends_fulfill issubclass is_type is_subhint LoggerT).
Abbreviation AutoDepends_init :=
  (AutoDepends_init is_subhint LoggerT StoreT RuleOrNoneT BotT AdapterT EventT).
Abbreviation fulfill := (fulfill factory).
Abbreviation fulfill_arg := (fulfill_arg issubclass is_type is_subhint LoggerT factory).
Abbreviation fulfill_args := (fulfill_args issubclass is_type is_subhint LoggerT factory).
Abbreviation fulfill_kwargs :=
  (fulfill_kwargs issubclass is_type is_subhint LoggerT factory).
Abbreviation wrapped := (wrapped issubclass is_type is_subhint LoggerT factory).

(** An exception among the positional arguments ends [wrapped]. *)
Lemma fulfill_args_raise pre x post st st1 st2 vals e :
  fulfill_args pre st = (inr vals, st1) →
  fulfill_arg x st1 = (inl e, st2) →
  fulfill_args (pre ++ x :: post) st = (inl e, st2).
Proof.
  revert st vals. induction pre as [|y pre IH]; intros st vals Hpre Hx; simpl in *.
  - injection Hpre as <- <-. by rewrite Hx.
  - destruct (fulfill_arg y st) as [[e'|v] st'] eqn:Hy; [done|].
    destruct (fulfill_args pre st') as [[e'|vs] st''] eqn:Hp; [done|].
    injection Hpre as <- <-.
    by rewrite (IH _ _ Hp Hx).
Qed.

Lemma fulfill_kwargs_raise pre k x post st st1 st2 vals e :
  fulfill_kwargs pre st = (inr vals, st1) →
  fulfill_arg x st1 = (inl e, st2) →
  fulfill_kwargs (pre ++ (k, x) :: post) st = (inl e, st2).
Proof.
  revert st vals. induction pre as [|[k' y] pre IH]; intros st vals Hpre Hx; simpl in *.
  - injection Hpre as <- <-. by rewrite Hx.
  - destruct (fulfill_arg y st) as [[e'|v] st'] eqn:Hy; [done|].
    destruct (fulfill_kwargs pre st') as [[e'|vs] st''] eqn:Hp; [done|].
    injection Hpre as <- <-.
    by rewrite (IH _ _ Hp Hx).
Qed.

Lemma AutoDepends_fulfill_mismatch a st val :
  call_orig_getter (ad_orig_getter a) (contexts st) = inr val →
  reports_mismatch a val →
  AutoDepends_fulfill a st =
    (inl (DependNotMatched (ad_func a) (ad_arg_name a) (type_of val) (ad_hint a)),
     set_scope (ad_id a) val st).
Proof.
  intros Hget Hrep. unfold DI.AutoDepends_fulfill, AutoDepends_super_fulfill.
  rewrite Hget. unfold reports_mismatch in Hrep. unfold _get_unmatch_exc.
  destruct (ad_metadata a) as [[types|g|tag]|].
  - destruct (existsb _ types); [done|].
    destruct Hrep as [?|Hrep]; [done|]. by rewrite Hrep.
  - done.
  - destruct Hrep as [-> ->]. done.
  - destruct Hrep as [-> ->]. done.
Qed.

(** C8, as the code has it. When an auto-injected parameter is
    resolved and the fetched value is an instance of a type listed in
    its [Exclude] tag, or does not satisfy the declared hint while the
    parameter neither carries a [CustomLogger] tag nor, carrying no
    [Exclude] tag, has a hint that is a subhint of the logger type, then
    [DependNotMatched] is raised with (func_name, arg_name, real_type,
    hint), and [wrapped] ends with that exception whatever the user
    callable is: its body is not entered. This holds for a positional
    and for a keyword parameter. *)
Theorem unmatched_dependency_raised (a : AutoDepends) (st : State) (val : Val) :
  call_orig_getter (ad_orig_getter a) (contexts st) = inr val →
  reports_mismatch a val →
  let e := DependNotMatched (ad_func a) (ad_arg_name a) (type_of val) (ad_hint a) in
  AutoDepends_fulfill a st = (inl e, set_scope (ad_id a) val st) ∧
  (∀ st0 pre post kwargs vals,
      fulfill_args pre (new_scope st0) = (inr vals, st) →
      ∀ injected,
        wrapped injected (pre ++ Auto a :: post) kwargs st0 =
          (inl e, set_scope (ad_id a) val st)) ∧
  (∀ st0 st1 args pre k post vals kvals,
      fulfill_args args (new_scope st0) = (inr vals, st1) →
      fulfill_kwargs pre st1 = (inr kvals, st) →
      ∀ injected,
        wrapped injected args (pre ++ (k, Auto a) :: post) st0 =
          (inl e, set_scope (ad_id a) val st)).
Proof.
  intros Hget Hrep e.
  pose proof (AutoDepends_fulfill_mismatch a st val Hget Hrep) as Hf.
  split; [done|]. split.
  - intros st0 pre post kwargs vals Hpre injected. unfold DI.wrapped.
    by rewrite (fulfill_args_raise pre (Auto a) post _ _ _ _ _ Hpre Hf).
  - intros st0 st1 args pre k post vals kvals Hargs Hpre injected.
    unfold DI.wrapped. rewrite Hargs.
    by rewrite (fulfill_kwargs_raise pre k (Auto a) post _ _ _ _ _ Hpre Hf).
Qed.

(** *** Cached [Depends] *)

Section Cached.

Variables (id g : nat) (sg : option SubGetter) (v : Val).
Hypothesis v_not_void : v ≠ VOID.

Let d := DependsOn id g sg true.

(** The first resolution runs the factory and fills [_cached]. *)
Lemma fulfill_cached_first st :
  cached_of st id = VOID →
  first_resolution factory g sg st = inr v →
  ∃ st', fulfill d st = (inr v, st') ∧
         cached_of st' id = v ∧
         dep_scope st' !! id = Some v ∧
         invoked st' = invoked st ++ [g].
Proof using v_not_void.
  intros Hc Hf. unfold first_resolution in Hf.
  destruct (apply_sub_getter sg (call_getter factory g st)) as [[e|v'] st1] eqn:Hg;
    simpl in Hf; [done|]. injection Hf as ->.
  assert (Hinv : invoked st1 = invoked st ++ [g]).
  { unfold apply_sub_getter, call_getter in Hg.
    destruct (factory g (times_invoked g st)); [by injection Hg as _ <-|].
    destruct sg; by injection Hg as _ <-. }
  exists (set_scope id v (set_cached id v st1)).
  assert (Hcv : cached_of (set_cached id v st1) id = v).
  { unfold cached_of. simpl. by rewrite lookup_insert_eq. }
  split; [|split; [|split]].
  - unfold d. cbn [DI.fulfill]. unfold fulfill_with.
    cbn [dep_cache dep_id negb]. rewrite Hc.
    rewrite bool_decide_eq_true_2 by done. cbn [negb].
    rewrite Hg. by rewrite Hcv.
  - done.
  - simpl. by rewrite lookup_insert_eq.
  - done.
Qed.

(** Every later resolution returns [_cached] and runs nothing. *)
Lemma fulfill_cached_later st :
  cached_of st id = v →
  fulfill d st = (inr v, set_scope id v st).
Proof using v_not_void.
  intros Hc. simpl. unfold fulfill_with. simpl. rewrite Hc.
  by rewrite bool_decide_eq_false_2.
Qed.

Lemma fulfill_many_cached bs : ∀ st,
  cached_of st id = v →
  dep_scope st !! id = Some v →
  ∃ st', fulfill_many factory d bs st =
           (replicate (length bs) (inr v), st') ∧
         cached_of st' id = v ∧
         dep_scope st' !! id = Some v ∧
         invoked st' = invoked st.
Proof using v_not_void.
  induction bs as [|b bs IH]; intros st Hc Hs; cbn [fulfill_many length replicate].
  - by exists st.
  - rewrite fulfill_cached_later by (by destruct b).
    destruct (IH (set_scope id v (if b then new_scope st else st)))
      as (st' & -> & Hc' & Hs' & Hi); [by destruct b| |].
    { simpl. by rewrite lookup_insert_eq. }
    exists st'. split; [done|]. split; [done|]. split; [done|]. by destruct b.
Qed.

Lemma fulfill_uncached_ref i ref st :
  fulfill (DependsRef i ref None false) st =
    match (if bool_decide (default VOID (dep_scope st !! dep_id ref) = VOID)
           then fulfill ref st
           else (inr (default VOID (dep_scope st !! dep_id ref)), st)) with
    | (inr val, st') => (inr val, set_scope i val st')
    | (inl e, st') => (inl e, st')
    end.
Proof.
  cbn [DI.fulfill]. unfold fulfill_with. cbn [dep_cache dep_id negb].
  by destruct (if bool_decide _ then _ else _) as [[?|?] ?].
Qed.

(** A reference once [_cached] is filled: the value comes from
    [dep_scope] if the call has it there, and from [_cached] otherwise;
    either way [dep_scope] holds it afterwards. *)
Lemma fulfill_arg_cached_later x st :
  refers_to_cached id g sg x → cached_of st id = v → scope_agrees id v st →
  ∃ st', fulfill_arg x st = (inr v, st') ∧
         cached_of st' id = v ∧ dep_scope st' !! id = Some v ∧
         invoked st' = invoked st.
Proof using v_not_void.
  intros [->|(i & Hi & ->)] Hc Hs; unfold DI.fulfill_arg; fold d.
  - exists (set_scope id v st).
    rewrite fulfill_cached_later by done.
    split; [done|]. split; [done|]. split; [|done].
    simpl. by rewrite lookup_insert_eq.
  - rewrite fulfill_uncached_ref. cbn [dep_id d].
    destruct Hs as [Hs|Hs]; rewrite Hs; cbn [default].
    + rewrite bool_decide_eq_true_2 by done.
      rewrite fulfill_cached_later by done.
      eexists. split; [done|]. split; [done|]. split; [|done].
      simpl. rewrite lookup_insert_ne by done.
      by rewrite lookup_insert_eq.
    + rewrite bool_decide_eq_false_2 by done.
      eexists. split; [done|]. split; [done|]. split; [|done].
      simpl. by rewrite lookup_insert_ne.
Qed.

Lemma fulfill_arg_cached_first x st :
  refers_to_cached id g sg x → cached_of st id = VOID →
  dep_scope st !! id = None →
  first_resolution factory g sg st = inr v →
  ∃ st', fulfill_arg x st = (inr v, st') ∧
         cached_of st' id = v ∧ dep_scope st' !! id = Some v ∧
         invoked st' = invoked st ++ [g].
Proof using v_not_void.
  intros [->|(i & Hi & ->)] Hc Hs Hf; unfold DI.fulfill_arg; fold d;
    destruct (fulfill_cached_first st Hc Hf) as (st' & Hd & Hc' & Hs' & Hi').
  - exists st'. rewrite Hd. done.
  - rewrite fulfill_uncached_ref. cbn [dep_id d]. rewrite Hs. cbn [default].
    rewrite bool_decide_eq_true_2 by done. rewrite Hd.
    eexists. split; [done|]. split; [done|]. split; [|done].
    simpl. by rewrite lookup_insert_ne.
Qed.

Lemma fulfill_args_cached_later args : ∀ st,
  Forall (refers_to_cached id g sg) args → cached_of st id = v → scope_agrees id v st →
  ∃ st', fulfill_args args st = (inr (replicate (length args) v), st') ∧
         cached_of st' id = v ∧ scope_agrees id v st' ∧
         (dep_scope st !! id = Some v ∨ args ≠ [] → dep_scope st' !! id = Some v) ∧
         invoked st' = invoked st.
Proof using v_not_void.
  induction args as [|x args IH]; intros st Hall Hc Hs;
    cbn [DI.fulfill_args length replicate].
  - exists st. split; [done|]. split; [done|]. split; [done|].
    split; [by intros [?|?]|done].
  - apply Forall_cons in Hall as [Hx Hall'].
    destruct (fulfill_arg_cached_later x st Hx Hc Hs)
      as (st1 & -> & Hc1 & Hs1 & Hi1).
    destruct (IH st1 Hall' Hc1 (or_intror Hs1)) as (st2 & -> & Hc2 & Ha2 & Hs2 & Hi2).
    exists st2. split; [done|]. split; [done|]. split; [done|].
    split; [intros _; apply Hs2; by left|congruence].
Qed.

Lemma fulfill_args_cached_first x args st :
  Forall (refers_to_cached id g sg) (x :: args) → cached_of st id = VOID →
  dep_scope st !! id = None →
  first_resolution factory g sg st = inr v →
  ∃ st', fulfill_args (x :: args) st = (inr (replicate (S (length args)) v), st') ∧
         cached_of st' id = v ∧ dep_scope st' !! id = Some v ∧
         invoked st' = invoked st ++ [g].
Proof using v_not_void.
  intros Hall Hc Hs Hf. apply Forall_cons in Hall as [Hx Hall'].
  destruct (fulfill_arg_cached_first x st Hx Hc Hs Hf)
    as (st1 & Hd & Hc1 & Hs1 & Hi1).
  destruct (fulfill_args_cached_later args st1 Hall' Hc1 (or_intror Hs1))
    as (st2 & E & Hc2 & _ & Hs2 & Hi2).
  exists st2. cbn [DI.fulfill_args replicate]. rewrite Hd, E.
  split; [done|]. split; [done|]. split; [apply Hs2; by left|congruence].
Qed.

End Cached.

(** The loop over [_kwargs] does to the values what the loop over
    [_args] does, and keeps the keys. *)
Lemma fulfill_kwargs_as_args (kwargs : list (string * @Arg TypeExpr)) : ∀ st,
  fulfill_kwargs kwargs st =
    match fulfill_args kwargs.*2 st with
    | (inl e, st') => (inl e, st')
    | (inr vals, st') => (inr (zip kwargs.*1 vals), st')
    end.
Proof.
  induction kwargs as [|[k x] kwargs IH]; intros st; [done|].
  cbn [DI.fulfill_kwargs DI.fulfill_args fmap list_fmap fst snd].
  destruct (fulfill_arg x st) as [[e|val] st1]; [done|].
  rewrite IH. by destruct (fulfill_args kwargs.*2 st1) as [[e|vals] st2].
Qed.

Lemma zip_replicate_keys (kwargs : list (string * @Arg TypeExpr)) (v : Val) :
  zip kwargs.*1 (replicate (length kwargs.*2) v) = (λ kx, (kx.1, v)) <$> kwargs.
Proof.
  induction kwargs as [|[k x] kwargs IH]; [done|].
  cbn [fmap list_fmap fst snd length replicate zip zip_with]. f_equal. exact IH.
Qed.


(** C10. For a parameter annotated with a plain hint (no metadata)
    that is a subhint of the logger type, [AutoDepends.__init__]
    chooses the logger context as the source, and [fulfill] returns
    what the logger context holds without looking at its type: the
    outcome is that value, or the lookup error of an empty context,
    and never [DependNotMatched]. *)
Theorem logger_parameter_unchecked (id : nat) (func name : string) (t : TypeExpr) :
  is_subhint (HPlain t) LoggerT = true →
  ∃ a,
    AutoDepends_init id func name (HPlain t) = inr a ∧
    ad_orig_getter a = LoggerCtx_get ∧
    ad_metadata a = None ∧
    ∀ st,
      AutoDepends_fulfill a st =
        match logger_ctx (contexts st) with
        | Some val => (inr val, set_scope id val st)
        | None => (inl CtxLookupError, st)
        end ∧
      ∀ func_name arg_name real_type hint,
        fst (AutoDepends_fulfill a st) ≠
          inl (DependNotMatched func_name arg_name real_type hint).
Proof.
  intros Hsub. eexists. unfold DI.AutoDepends_init. simpl. rewrite Hsub.
  split; [reflexivity|]. split; [done|]. split; [done|].
  intros st. unfold DI.AutoDepends_fulfill, AutoDepends_super_fulfill. simpl.
  destruct (logger_ctx (contexts st)) as [val|]; simpl; rewrite ?Hsub;
    (split; [done|]); intros; simpl; discriminate.
Qed.

End WithTyping.

End DIFacts.

(* ===================================================================== *)
(** ** Theorems: sessions                                                 *)
(* ===================================================================== *)

Module SessionFacts.
Import SessionBase.

Section WithEvents.

Context {EventT : Type}.
Variable compare : Rule → EventT → EventT → bool.

Abbreviation World := (@World EventT).
Abbreviation Session := (@Session EventT).
Abbreviation get := (get compare).
Abbreviation scan_suspends := (scan_suspends compare).
Abbreviation scan_spares := (scan_spares compare).
Abbreviation scan_workings := (scan_workings compare).
Abbreviation matches := (matches compare).
Abbreviation first_match := (first_match compare).

Implicit Types (w : World) (x : Session) (s : nat) (ev : EventT).

(** *** Field access on an allocated session *)

Lemma get_session_eq w s x :
  sessions w !! s = Some x → get_session s w = Done x w.
Proof. intros H. unfold get_session. by rewrite H. Qed.

Lemma to_state_eq w s x c :
  sessions w !! s = Some x → to_state s c w = Done tt (moved s x c w).
Proof. intros H. unfold to_state. by rewrite H. Qed.

Lemma on_state_eq w s x c :
  sessions w !! s = Some x →
  on_state s c w = Done (bool_decide (_state x = c)) w.
Proof. intros H. unfold on_state. by rewrite H. Qed.

Lemma lookup_moved w s x c :
  sessions w !! s = Some x →
  sessions (moved s x c w) !! s = Some (mkSession (event x) (rule x) (keep x) c).
Proof.
  intros H. unfold moved. simpl. apply list_lookup_insert_eq.
  by eapply lookup_lt_Some.
Qed.

Lemma lookup_moved_ne w s s' x c :
  s ≠ s' → sessions (moved s x c w) !! s' = sessions w !! s'.
Proof. intros H. unfold moved. simpl. by apply list_lookup_insert_ne. Qed.

Lemma moved_twice w s x x' c c' :
  event x' = event x → rule x' = rule x → keep x' = keep x →
  moved s x' c' (moved s x c w) = moved s x c' w.
Proof.
  intros He Hr Hk. unfold moved, set_sessions. simpl.
  rewrite list_insert_insert_eq. by rewrite He, Hr, Hk.
Qed.

(** *** The transitions *)

Lemma work_spare w s x ev :
  sessions w !! s = Some x → _state x = SpareSessionState →
  work s ev w =
    Done tt (moved s (mkSession ev (rule x) (keep x) (_state x))
                   WorkingSessionState w).
Proof.
  intros H Hst. unfold work, bind. rewrite (get_session_eq _ _ _ H). simpl.
  rewrite Hst. simpl. unfold SpareSessionState_work, bind, set_event.
  rewrite H. simpl. unfold to_state. simpl.
  rewrite list_lookup_insert_eq by (by eapply lookup_lt_Some). simpl.
  unfold moved, set_sessions. simpl. by rewrite list_insert_insert_eq.
Qed.

Lemma rest_working w s x r :
  sessions w !! s = Some x → _state x = WorkingSessionState →
  rule x = Some r →
  rest s w = Done tt (moved s x SpareSessionState (signalled (refresh_cond s) w)).
Proof.
  intros H Hst Hr. unfold rest, bind. rewrite (get_session_eq _ _ _ H). simpl.
  rewrite Hst. simpl. unfold WorkingSessionState_rest, bind.
  rewrite (get_session_eq _ _ _ H). simpl. rewrite Hr. simpl.
  unfold to_state. simpl. by rewrite H.
Qed.

Lemma rest_working_no_rule w s x :
  sessions w !! s = Some x → _state x = WorkingSessionState →
  rule x = None →
  rest s w = Raised (SessionStateError NoRuleForRest) w.
Proof.
  intros H Hst Hr. unfold rest, bind. rewrite (get_session_eq _ _ _ H). simpl.
  rewrite Hst. simpl. unfold WorkingSessionState_rest, bind.
  rewrite (get_session_eq _ _ _ H). simpl. by rewrite Hr.
Qed.

Lemma expire_working w s x :
  sessions w !! s = Some x → _state x = WorkingSessionState →
  expire s w =
    Done tt (moved s x ExpireSessionState
               (match rule x with
                | Some _ => signalled (refresh_cond s) w
                | None => w
                end)).
Proof.
  intros H Hst. unfold expire, bind. rewrite (get_session_eq _ _ _ H). simpl.
  rewrite Hst. simpl. unfold WorkingSessionState_expire, bind.
  rewrite (get_session_eq _ _ _ H). simpl.
  destruct (rule x); simpl; unfold to_state; simpl; by rewrite H.
Qed.

Lemma wakeup_suspended w s x ev :
  sessions w !! s = Some x → _state x = SuspendSessionState →
  wakeup s ev w =
    Done tt (moved s (mkSession ev (rule x) (keep x) (_state x))
                   WorkingSessionState (signalled (wakeup_cond s) w)).
Proof.
  intros H Hst. unfold wakeup, bind. rewrite (get_session_eq _ _ _ H). simpl.
  rewrite Hst. simpl. unfold SuspendSessionState_wakeup, bind, set_event.
  rewrite H. simpl. unfold to_state. simpl.
  rewrite list_lookup_insert_eq by (by eapply lookup_lt_Some). simpl.
  unfold moved, signalled, set_sessions, set_trace. simpl.
  by rewrite list_insert_insert_eq.
Qed.

Lemma suspend_working w s x r timeout :
  sessions w !! s = Some x → _state x = WorkingSessionState →
  rule x = Some r →
  ∃ k,
    suspend s timeout w =
      Await (wakeup_cond s) timeout
            (moved s x SuspendSessionState (signalled (refresh_cond s) w)) k ∧
    ∀ wk w', k wk w' = suspend_resumes timeout wk w'.
Proof.
  intros H Hst Hr. unfold suspend, bind. rewrite (get_session_eq _ _ _ H). simpl.
  rewrite Hst. simpl. unfold WorkingSessionState_suspend, bind.
  rewrite (get_session_eq _ _ _ H). simpl. rewrite Hr. simpl.
  unfold to_state. simpl. rewrite H. simpl.
  eexists. split; [reflexivity|]. intros wk w'. by destruct timeout, wk.
Qed.

Lemma suspend_working_no_rule w s x timeout :
  sessions w !! s = Some x → _state x = WorkingSessionState →
  rule x = None →
  suspend s timeout w = Raised (SessionStateError NoRuleForSuspend) w.
Proof.
  intros H Hst Hr. unfold suspend, bind. rewrite (get_session_eq _ _ _ H). simpl.
  rewrite Hst. simpl. unfold WorkingSessionState_suspend, bind.
  rewrite (get_session_eq _ _ _ H). simpl. by rewrite Hr.
Qed.

Lemma refused_by_state w s x :
  sessions w !! s = Some x →
  (_state x ≠ SpareSessionState → ∀ ev, work s ev w = refused "work" w) ∧
  (_state x ≠ WorkingSessionState → rest s w = refused "rest" w) ∧
  (_state x ≠ WorkingSessionState → ∀ t, suspend s t w = refused "suspend" w) ∧
  (_state x ≠ SuspendSessionState → ∀ ev, wakeup s ev w = refused "wakeup" w) ∧
  (_state x ≠ WorkingSessionState → expire s w = refused "expire" w).
Proof.
  intros H.
  repeat split; intros Hst; intros;
    unfold work, rest, suspend, wakeup, expire, bind;
    rewrite (get_session_eq _ _ _ H); simpl;
    by destruct (_state x).
Qed.

(** C2, as the code has it. The transitions of a session, by state:
    every pair the table marks as an error raises [SessionStateError]
    and leaves the world as it is; [work] on a spare session, [rest],
    [suspend] and [expire] on a working one and [wakeup] on a suspended
    one have the post-state of the table ([rest] and [suspend] raise on
    a session without rule); and [expire] on a spare, a suspended or an
    expired session raises [SessionStateError] like any other method
    the state class does not define. *)
Theorem transition_table w s x :
  sessions w !! s = Some x →
  match _state x with
  | SpareSessionState =>
      (∀ ev, work s ev w =
               Done tt (moved s (mkSession ev (rule x) (keep x) (_state x))
                              WorkingSessionState w)) ∧
      rest s w = refused "rest" w ∧
      (∀ t, suspend s t w = refused "suspend" w) ∧
      (∀ ev, wakeup s ev w = refused "wakeup" w) ∧
      expire s w = refused "expire" w
  | WorkingSessionState =>
      (∀ ev, work s ev w = refused "work" w) ∧
      rest s w =
        match rule x with
        | Some _ => Done tt (moved s x SpareSessionState
                               (signalled (refresh_cond s) w))
        | None => Raised (SessionStateError NoRuleForRest) w
        end ∧
      (∀ t,
          match rule x with
          | Some _ =>
              ∃ k, suspend s t w =
                     Await (wakeup_cond s) t
                           (moved s x SuspendSessionState
                                  (signalled (refresh_cond s) w)) k ∧
                   ∀ wk w', k wk w' = suspend_resumes t wk w'
          | None => suspend s t w = Raised (SessionStateError NoRuleForSuspend) w
          end) ∧
      (∀ ev, wakeup s ev w = refused "wakeup" w) ∧
      expire s w =
        Done tt (moved s x ExpireSessionState
                   (match rule x with
                    | Some _ => signalled (refresh_cond s) w
                    | None => w
                    end))
  | SuspendSessionState =>
      (∀ ev, work s ev w = refused "work" w) ∧
      rest s w = refused "rest" w ∧
      (∀ t, suspend s t w = refused "suspend" w) ∧
      (∀ ev, wakeup s ev w =
               Done tt (moved s (mkSession ev (rule x) (keep x) (_state x))
                              WorkingSessionState
                              (signalled (wakeup_cond s) w))) ∧
      expire s w = refused "expire" w
  | ExpireSessionState =>
      (∀ ev, work s ev w = refused "work" w) ∧
      rest s w = refused "rest" w ∧
      (∀ t, suspend s t w = refused "suspend" w) ∧
      (∀ ev, wakeup s ev w = refused "wakeup" w) ∧
      expire s w = refused "expire" w
  end.
Proof.
  intros H.
  destruct (refused_by_state w s x H) as (Hw & Hr & Hs & Hk & He).
  destruct (_state x) eqn:Hst.
  - split; [intros ev; by apply work_spare|].
    split; [by apply Hr|]. split; [by apply Hs|]. split; [by apply Hk|].
    by apply He.
  - split; [by apply Hw|].
    split; [destruct (rule x) eqn:E;
            [by eapply rest_working|by apply (rest_working_no_rule w s x)]|].
    split; [|split; [by apply Hk|by apply expire_working]].
    intros t. destruct (rule x) eqn:E; [by eapply suspend_working|].
    by apply (suspend_working_no_rule w s x).
  - split; [by apply Hw|]. split; [by apply Hr|]. split; [by apply Hs|].
    split; [intros ev; by apply wakeup_suspended|]. by apply He.
  - split; [by apply Hw|]. split; [by apply Hr|]. split; [by apply Hs|].
    split; [by apply Hk|]. by apply He.
Qed.

(** C3. [suspend(timeout)] on a working session that has a rule
    signals [refresh_cond], puts the session in the suspended state and
    waits on [wakeup_cond] with the timeout; woken by a notification it
    returns [True], on the timeout it returns [False], and in both
    cases it leaves the world as it finds it when the wait ends: after
    a timeout the session is still suspended unless another task has
    moved it. On a session in any other state, or without rule, it
    raises [SessionStateError] and changes nothing. *)
Theorem suspend_spec w s x (timeout : option Q) :
  sessions w !! s = Some x →
  (_state x = WorkingSessionState → rule x ≠ None →
   let w' := moved s x SuspendSessionState (signalled (refresh_cond s) w) in
   ∃ k,
     suspend s timeout w = Await (wakeup_cond s) timeout w' k ∧
     trace w' = trace w ++ [Notify (refresh_cond s)] ∧
     state_in w' s = Some SuspendSessionState ∧
     (∀ w1, k Notified w1 = Done true w1) ∧
     (∀ t w1, timeout = Some t → k TimedOut w1 = Done false w1) ∧
     (∀ t, timeout = Some t →
           k TimedOut w' = Done false w' ∧
           state_in w' s = Some SuspendSessionState)) ∧
  (_state x ≠ WorkingSessionState ∨ rule x = None →
   ∃ msg, suspend s timeout w = Raised (SessionStateError msg) w).
Proof.
  intros H. split.
  - intros Hst Hr w'. destruct (rule x) as [r|] eqn:E; [|done].
    destruct (suspend_working w s x r timeout H Hst E) as (k & Hk & Hres).
    assert (Hs' : state_in w' s = Some SuspendSessionState).
    { unfold state_in, w'. by rewrite (lookup_moved _ s x). }
    exists k. split; [done|]. split; [done|]. split; [done|].
    split; [|split].
    + intros w1. rewrite Hres. by destruct timeout.
    + intros t w1 ->. by rewrite Hres.
    + intros t ->. by rewrite Hres.
  - intros [Hst|Hr].
    + destruct (refused_by_state w s x H) as (_ & _ & Hs & _).
      eexists. by apply Hs.
    + destruct (decide (_state x = WorkingSessionState)) as [Hst|Hst].
      * exists NoRuleForSuspend. by apply (suspend_working_no_rule w s x).
      * destruct (refused_by_state w s x H) as (_ & _ & Hs & _).
        eexists. by apply Hs.
Qed.

(** *** The scan of the suspended members *)

Lemma first_match_cons c r ev w s l :
  first_match c r ev w (s :: l) =
    if matches c r ev w s then Some s else first_match c r ev w l.
Proof.
  unfold SessionBase.first_match.
  destruct (SessionBase.matches compare c r ev w s) eqn:E.
  - by rewrite filter_cons_True.
  - rewrite filter_cons_False; [done|]. by rewrite E.
Qed.

Lemma first_match_Some c r ev w l s :
  first_match c r ev w l = Some s → s ∈ l ∧ matches c r ev w s = true.
Proof.
  unfold SessionBase.first_match. intros H.
  apply head_Some_elem_of in H. by apply list_elem_of_filter in H as [? ?].
Qed.

Lemma first_match_exists c r ev w l s :
  s ∈ l → matches c r ev w s = true → is_Some (first_match c r ev w l).
Proof.
  intros Hin Hm. unfold SessionBase.first_match.
  assert (Hf : s ∈ filter (λ s, SessionBase.matches compare c r ev w s = true) l)
    by (by apply list_elem_of_filter).
  destruct (filter _ l); [by apply elem_of_nil in Hf|by eexists].
Qed.

Lemma matches_inv c r ev w s :
  matches c r ev w s = true →
  ∃ x, sessions w !! s = Some x ∧ _state x = c ∧ compare r (event x) ev = true.
Proof.
  unfold SessionBase.matches. destruct (sessions w !! s) as [x|]; [|done].
  intros [H1 H2]%andb_true_iff. exists x.
  by apply bool_decide_eq_true in H1.
Qed.

Lemma scan_suspends_spec r ev l : ∀ w,
  scan_suspends r ev l w =
    match first_match SuspendSessionState r ev w l with
    | Some s => obind (wakeup s ev w) (λ _, ret (Some None))
    | None => Done None w
    end.
Proof.
  induction l as [|s l IH]; intros w; [done|].
  rewrite first_match_cons. cbn [SessionBase.scan_suspends].
  unfold bind at 1. unfold on_state, SessionBase.matches. cbn [obind].
  destruct (sessions w !! s) as [x|] eqn:Hx; [|apply IH].
  destruct (bool_decide (_state x = SuspendSessionState)); [|apply IH].
  unfold bind at 1. rewrite (get_session_eq _ _ _ Hx). cbn [obind andb].
  destruct (compare r (event x) ev); [done|apply IH].
Qed.


(** *** Leaving the scoped region *)

Lemma ctx_finally_working w s x :
  sessions w !! s = Some x → _state x = WorkingSessionState →
  ctx_finally s w =
    if keep x then
      match rule x with
      | Some _ => Done tt (moved s x SpareSessionState
                             (signalled (refresh_cond s) w))
      | None => Raised (SessionStateError NoRuleForRest) w
      end
    else
      Done tt (moved s x ExpireSessionState
                 (match rule x with
                  | Some _ => signalled (refresh_cond s) w
                  | None => w
                  end)).
Proof.
  intros H Hst. unfold ctx_finally, bind.
  rewrite (get_session_eq _ _ _ H). cbn [obind].
  destruct (keep x).
  - destruct (rule x) eqn:E.
    + by eapply rest_working.
    + by apply (rest_working_no_rule w s x).
  - by apply expire_working.
Qed.

(** [ctx_leave] once the [except] clause has run, in a world in which
    the session is working. *)
Lemma ctx_leave_finally {A} w s x (o : Outcome (option A)) (res : Exn + A) :
  sessions w !! s = Some x → _state x = WorkingSessionState →
  o = match res with
      | inr a => Done (Some a) w
      | inl CancelledError => Done None w
      | inl e => Raised e w
      end →
  ofinally (ofinally o (ctx_finally s)) on_ctx_exit =
    if keep x then
      match rule x with
      | Some _ =>
          ctx_result res (set_session_ctx tail
            (moved s x SpareSessionState (signalled (refresh_cond s) w)))
      | None =>
          Raised (SessionStateError NoRuleForRest) (set_session_ctx tail w)
      end
    else
      ctx_result res (set_session_ctx tail
        (moved s x ExpireSessionState
           (match rule x with
            | Some _ => signalled (refresh_cond s) w
            | None => w
            end))).
Proof.
  intros H Hst ->.
  pose proof (ctx_finally_working w s x H Hst) as Hfin.
  destruct res as [e|a]; [destruct e|]; cbn [ofinally]; rewrite Hfin;
    destruct (keep x); try destruct (rule x); reflexivity.
Qed.

(** C5, as the code has it. When the region of [ctx()] ends with the
    session in the working state, or by a cancellation with the session
    suspended (it is then first woken with its current event, which
    puts it in the working state), then on every way out (a value, an
    exception, a cancellation) the [finally] clause calls [rest()] if
    [keep] is true, which moves the session to the spare state if it
    has a rule and raises [SessionStateError], leaving it working, if
    it has none, and [expire()] otherwise, which moves it to the
    expired state; the context is popped in every case. *)
Theorem ctx_exit_paths {A} w s x (res : Exn + A) :
  sessions w !! s = Some x →
  (_state x = WorkingSessionState ∨
   (_state x = SuspendSessionState ∧ res = inl CancelledError)) →
  let w1 :=
    match _state x with
    | SuspendSessionState =>
        moved s x WorkingSessionState (signalled (wakeup_cond s) w)
    | _ => w
    end in
  ctx_leave s (region_end res w) =
    if keep x then
      match rule x with
      | Some _ =>
          ctx_result res (set_session_ctx tail
            (moved s x SpareSessionState (signalled (refresh_cond s) w1)))
      | None =>
          Raised (SessionStateError NoRuleForRest) (set_session_ctx tail w1)
      end
    else
      ctx_result res (set_session_ctx tail
        (moved s x ExpireSessionState
           (match rule x with
            | Some _ => signalled (refresh_cond s) w1
            | None => w1
            end))).
Proof.
  intros H [Hst|[Hst ->]] w1; unfold w1; rewrite Hst.
  - unfold ctx_leave.
    apply (ctx_leave_finally w s x _ res H Hst).
    destruct res as [e|a]; [|done]. cbn [region_end obind ocatch].
    destruct e; cbn [ctx_except]; try done.
    unfold bind. rewrite (on_state_eq _ _ _ _ H). cbn [obind].
    rewrite Hst. by rewrite bool_decide_eq_false_2.
  - unfold ctx_leave. cbn [region_end obind ocatch ctx_except].
    unfold bind at 1. rewrite (on_state_eq _ _ _ _ H). cbn [obind].
    rewrite Hst. rewrite bool_decide_eq_true_2 by done.
    unfold bind at 1. rewrite (get_session_eq _ _ _ H). cbn [obind].
    unfold bind at 1. rewrite (wakeup_suspended _ _ _ _ H Hst). cbn [obind].
    set (w1' := moved s _ WorkingSessionState (signalled (wakeup_cond s) w)).
    assert (H1 : sessions w1' !! s =
                 Some (mkSession (event x) (rule x) (keep x) WorkingSessionState)).
    { unfold w1'. apply list_lookup_insert_eq. by eapply lookup_lt_Some. }
    apply (ctx_leave_finally w1' s _ _ (inl CancelledError) H1); done.
Qed.

(** *** The registry invariant *)

Lemma settled_refl w : settled w w.
Proof. split; [|done]. intros s x H. by exists x. Qed.

Lemma settled_trans w1 w2 w3 : settled w1 w2 → settled w2 w3 → settled w1 w3.
Proof.
  intros [H12 K12] [H23 K23]. split; [|by auto].
  intros s x H. destruct (H12 s x H) as (x2 & H2 & Hr2 & He2).
  destruct (H23 s x2 H2) as (x3 & H3 & Hr3 & He3).
  exists x3. split; [done|]. split; [congruence|auto].
Qed.

Lemma registry_same w r : ∀ w',
  instances w' = instances w → registry w' r = registry w r.
Proof. intros w' E. unfold registry. by rewrite E. Qed.

(** A step that touches neither the sessions nor the registry. *)
Lemma held_same r w0 w w' :
  sessions w' = sessions w → instances w' = instances w →
  held r w0 w → held r w0 w'.
Proof.
  intros Es Ei ((Hl & Hwf) & Hs & Hk). split; [split|split].
  - intros s x r' H1 H2 H3. rewrite (registry_same w r' w' Ei).
    rewrite Es in H1. by eapply Hl.
  - intros r' l H. rewrite Ei in H. destruct (Hwf r' l H) as [Hnd Hm].
    split; [done|]. intros s Hin. rewrite Es. by apply Hm.
  - destruct Hs as [Hs1 Hs2]. split.
    + intros s x H. rewrite Es. by apply Hs1.
    + intros r' H. rewrite Ei. by apply Hs2.
  - destruct r; [|done]. by rewrite Ei.
Qed.

(** A step that rewrites one session, keeps its rule and does not
    bring it back from the expired state. *)
Lemma held_update r w0 w w' s x x' :
  sessions w !! s = Some x →
  rule x' = rule x →
  (_state x = ExpireSessionState → _state x' = ExpireSessionState) →
  sessions w' = <[s := x']> (sessions w) → instances w' = instances w →
  held r w0 w → held r w0 w'.
Proof.
  intros H Hr He Es Ei ((Hl & Hwf) & Hs & Hk).
  assert (Hlt : s < length (sessions w)) by (by eapply lookup_lt_Some).
  split; [split|split].
  - intros s1 x1 r1 H1 H2 H3. rewrite (registry_same w r1 w' Ei).
    rewrite Es in H1. destruct (decide (s = s1)) as [<-|Hne].
    + rewrite list_lookup_insert_eq in H1 by done. injection H1 as <-.
      apply (Hl s x r1 H); [congruence|].
      destruct (_state x) eqn:E; try done. by rewrite He in H3.
    + rewrite list_lookup_insert_ne in H1 by done. by eapply Hl.
  - intros r1 l H1. rewrite Ei in H1. destruct (Hwf r1 l H1) as [Hnd Hm].
    split; [done|]. intros s1 Hin. rewrite Es.
    destruct (Hm s1 Hin) as (x1 & Hx1 & Hr1).
    destruct (decide (s = s1)) as [<-|Hne].
    + rewrite list_lookup_insert_eq by done. exists x'. split; [done|].
      congruence.
    + rewrite list_lookup_insert_ne by done. by exists x1.
  - apply (settled_trans w0 w w'); [done|]. split.
    + intros s1 x1 H1. rewrite Es. destruct (decide (s = s1)) as [<-|Hne].
      * rewrite list_lookup_insert_eq by done. exists x'.
        split; [done|]. split; [congruence|]. intros E. apply He. congruence.
      * rewrite list_lookup_insert_ne by done. by exists x1.
    + intros r1 H1. by rewrite Ei.
  - destruct r; [|done]. by rewrite Ei.
Qed.

Lemma held_moved r w0 w wz s x x' c :
  sessions w !! s = Some x →
  rule x' = rule x →
  (_state x = ExpireSessionState → c = ExpireSessionState) →
  sessions wz = sessions w → instances wz = instances w →
  held r w0 w → held r w0 (moved s x' c wz).
Proof.
  intros H Hr He Es Ei Hh.
  eapply (held_update r w0 w _ s x (mkSession (event x') (rule x') (keep x') c));
    try done.
  unfold moved. simpl. by rewrite Es.
Qed.

Lemma held_raise r w0 w : held r w0 w → registry_inv w ∧ settled w0 w.
Proof. by intros (? & ? & ?). Qed.

(** The rule of sequencing. *)
Lemma runs_safely_bind {A B} (P : World → A → World → Prop)
    (P' : World → B → World → Prop) (f : A → M B) (o : Outcome A) : ∀ w0,
  runs_safely P w0 o →
  (∀ w0' a w, P w0' a w → runs_safely P' w0' (f a w)) →
  runs_safely P' w0 (obind o f).
Proof.
  induction o as [a w|e w|c t w k IH]; intros w0 Ho Hf; simpl in *.
  - by apply Hf.
  - done.
  - destruct Ho as (Hi & Hs & Hk). split; [done|]. split; [done|].
    intros wk w1 Hi1 Hs1. apply IH; [by apply Hk|done].
Qed.

Lemma runs_safely_mono {A} (P P' : World → A → World → Prop) (o : Outcome A) : ∀ w0,
  runs_safely P w0 o →
  (∀ w0' a w, P w0' a w → P' w0' a w) →
  runs_safely P' w0 o.
Proof.
  induction o as [a w|e w|c t w k IH]; intros w0 Ho Hf; simpl in *.
  - by apply Hf.
  - done.
  - destruct Ho as (Hi & Hs & Hk). split; [done|]. split; [done|].
    intros wk w1 Hi1 Hs1. apply IH; [by apply Hk|done].
Qed.

(** Where a task is resumed, the invariant of the loop holds again. *)
Lemma held_resumed r w0 w w1 :
  held r w0 w → registry_inv w1 → settled w w1 → held r w1 w1.
Proof.
  intros (_ & _ & Hk) Hi Hs. split; [done|]. split; [apply settled_refl|].
  destruct r; [|done]. destruct Hs as [_ Hs]. by apply Hs.
Qed.

(** The five transitions run safely. *)
Lemma transitions_safe r w0 w s :
  held r w0 w →
  (∀ ev, runs_safely (λ w0 (_ : unit) w, held r w0 w) w0 (work s ev w)) ∧
  runs_safely (λ w0 (_ : unit) w, held r w0 w) w0 (rest s w) ∧
  (∀ t, runs_safely (λ w0 (_ : bool) w, held r w0 w) w0 (suspend s t w)) ∧
  (∀ ev, runs_safely (λ w0 (_ : unit) w, held r w0 w) w0 (wakeup s ev w)) ∧
  runs_safely (λ w0 (_ : unit) w, held r w0 w) w0 (expire s w).
Proof.
  intros Hh. pose proof (held_raise _ _ _ Hh) as Hr.
  destruct (sessions w !! s) as [x|] eqn:H.
  2:{ repeat split; intros;
        unfold work, rest, suspend, wakeup, expire, bind, get_session;
        rewrite H; simpl; apply Hr. }
  destruct (refused_by_state w s x H) as (Rw & Rr & Rs & Rk & Re).
  assert (Hmv : ∀ x' c wz,
            rule x' = rule x →
            (_state x = ExpireSessionState → c = ExpireSessionState) →
            sessions wz = sessions w → instances wz = instances w →
            held r w0 (moved s x' c wz)).
  { intros. by eapply held_moved. }
  split; [|split; [|split; [|split]]].
  - intros ev. destruct (decide (_state x = SpareSessionState)) as [Hst|Hst].
    + rewrite (work_spare _ _ _ _ H Hst). simpl. apply Hmv; try done.
      by rewrite Hst.
    + rewrite Rw by done. exact Hr.
  - destruct (decide (_state x = WorkingSessionState)) as [Hst|Hst].
    + destruct (rule x) as [r'|] eqn:E.
      * rewrite (rest_working _ _ _ _ H Hst E). simpl. apply Hmv; try done.
        by rewrite Hst.
      * rewrite (rest_working_no_rule _ _ _ H Hst E). exact Hr.
    + rewrite Rr by done. exact Hr.
  - intros t. destruct (decide (_state x = WorkingSessionState)) as [Hst|Hst].
    + destruct (rule x) as [r'|] eqn:E.
      * destruct (suspend_working w s x r' t H Hst E) as (k & -> & Hk). simpl.
        assert (Hh' : held r w0 (moved s x SuspendSessionState
                                   (signalled (refresh_cond s) w))).
        { apply Hmv; try done. by rewrite Hst. }
        split; [apply Hh'|]. split; [apply Hh'|].
        intros wk w1 Hi1 Hs1. rewrite Hk.
        pose proof (held_resumed _ _ _ _ Hh' Hi1 Hs1) as Hh1.
        destruct t, wk; simpl; try exact Hh1; apply (held_raise _ _ _ Hh1).
      * rewrite (suspend_working_no_rule _ _ _ _ H Hst E). exact Hr.
    + rewrite Rs by done. exact Hr.
  - intros ev. destruct (decide (_state x = SuspendSessionState)) as [Hst|Hst].
    + rewrite (wakeup_suspended _ _ _ _ H Hst). simpl. apply Hmv; try done.
      by rewrite Hst.
    + rewrite Rk by done. exact Hr.
  - destruct (decide (_state x = WorkingSessionState)) as [Hst|Hst].
    + rewrite (expire_working _ _ _ H Hst). simpl.
      destruct (rule x) eqn:E; apply Hmv; try done; intros E'; by rewrite E' in Hst.
    + rewrite Re by done. exact Hr.
Qed.

Lemma set_keep_safe r w0 w s kp :
  held r w0 w →
  runs_safely (λ w0 (_ : unit) w, held r w0 w) w0 (set_keep s kp w).
Proof.
  intros Hh. unfold set_keep.
  destruct (sessions w !! s) as [x|] eqn:H; simpl; [|by apply (held_raise r)].
  by eapply (held_update r w0 w _ s x (mkSession (event x) (rule x) kp (_state x))).
Qed.

(** *** The loops of [get] *)

Lemma scan_suspends_safe ro r ev l : ∀ w0 w,
  held ro w0 w →
  runs_safely (λ w0 _ w, held ro w0 w) w0 (scan_suspends r ev l w).
Proof.
  induction l as [|s l IH]; intros w0 w Hh; [done|].
  cbn [SessionBase.scan_suspends]. unfold bind at 1. unfold on_state. cbn [obind].
  destruct (sessions w !! s) as [x|] eqn:H; [|by apply IH].
  destruct (bool_decide (_state x = SuspendSessionState)); [|by apply IH].
  unfold bind at 1. rewrite (get_session_eq _ _ _ H). cbn [obind].
  destruct (compare r (event x) ev); [|by apply IH].
  unfold bind. eapply runs_safely_bind; [by apply transitions_safe|].
  by intros.
Qed.

Lemma scan_spares_safe ro r ev kp l : ∀ w0 w,
  held ro w0 w →
  runs_safely (λ w0 _ w, held ro w0 w) w0 (scan_spares r ev kp l w).
Proof.
  induction l as [|s l IH]; intros w0 w Hh; [done|].
  cbn [SessionBase.scan_spares]. unfold bind at 1. unfold on_state. cbn [obind].
  destruct (sessions w !! s) as [x|] eqn:H; [|by apply IH].
  destruct (bool_decide (_state x = SpareSessionState)); [|by apply IH].
  unfold bind at 1. rewrite (get_session_eq _ _ _ H). cbn [obind].
  destruct (compare r (event x) ev); [|by apply IH].
  unfold bind at 1. eapply runs_safely_bind; [by apply transitions_safe|].
  intros w0' ? w' Hh'. simpl in Hh'. unfold bind.
  eapply runs_safely_bind; [by apply set_keep_safe|]. by intros.
Qed.

Lemma is_expired_eq w s :
  is_expired w s =
    match sessions w !! s with
    | Some x => bool_decide (_state x = ExpireSessionState)
    | None => false
    end.
Proof.
  unfold is_expired, state_in. destruct (sessions w !! s) as [x|]; simpl.
  - apply bool_decide_ext. split; [by intros [= ->]|by intros ->].
  - done.
Qed.

Lemma collect_expires_eq l : ∀ w,
  collect_expires l w = Done (filter (λ s, is_expired w s = true) l) w.
Proof.
  induction l as [|s l IH]; intros w; [done|].
  cbn [collect_expires]. unfold bind at 1. unfold on_state. cbn [obind].
  unfold bind. rewrite IH. cbn [obind]. unfold ret.
  rewrite <- is_expired_eq. destruct (is_expired w s) eqn:E.
  - by rewrite filter_cons_True.
  - rewrite filter_cons_False; [done|]. by rewrite E.
Qed.

Lemma is_expired_settled w w1 s :
  settled w w1 → is_expired w s = true → is_expired w1 s = true.
Proof.
  intros [Hs _]. rewrite !is_expired_eq.
  destruct (sessions w !! s) as [x|] eqn:H; [|done].
  intros E%bool_decide_eq_true. destruct (Hs s x H) as (x1 & -> & _ & He).
  apply bool_decide_eq_true. by apply He.
Qed.

Lemma scan_workings_safe ro r ev wt cb kp l : ∀ expires w0 w,
  held ro w0 w →
  Forall (λ s, is_expired w s = true) expires →
  runs_safely
    (λ w0 res w, held ro w0 w ∧
                 ∀ ex, res = inr ex → Forall (λ s, is_expired w s = true) ex)
    w0 (scan_workings r ev wt cb kp l expires w).
Proof.
  induction l as [|s l IH]; intros expires w0 w Hh Hex.
  { simpl. split; [done|]. by intros ex [= <-]. }
  cbn [SessionBase.scan_workings]. unfold bind at 1. unfold on_state. cbn [obind].
  destruct (sessions w !! s) as [x|] eqn:H; [|by apply IH].
  destruct (bool_decide (_state x = WorkingSessionState)); [|by apply IH].
  unfold bind at 1. rewrite (get_session_eq _ _ _ H). cbn [obind].
  destruct (compare r (event x) ev); cbn [negb]; [|by apply IH].
  destruct wt; cbn [negb].
  - (* the wait on refresh_cond *)
    unfold bind at 1. unfold wait. cbn [obind].
    split; [apply Hh|]. split; [apply Hh|].
    intros wk w1 Hi1 Hs1.
    pose proof (held_resumed _ _ _ _ Hh Hi1 Hs1) as Hh1.
    assert (Hex1 : Forall (λ s, is_expired w1 s = true) expires).
    { eapply Forall_impl; [exact Hex|]. intros s'. by apply is_expired_settled. }
    assert (Hgo :
      runs_safely
        (λ w0 res w, held ro w0 w ∧
           ∀ ex, res = inr ex → Forall (λ s, is_expired w s = true) ex)
        w1
        (bind (on_state s ExpireSessionState) (λ ex,
           if ex then scan_workings r ev true cb kp l (expires ++ [s])
           else bind (on_state s SuspendSessionState) (λ su,
                  if su then bind (wakeup s ev) (λ _, ret (inl None))
                  else bind (work s ev) (λ _,
                         bind (set_keep s kp) (λ _, ret (inl (Some s))))))
         w1)).
    { unfold bind at 1. unfold on_state at 1. cbn [obind].
      rewrite <- is_expired_eq. destruct (is_expired w1 s) eqn:E.
      - apply IH; [done|]. apply Forall_app. split; [done|].
        by apply Forall_singleton.
      - unfold bind at 1. unfold on_state. cbn [obind].
        destruct (match sessions w1 !! s with
                  | Some x0 => bool_decide (_state x0 = SuspendSessionState)
                  | None => false
                  end).
        + unfold bind. eapply runs_safely_bind; [by apply transitions_safe|].
          intros w0' ? w' Hh'. simpl in Hh'. simpl. split; [done|]. by intros ex [=].
        + unfold bind at 1.
          eapply runs_safely_bind; [by apply transitions_safe|].
          intros w0' ? w' Hh'. simpl in Hh'. unfold bind.
          eapply runs_safely_bind; [by apply set_keep_safe|].
          intros w0'' ? w'' Hh''. simpl in Hh''. simpl. split; [done|]. by intros ex [=]. }
    destruct wk; cbn [obind]; [exact Hgo|exact Hgo|].
    simpl. by apply (held_raise ro).
  - (* wait = False *)
    unfold bind. destruct cb as [cb|]; simpl.
    + split; [|by intros ex [=]].
      by eapply held_same; [| |exact Hh].
    + split; [done|]. by intros ex [=].
Qed.

(** Removing an expired session from a registry. *)
Lemma held_remove ro w0 w s r1 l1 :
  held ro w0 w → is_expired w s = true → instances w !! r1 = Some l1 →
  held ro w0 (set_instances <[r1 := filter (λ y, y ≠ s) l1]> w).
Proof.
  intros ((Hl & Hwf) & Hs & Hk) Hex Hl1. rewrite is_expired_eq in Hex.
  split; [split|split].
  - intros s1 x1 r' H1 H2 H3. simpl in H1.
    pose proof (Hl s1 x1 r' H1 H2 H3) as Hin.
    unfold registry in *. simpl.
    destruct (decide (r1 = r')) as [<-|Hne].
    + rewrite lookup_insert_eq. simpl. rewrite Hl1 in Hin. simpl in Hin.
      apply list_elem_of_filter. split; [|done].
      intros ->. rewrite H1 in Hex. apply bool_decide_eq_true in Hex.
      by rewrite Hex in H3.
    + by rewrite lookup_insert_ne.
  - intros r' l'. simpl. destruct (decide (r1 = r')) as [<-|Hne].
    + rewrite lookup_insert_eq. intros [= <-].
      destruct (Hwf r1 l1 Hl1) as [Hnd Hm]. split; [by apply NoDup_filter|].
      intros s1 Hin. apply list_elem_of_filter in Hin as [_ Hin]. by apply Hm.
    + rewrite lookup_insert_ne by done. apply Hwf.
  - apply (settled_trans w0 w _); [done|]. split.
    + intros s1 x1 H1. by exists x1.
    + intros r'. simpl. destruct (decide (r1 = r')) as [<-|Hne].
      * by rewrite lookup_insert_eq.
      * by rewrite lookup_insert_ne.
  - destruct ro as [r|]; [|done]. simpl.
    destruct (decide (r1 = r)) as [<-|Hne].
    + by rewrite lookup_insert_eq.
    + by rewrite lookup_insert_ne.
Qed.

Lemma remove_expires_safe ro expires : ∀ w0 w,
  held ro w0 w →
  Forall (λ s, is_expired w s = true) expires →
  runs_safely (λ w0 _ w, held ro w0 w) w0 (remove_expires expires w).
Proof.
  induction expires as [|s ex IH]; intros w0 w Hh Hex; [done|].
  apply Forall_cons in Hex as [Hs Hex].
  cbn [remove_expires]. unfold bind at 1. unfold get_session.
  destruct (sessions w !! s) as [x|] eqn:H; cbn [obind];
    [|by apply (held_raise ro)].
  unfold bind. unfold instances_remove.
  destruct (rule x) as [r1|]; [|by apply (held_raise ro)].
  destruct (instances w !! r1) as [l1|] eqn:Hl1; [|by apply (held_raise ro)].
  destruct (bool_decide (s ∈ l1)); [|by apply (held_raise ro)].
  cbn [obind]. apply IH.
  - by apply held_remove.
  - eapply Forall_impl; [exact Hex|]. intros s'. by rewrite !is_expired_eq.
Qed.

(** Creating a session under rule [r] and registering it. *)
Lemma create_safe r ev kp w0 w :
  held (Some r) w0 w →
  runs_safely (λ w0 _ w, held (Some r) w0 w) w0
    (bind (new_session ev (Some r) kp) (λ s,
       bind (instances_add r s) (λ _, ret (Some s))) w).
Proof.
  intros ((Hl & Hwf) & Hs & [l Hk]).
  unfold bind at 1. unfold new_session. cbn [obind].
  unfold bind, instances_add. cbn [instances set_sessions]. rewrite Hk.
  destruct (Hwf r l Hk) as [Hnd Hm].
  assert (Hfresh : length (sessions w) ∉ l).
  { intros Hin. destruct (Hm _ Hin) as (x & Hx & _).
    apply lookup_lt_Some in Hx. lia. }
  rewrite bool_decide_eq_false_2 by done. cbn [obind]. unfold ret.
  cbn [runs_safely]. split; [split|split].
  - intros s1 x1 r' H1 H2 H3. unfold registry. simpl in *.
    apply lookup_app_Some in H1 as [H1|[Hge H1]].
    + pose proof (Hl s1 x1 r' H1 H2 H3) as Hin. unfold registry in Hin.
      destruct (decide (r = r')) as [<-|Hne].
      * rewrite lookup_insert_eq. simpl. rewrite Hk in Hin. simpl in Hin.
        apply elem_of_app. by left.
      * by rewrite lookup_insert_ne.
    + apply list_lookup_singleton_Some in H1 as [H0 <-]. simpl in H2.
      injection H2 as <-. rewrite lookup_insert_eq. simpl.
      apply elem_of_app. right. apply list_elem_of_singleton. lia.
  - intros r' l'. simpl. destruct (decide (r = r')) as [<-|Hne].
    + rewrite lookup_insert_eq. intros [= <-]. split.
      * apply NoDup_app. split; [done|]. split; [|apply NoDup_singleton].
        intros y Hy Hy'. apply list_elem_of_singleton in Hy'. by subst.
      * intros s1 [Hin|Hin]%elem_of_app.
        -- destruct (Hm s1 Hin) as (x1 & Hx1 & Hr1). exists x1.
           split; [|done]. by apply lookup_app_l_Some.
        -- apply list_elem_of_singleton in Hin as ->.
           exists (mkSession ev (Some r) kp WorkingSessionState).
           split; [|done]. rewrite lookup_app_r by lia.
           by rewrite Nat.sub_diag.
    + rewrite lookup_insert_ne by done. intros H'.
      destruct (Hwf r' l' H') as [Hnd' Hm']. split; [done|].
      intros s1 Hin. destruct (Hm' s1 Hin) as (x1 & Hx1 & Hr1). exists x1.
      split; [|done]. by apply lookup_app_l_Some.
  - apply (settled_trans w0 w _); [done|]. split.
    + intros s1 x1 H1. exists x1. split; [|done]. simpl.
      by apply lookup_app_l_Some.
    + intros r'. simpl. destruct (decide (r = r')) as [<-|Hne].
      * by rewrite lookup_insert_eq.
      * by rewrite lookup_insert_ne.
  - simpl. by rewrite lookup_insert_eq.
Qed.

(** Creating a one-shot session. *)
Lemma create_oneshot_safe ev kp w :
  registry_inv w →
  registry_inv (set_sessions
                  (λ l, l ++ [mkSession ev None kp WorkingSessionState]) w) ∧
  settled w (set_sessions
               (λ l, l ++ [mkSession ev None kp WorkingSessionState]) w).
Proof.
  intros (Hl & Hwf). split; [split|split].
  - intros s1 x1 r' H1 H2 H3. simpl in H1.
    apply lookup_app_Some in H1 as [H1|[Hge H1]]; [by eapply Hl|].
    apply list_lookup_singleton_Some in H1 as [H0 <-]. done.
  - intros r' l' H'. simpl in H'.
    destruct (Hwf r' l' H') as [Hnd' Hm']. split; [done|].
    intros s1 Hin. destruct (Hm' s1 Hin) as (x1 & Hx1 & Hr1). exists x1.
    split; [|done]. simpl. by apply lookup_app_l_Some.
  - intros s1 x1 H1. exists x1. split; [|done]. simpl.
    by apply lookup_app_l_Some.
  - done.
Qed.

(** [get] runs safely. *)
Lemma get_safe ev rule_ wt cb kp w :
  registry_inv w →
  keeps_registry w (get ev rule_ wt cb kp w).
Proof.
  intros Hi. unfold keeps_registry, SessionBase.get.
  destruct rule_ as [r|].
  2:{ unfold bind, new_session. cbn [obind]. unfold ret. cbn [runs_safely].
      by apply create_oneshot_safe. }
  apply (runs_safely_mono (λ w0 _ w, held (Some r) w0 w));
    [|by intros ? ? ? (? & ? & ?)].
  unfold bind at 1. unfold setdefault_lock. cbn [obind].
  unfold bind at 1. unfold setdefault_instances. cbn [instances set_instance_locks].
  assert (Hh0 : held None w w) by (split; [done|split; [apply settled_refl|done]]).
  set (after_scans := λ _set : list nat,
    bind (scan_suspends r ev _set) (λ found,
      match found with
      | Some v => ret v
      | None =>
          bind (scan_spares r ev kp _set) (λ found,
            match found with
            | Some v => ret v
            | None =>
                bind (collect_expires _set) (λ expires,
                  bind (scan_workings r ev wt cb kp _set expires) (λ found,
                    match found with
                    | inl v => ret v
                    | inr expires =>
                        bind (remove_expires expires) (λ _,
                          bind (new_session ev (Some r) kp) (λ s,
                            bind (instances_add r s) (λ _, ret (Some s))))
                    end))
            end)
      end)).
  assert (Hgo : ∀ _set w', held (Some r) w w' →
            runs_safely (λ w0 _ w, held (Some r) w0 w) w (after_scans _set w')).
  { intros _set w' Hh. unfold after_scans. unfold bind at 1.
    eapply runs_safely_bind; [by apply scan_suspends_safe|].
    intros w1 found w2 Hh2. simpl in Hh2. destruct found as [v|]; [done|].
    unfold bind at 1.
    eapply runs_safely_bind; [by apply scan_spares_safe|].
    intros w3 found w4 Hh4. simpl in Hh4. destruct found as [v|]; [done|].
    unfold bind at 1. rewrite collect_expires_eq. cbn [obind].
    unfold bind at 1.
    eapply runs_safely_bind.
    { apply scan_workings_safe; [done|]. apply Forall_forall.
      by intros s' [? _]%list_elem_of_filter. }
    intros w5 found w6 [Hh6 Hex6]. destruct found as [v|expires]; [done|].
    unfold bind at 1.
    eapply runs_safely_bind; [by apply remove_expires_safe; [|apply Hex6]|].
    intros w7 ? w8 Hh8. simpl in Hh8. by apply create_safe. }
  destruct (instances w !! r) as [l|] eqn:Hl; cbn [obind].
  - apply Hgo. eapply (held_same _ w w).
    + done.
    + done.
    + destruct Hh0 as (? & ? & _). split; [done|]. split; [done|]. by exists l.
  - apply Hgo. destruct Hi as [Hlr Hwf]. split; [split|split].
    + intros s1 x1 r' H1 H2 H3. simpl in H1.
      pose proof (Hlr s1 x1 r' H1 H2 H3) as Hin. unfold registry in *. simpl.
      destruct (decide (r = r')) as [<-|Hne].
      * rewrite Hl in Hin. simpl in Hin. by apply elem_of_nil in Hin.
      * by rewrite lookup_insert_ne.
    + intros r' l'. simpl. destruct (decide (r = r')) as [<-|Hne].
      * rewrite lookup_insert_eq. intros [= <-]. split; [apply NoDup_nil_2|].
        by intros s1 Hin%elem_of_nil.
      * rewrite lookup_insert_ne by done. apply Hwf.
    + split.
      * intros s1 x1 H1. by exists x1.
      * intros r'. simpl. destruct (decide (r = r')) as [<-|Hne].
        -- by rewrite lookup_insert_eq.
        -- by rewrite lookup_insert_ne.
    + simpl. by rewrite lookup_insert_eq.
Qed.

(** *** A call of [get] that finds no session to attach to *)

Lemma first_match_None c r ev w l :
  (∀ s, s ∈ l → matches c r ev w s = false) → first_match c r ev w l = None.
Proof.
  induction l as [|s l IH]; intros H; [done|].
  rewrite first_match_cons, (H s) by (by left).
  apply IH. intros s' Hs'. apply H. by right.
Qed.

Lemma scan_spares_none r ev kp l : ∀ w,
  (∀ s, s ∈ l → matches SpareSessionState r ev w s = false) →
  scan_spares r ev kp l w = Done None w.
Proof.
  induction l as [|s l IH]; intros w Hno; [done|].
  assert (IH' : scan_spares r ev kp l w = Done None w).
  { apply IH. intros s' Hs'. apply Hno. by right. }
  specialize (Hno s (list_elem_of_here _ _)). unfold SessionBase.matches in Hno.
  cbn [SessionBase.scan_spares]. unfold bind at 1. unfold on_state. cbn [obind].
  destruct (sessions w !! s) as [x|] eqn:H; [|done].
  destruct (bool_decide (_state x = SpareSessionState)); [|done].
  unfold bind at 1. rewrite (get_session_eq _ _ _ H). cbn [obind].
  simpl in Hno. by rewrite Hno.
Qed.

Lemma scan_workings_none r ev wt cb kp l expires : ∀ w,
  (∀ s, s ∈ l → matches WorkingSessionState r ev w s = false) →
  scan_workings r ev wt cb kp l expires w = Done (inr expires) w.
Proof.
  induction l as [|s l IH]; intros w Hno; [done|].
  assert (IH' : scan_workings r ev wt cb kp l expires w = Done (inr expires) w).
  { apply IH. intros s' Hs'. apply Hno. by right. }
  specialize (Hno s (list_elem_of_here _ _)). unfold SessionBase.matches in Hno.
  cbn [SessionBase.scan_workings]. unfold bind at 1. unfold on_state. cbn [obind].
  destruct (sessions w !! s) as [x|] eqn:H; [|done].
  destruct (bool_decide (_state x = WorkingSessionState)); [|done].
  unfold bind at 1. rewrite (get_session_eq _ _ _ H). cbn [obind].
  simpl in Hno. by rewrite Hno.
Qed.

(** The loop over [expires] removes them all from the registry of
    their rule. *)
Lemma remove_expires_eq r expires : ∀ w l,
  instances w !! r = Some l →
  NoDup expires →
  (∀ s, s ∈ expires →
        s ∈ l ∧ ∃ x, sessions w !! s = Some x ∧ rule x = Some r) →
  remove_expires expires w =
    Done tt (set_instances <[r := filter (λ y, y ∉ expires) l]> w).
Proof.
  induction expires as [|s ex IH]; intros w l Hl Hnd Hin.
  - simpl. unfold ret. f_equal. destruct w as [ss ins lk cx tr]. simpl in *.
    unfold set_instances. simpl. f_equal.
    symmetry. apply insert_id. rewrite Hl. f_equal. clear Hl Hin.
    induction l as [|y l IH]; [done|].
    rewrite filter_cons_True by apply not_elem_of_nil. by f_equal.
  - apply NoDup_cons in Hnd as [Hs Hnd].
    destruct (Hin s (list_elem_of_here _ _)) as (Hsl & x & Hx & Hr).
    cbn [remove_expires]. unfold bind at 1. rewrite (get_session_eq _ _ _ Hx).
    cbn [obind]. unfold bind. unfold instances_remove. rewrite Hr, Hl.
    rewrite bool_decide_eq_true_2 by done. cbn [obind].
    rewrite (IH _ (filter (λ y, y ≠ s) l)).
    + f_equal. unfold set_instances. simpl. f_equal.
      rewrite insert_insert_eq. f_equal.
      rewrite list_filter_filter. apply list_filter_iff.
      intros y. rewrite not_elem_of_cons. tauto.
    + simpl. by rewrite lookup_insert_eq.
    + done.
    + intros s' Hs'. destruct (Hin s' (list_elem_of_further _ _ _ Hs'))
        as (Hs'l & x' & Hx' & Hr').
      split.
      * apply list_elem_of_filter. split; [|done]. by intros ->.
      * by exists x'.
Qed.

Lemma filter_complement (f : nat → bool) (l0 : list nat) : ∀ l,
  l ⊆ l0 →
  filter (λ y, y ∉ filter (λ s, f s = true) l0) l = filter (λ s, f s = false) l.
Proof.
  induction l as [|y l IH]; intros Hsub; [done|].
  assert (Hy : y ∈ l0) by (apply Hsub; by left).
  assert (Hl : l ⊆ l0) by (intros z Hz; apply Hsub; by right).
  destruct (f y) eqn:E.
  - rewrite filter_cons_False.
    2:{ intros Hn. apply Hn. by apply list_elem_of_filter. }
    rewrite filter_cons_False by (by rewrite E). by apply IH.
  - rewrite filter_cons_True.
    2:{ intros [Hn _]%list_elem_of_filter. by rewrite E in Hn. }
    rewrite filter_cons_True by done. f_equal. by apply IH.
Qed.

(** With no live member of the registry matching the event, [get]
    removes the expired members, creates a session and registers it. *)
Lemma get_creates_and_cleans w r l ev (wt : bool) (cb : option nat) (kp : bool) :
  registry_inv w →
  instances w !! r = Some l →
  (∀ s c, s ∈ l → c ≠ ExpireSessionState → matches c r ev w s = false) →
  ∃ w',
    get ev (Some r) wt cb kp w = Done (Some (length (sessions w))) w' ∧
    sessions w' = sessions w ++ [mkSession ev (Some r) kp WorkingSessionState] ∧
    instances w' =
      <[r := filter (λ s, is_expired w s = false) l ++ [length (sessions w)]]>
        (instances w) ∧
    ∀ s, s ∈ registry w' r → is_expired w' s = false.
Proof.
  intros [Hlr Hwf] Hl Hno. destruct (Hwf r l Hl) as [Hnd Hm].
  set (wl := set_instance_locks (λ ls, {[r]} ∪ ls) w).
  set (n := length (sessions w)).
  set (keep_l := filter (λ s, is_expired w s = false) l).
  assert (Hfresh : ∀ l', l' ⊆ l → n ∉ l').
  { intros l' Hsub Hin. destruct (Hm n (Hsub _ Hin)) as (x & Hx & _).
    apply lookup_lt_Some in Hx. unfold n in Hx. lia. }
  exists (mkWorld (sessions w ++ [mkSession ev (Some r) kp WorkingSessionState])
                  (<[r := keep_l ++ [n]]> (instances w))
                  ({[r]} ∪ instance_locks w) (session_ctx w) (trace w)).
  split; [|split; [done|split; [done|]]].
  - unfold SessionBase.get. unfold bind at 1. unfold setdefault_lock. cbn [obind].
    fold wl. unfold bind at 1. unfold setdefault_instances.
    change (instances wl) with (instances w). rewrite Hl. cbn [obind].
    unfold bind at 1. rewrite scan_suspends_spec.
    rewrite first_match_None by (intros s Hs; by apply Hno). cbn [obind].
    unfold bind at 1. rewrite scan_spares_none by (intros s Hs; by apply Hno).
    cbn [obind]. unfold bind at 1. rewrite collect_expires_eq. cbn [obind].
    unfold bind at 1.
    rewrite scan_workings_none by (intros s Hs; by apply Hno). cbn [obind].
    unfold bind at 1.
    rewrite (remove_expires_eq r _ wl l Hl).
    2:{ by apply NoDup_filter. }
    2:{ intros s [_ Hs]%list_elem_of_filter. split; [done|]. by apply Hm. }
    cbn [obind]. unfold bind at 1. unfold new_session. cbn [obind].
    unfold bind at 1. unfold instances_add. cbn [instances set_sessions set_instances].
    rewrite lookup_insert_eq.
    change (is_expired wl) with (is_expired w).
    rewrite (filter_complement (is_expired w) l l) by done. fold keep_l.
    rewrite bool_decide_eq_false_2.
    2:{ apply Hfresh. intros z [_ Hz]%list_elem_of_filter. done. }
    cbn [obind]. unfold ret, set_instances, set_sessions. simpl.
    by rewrite insert_insert_eq.
  - intros s. unfold registry. simpl. rewrite lookup_insert_eq. simpl.
    rewrite !is_expired_eq. simpl.
    intros [[He Hs]%list_elem_of_filter|Hs%list_elem_of_singleton]%elem_of_app.
    + destruct (Hm s Hs) as (x & Hx & _).
      rewrite (lookup_app_l_Some _ _ _ _ Hx).
      rewrite is_expired_eq, Hx in He. done.
    + subst s. rewrite lookup_app_r by lia. rewrite Nat.sub_diag. done.
Qed.

(** C1, as the code has it. Starting from the empty registry, and at
    every point at which a task can observe it, every session that has
    a rule and is working, spare or suspended is a member of the
    registry of its rule, and the members of a registry are distinct
    sessions of its rule: each transition and each call of [get] keeps
    this. Membership does not end on entry to the expired state:
    [expire()] leaves the registry as it is. An expired member is
    removed by a later [get] on its rule that goes on to create a
    session: when no live member matches the event, [get] removes every
    expired member and registers the session it creates. *)
Theorem registry_membership :
  registry_inv (mkWorld [] ∅ ∅ [] [] : World) ∧
  (∀ w, registry_inv w →
        (∀ s ev, keeps_registry w (work s ev w)) ∧
        (∀ s, keeps_registry w (rest s w)) ∧
        (∀ s t, keeps_registry w (suspend s t w)) ∧
        (∀ s ev, keeps_registry w (wakeup s ev w)) ∧
        (∀ s, keeps_registry w (expire s w)) ∧
        (∀ ev rule_ wt cb kp, keeps_registry w (get ev rule_ wt cb kp w))) ∧
  (∀ w s x r l,
      sessions w !! s = Some x → _state x = WorkingSessionState →
      rule x = Some r → instances w !! r = Some l → s ∈ l →
      ∃ w', expire s w = Done tt w' ∧
            state_in w' s = Some ExpireSessionState ∧
            instances w' = instances w ∧ s ∈ registry w' r) ∧
  (∀ w r l ev (wt : bool) (cb : option nat) (kp : bool),
      registry_inv w → instances w !! r = Some l →
      (∀ s c, s ∈ l → c ≠ ExpireSessionState → matches c r ev w s = false) →
      ∃ w',
        get ev (Some r) wt cb kp w = Done (Some (length (sessions w))) w' ∧
        registry w' r =
          filter (λ s, is_expired w s = false) l ++ [length (sessions w)] ∧
        ∀ s, s ∈ registry w' r → is_expired w' s = false).
Proof.
  split; [|split; [|split]].
  - split.
    + intros s x r H. simpl in H. by rewrite lookup_nil in H.
    + intros r l H. simpl in H. by rewrite lookup_empty in H.
  - intros w Hi.
    assert (Hh : held None w w) by (split; [done|split; [apply settled_refl|done]]).
    assert (Hweak : ∀ A (o : Outcome A),
              runs_safely (λ w0 _ w, held None w0 w) w o → keeps_registry w o).
    { intros A o Ho. unfold keeps_registry.
      eapply runs_safely_mono; [exact Ho|]. by intros ? ? ? (? & ? & ?). }
    split; [|split; [|split; [|split; [|split]]]]; intros.
    + apply Hweak. by apply transitions_safe.
    + apply Hweak. by apply transitions_safe.
    + apply Hweak. by apply transitions_safe.
    + apply Hweak. by apply transitions_safe.
    + apply Hweak. by apply transitions_safe.
    + by apply get_safe.
  - intros w s x r l H Hst Hr Hl Hin. eexists. split; [by apply expire_working|].
    rewrite Hr. split; [|split; [done|]].
    + unfold state_in. by rewrite (lookup_moved _ s x).
    + unfold registry. simpl. by rewrite Hl.
  - intros w r l ev wt cb kp Hi Hl Hno.
    destruct (get_creates_and_cleans w r l ev wt cb kp Hi Hl Hno)
      as (w' & Hg & _ & Hins & Hex).
    exists w'. split; [done|]. split; [|done].
    unfold registry. rewrite Hins. by rewrite lookup_insert_eq.
Qed.

End WithEvents.

End SessionFacts.

(* ===================================================================== *)
(** ** The theorems at concrete worlds                                    *)
(* ===================================================================== *)

Module ScenarioFacts.
Import SessionBase Scenarios.

(** The concrete worlds are the ones the calls lead to. *)
Lemma w_working_reached :
  get same_user 7 (Some 0) true None false w_empty = Done (Some 0) w_working.
Proof. reflexivity. Qed.

Lemma w_expired_reached : expire 0 w_working = Done tt w_expired.
Proof. reflexivity. Qed.

Lemma w_oneshot_keep_reached :
  get same_user 7 None true None true w_empty = Done (Some 0) w_oneshot_keep.
Proof. reflexivity. Qed.

(** C1 as stated fails: [get] registers session 0 under rule 0, [expire()]
    puts it in the expired state, and it is still a member of the
    registry of rule 0; the next [get] on the rule is what removes it. *)
Lemma expired_session_still_registered :
  get same_user 7 (Some 0) true None false w_empty = Done (Some 0) w_working ∧
  expire 0 w_working = Done tt w_expired ∧
  state_in w_expired 0 = Some ExpireSessionState ∧
  registry w_expired 0 = [0] ∧
  (∃ w', get same_user 7 (Some 0) true None false w_expired = Done (Some 1) w' ∧
         registry w' 0 = [1]).
Proof.
  split; [reflexivity|]. split; [reflexivity|]. split; [reflexivity|].
  split; [reflexivity|]. eexists. split; reflexivity.
Qed.

Lemma registry_membership_witness :
  (∃ w', expire 0 w_working = Done tt w' ∧
         state_in w' 0 = Some ExpireSessionState ∧
         instances w' = instances w_working ∧ 0 ∈ registry w' 0) ∧
  keeps_registry w_empty (get same_user 7 (Some 0) true None false w_empty).
Proof.
  destruct (SessionFacts.registry_membership same_user) as (H0 & Hk & He & _).
  split.
  - apply (He w_working 0 (mkSession 7 (Some 0) false WorkingSessionState) 0 [0]);
      try reflexivity. apply list_elem_of_here.
  - apply (Hk w_empty H0).
Defined.

(** C2 as stated fails: [expire()] on an expired session raises
    [SessionStateError] (it is not a no-op), and so does [expire()] on a
    suspended session (it does not move it to the expired state). *)
Lemma expire_on_expired_raises :
  state_in w_expired 0 = Some ExpireSessionState ∧
  expire 0 w_expired =
    Raised (SessionStateError (Unsupported "expire")) w_expired ∧
  state_in w_suspended 0 = Some SuspendSessionState ∧
  expire 0 w_suspended =
    Raised (SessionStateError (Unsupported "expire")) w_suspended.
Proof. repeat split. Qed.

Lemma transition_table_witness :
  rest 0 w_working =
    Done tt (moved 0 (mkSession 7 (Some 0) false WorkingSessionState)
                   SpareSessionState (signalled (refresh_cond 0) w_working)) ∧
  expire 0 w_expired = refused "expire" w_expired.
Proof.
  split.
  - exact (proj1 (proj2 (SessionFacts.transition_table w_working 0 _ eq_refl))).
  - exact (proj2 (proj2 (proj2 (proj2
             (SessionFacts.transition_table w_expired 0 _ eq_refl))))).
Defined.

Lemma suspend_spec_witness :
  (∃ k, suspend 0 (Some 5%Q) w_working =
          Await (wakeup_cond 0) (Some 5%Q) w_suspended k ∧
        (∀ w1, k Notified w1 = Done true w1) ∧
        (∀ w1, k TimedOut w1 = Done false w1)) ∧
  (∃ msg, suspend 0 (Some 5%Q) w_expired = Raised (SessionStateError msg) w_expired).
Proof.
  pose proof (SessionFacts.suspend_spec w_working 0 _ (Some 5%Q) eq_refl) as [H _].
  pose proof (SessionFacts.suspend_spec w_expired 0 _ (Some 5%Q) eq_refl) as [_ H'].
  split.
  - destruct (H eq_refl ltac:(discriminate)) as (k & Hk & _ & _ & Hn & Ht & _).
    exists k. split; [exact Hk|]. split; [exact Hn|].
    intros w1. exact (Ht _ w1 eq_refl).
  - apply H'. left. discriminate.
Defined.


(** C5 as stated fails: a one-shot session got with [keep=True] leaves
    its region normally, and [rest()] raises [SessionStateError]; the
    session does not go to the spare state, it stays working. *)
Lemma kept_oneshot_not_spare :
  get same_user 7 None true None true w_empty = Done (Some 0) w_oneshot_keep ∧
  ctx 0 (ret tt) w_oneshot_keep =
    Raised (SessionStateError NoRuleForRest) w_oneshot_keep ∧
  state_in w_oneshot_keep 0 = Some WorkingSessionState.
Proof. repeat split. Qed.

Lemma ctx_exit_paths_witness :
  ctx_leave 0 (Raised CancelledError w_suspended) =
    (Done None
       (mkWorld [mkSession 7 (Some 0) false ExpireSessionState]
                {[0 := [0]]} {[0]} []
                [Notify (refresh_cond 0); Notify (wakeup_cond 0);
                 Notify (refresh_cond 0)]) : Outcome (option unit)) ∧
  ctx_leave 0 (Done tt w_working) = Done (Some tt) w_expired.
Proof.
  split.
  - exact (SessionFacts.ctx_exit_paths (A:=unit) w_suspended 0 _
             (inl CancelledError) eq_refl (or_intror (conj eq_refl eq_refl))).
  - exact (SessionFacts.ctx_exit_paths w_working 0 _ (inr tt) eq_refl
             (or_introl eq_refl)).
Defined.

(** A handler whose [suspend] has timed out leaves its region normally
    with the session still suspended: [expire()] raises. *)
Lemma ctx_exit_while_suspended :
  ctx_leave 0 (Done tt w_suspended) =
    Raised (SessionStateError (Unsupported "expire")) w_suspended.
Proof. reflexivity. Qed.

Import DI.

Lemma params_built :
  toy_init 0 "handler" "event" (HPlain 8) = inr notice_param ∧
  toy_init 1 "handler" "logger" (HPlain 1) = inr logger_param ∧
  toy_init 2 "handler" "logger"
    (HAnnotated 1 [CustomLogger (GetterReturns (PyObj 1 5))]) =
    inr custom_logger_param.
Proof. repeat split. Qed.

Lemma unmatched_dependency_raised_witness :
  toy_auto_fulfill notice_param st_message =
    (inl (DependNotMatched "handler" "event" 7 (HPlain 8)),
     set_scope 0 (PyObj 7 0) st_message) ∧
  ∀ injected,
    toy_wrapped injected [Auto notice_param] [] st_message =
      (inl (DependNotMatched "handler" "event" 7 (HPlain 8)),
       set_scope 0 (PyObj 7 0) st_message).
Proof.
  destruct (DIFacts.unmatched_dependency_raised toy_issubclass toy_is_type
              toy_is_subhint (HPlain 1) toy_factory notice_param st_message
              (PyObj 7 0) eq_refl (conj eq_refl eq_refl)) as (H1 & H2 & _).
  split; [exact H1|]. intros injected.
  exact (H2 st_message [] [] [] [] eq_refl injected).
Defined.

(** C8 as stated fails: the logger context holds an object that does not
    satisfy the hint of the parameter [logger], and [fulfill] returns it
    (the callable is entered with it); with a [CustomLogger] tag the
    mismatch gives what the getter returns. No [DependNotMatched] is
    raised in either case. *)
Lemma logger_mismatch_not_raised :
  toy_is_type (PyObj 9 0) (HPlain 1) = false ∧
  toy_auto_fulfill logger_param st_message =
    (inr (PyObj 9 0), set_scope 1 (PyObj 9 0) st_message) ∧
  (∀ injected,
      toy_wrapped injected [Auto logger_param] [] st_message =
        injected [PyObj 9 0] [] (set_scope 1 (PyObj 9 0) st_message)) ∧
  toy_is_type (PyObj 9 0) (ad_hint custom_logger_param) = false ∧
  toy_auto_fulfill custom_logger_param st_message =
    (inr (PyObj 1 5), set_scope 2 (PyObj 9 0) st_message).
Proof. repeat split. Qed.

Lemma logger_parameter_unchecked_witness :
  toy_auto_fulfill logger_param st_message =
    (inr (PyObj 9 0), set_scope 1 (PyObj 9 0) st_message).
Proof.
  destruct (DIFacts.logger_parameter_unchecked toy_issubclass toy_is_type
              toy_is_subhint (HPlain 1) (HPlain 2) (HPlain 3) (HPlain 4)
              (HPlain 5) (HPlain 6) 1 "handler" "logger" 1 eq_refl)
    as (a & Ha & _ & _ & Hf).
  injection Ha as <-. exact (proj1 (Hf st_message)).
Defined.



End ScenarioFacts.

(* ===================================================================== *)
(** ** Theorems: the calls of [Session.get]                               *)
(* ===================================================================== *)

Module SessionGetFacts.
Import SessionBase SessionProps.

Section WithEvents.

Context {EventT : Type}.
Variable compare : Rule → EventT → EventT → bool.

Abbreviation World := (@World EventT).
Abbreviation Session := (@Session EventT).
Abbreviation get := (get compare).
Abbreviation scan_suspends := (scan_suspends compare).
Abbreviation scan_spares := (scan_spares compare).
Abbreviation scan_workings := (scan_workings compare).
Abbreviation matches := (matches compare).
Abbreviation first_match := (first_match compare).

Implicit Types (w : World) (x : Session) (s : nat) (ev : EventT).

Lemma first_match_step c r ev w s l :
  first_match c r ev w (s :: l) =
    if matches c r ev w s then Some s else first_match c r ev w l.
Proof.
  unfold SessionBase.first_match.
  destruct (SessionBase.matches compare c r ev w s) eqn:E.
  - by rewrite filter_cons_True.
  - rewrite filter_cons_False; [done|]. by rewrite E.
Qed.

Lemma first_match_found c r ev w l s :
  first_match c r ev w l = Some s →
  s ∈ l ∧ ∃ x, sessions w !! s = Some x ∧ _state x = c ∧
               compare r (event x) ev = true.
Proof.
  unfold SessionBase.first_match. intros H.
  apply head_Some_elem_of in H. apply list_elem_of_filter in H as [Hm Hin].
  split; [done|]. unfold SessionBase.matches in Hm.
  destruct (sessions w !! s) as [x|]; [|done].
  apply andb_true_iff in Hm as [H1 H2]. exists x.
  by apply bool_decide_eq_true in H1.
Qed.

(** The three scans, by the first member that matches. *)
Lemma scan_suspends_first r ev l : ∀ w,
  scan_suspends r ev l w =
    match first_match SuspendSessionState r ev w l with
    | Some s => obind (wakeup s ev w) (λ _, ret (Some None))
    | None => Done None w
    end.
Proof.
  induction l as [|s l IH]; intros w; [done|].
  rewrite first_match_step. cbn [SessionBase.scan_suspends].
  unfold bind at 1. unfold on_state, SessionBase.matches. cbn [obind].
  destruct (sessions w !! s) as [x|] eqn:Hx; [|apply IH].
  destruct (bool_decide (_state x = SuspendSessionState)); [|apply IH].
  unfold bind at 1. unfold get_session. rewrite Hx. cbn [obind andb].
  destruct (compare r (event x) ev); [done|apply IH].
Qed.

Lemma scan_spares_first r ev kp l : ∀ w,
  scan_spares r ev kp l w =
    match first_match SpareSessionState r ev w l with
    | Some s =>
        obind (work s ev w) (λ _, bind (set_keep s kp) (λ _, ret (Some (Some s))))
    | None => Done None w
    end.
Proof.
  induction l as [|s l IH]; intros w; [done|].
  rewrite first_match_step. cbn [SessionBase.scan_spares].
  unfold bind at 1. unfold on_state, SessionBase.matches. cbn [obind].
  destruct (sessions w !! s) as [x|] eqn:Hx; [|apply IH].
  destruct (bool_decide (_state x = SpareSessionState)); [|apply IH].
  unfold bind at 1. unfold get_session. rewrite Hx. cbn [obind andb].
  destruct (compare r (event x) ev); [done|apply IH].
Qed.

Lemma expired_members l : ∀ w,
  collect_expires l w = Done (filter (λ s, is_expired w s = true) l) w.
Proof.
  induction l as [|s l IH]; intros w; [done|].
  cbn [collect_expires]. unfold bind at 1. unfold on_state. cbn [obind].
  unfold bind. rewrite IH. cbn [obind]. unfold ret.
  assert (E : is_expired w s =
              match sessions w !! s with
              | Some x => bool_decide (_state x = ExpireSessionState)
              | None => false
              end).
  { unfold is_expired, state_in. destruct (sessions w !! s) as [x|]; simpl; [|done].
    apply bool_decide_ext. split; [by intros [= ->]|by intros ->]. }
  rewrite <- E. destruct (is_expired w s) eqn:E'.
  - by rewrite filter_cons_True.
  - rewrite filter_cons_False; [done|]. by rewrite E'.
Qed.

Lemma scan_workings_nowait r ev cb kp l expires : ∀ w,
  scan_workings r ev false cb kp l expires w =
    match first_match WorkingSessionState r ev w l with
    | Some _ => Done (inl None) (after_nowait_cb cb w)
    | None => Done (inr expires) w
    end.
Proof.
  induction l as [|s l IH]; intros w; [done|].
  rewrite first_match_step. cbn [SessionBase.scan_workings].
  unfold bind at 1. unfold on_state, SessionBase.matches. cbn [obind].
  destruct (sessions w !! s) as [x|] eqn:Hx; [|apply IH].
  destruct (bool_decide (_state x = WorkingSessionState)); [|apply IH].
  unfold bind at 1. unfold get_session. rewrite Hx. cbn [obind andb negb].
  destruct (compare r (event x) ev); cbn [negb]; [|apply IH].
  by destruct cb.
Qed.

(** The start of [get] on a rule that has a registry. *)
Lemma get_on_registry r ev wt cb kp w l :
  instances w !! r = Some l →
  get ev (Some r) wt cb kp w =
    obind (scan_suspends r ev l (scanning r w)) (λ found,
      match found with
      | Some v => ret v
      | None =>
          bind (scan_spares r ev kp l) (λ found,
            match found with
            | Some v => ret v
            | None =>
                bind (collect_expires l) (λ expires,
                  bind (scan_workings r ev wt cb kp l expires) (λ found,
                    match found with
                    | inl v => ret v
                    | inr expires =>
                        bind (remove_expires expires) (λ _,
                          bind (new_session ev (Some r) kp) (λ s,
                            bind (instances_add r s) (λ _, ret (Some s))))
                    end))
            end)
      end).
Proof.
  intros Hl. unfold SessionBase.get. unfold bind at 1. unfold setdefault_lock.
  cbn [obind]. unfold bind at 1. unfold setdefault_instances.
  cbn [instances set_instance_locks]. rewrite Hl. reflexivity.
Qed.

(** X1. When no suspended member of the registry matches the event and
    [S] is the first spare member that does, [get] attaches to [S]: it
    binds the event to [S], puts it in the working state, gives it the
    [keep] of the call and returns it. No session is created, nothing is
    notified and the registry is as it was. *)
Theorem get_attaches_spare w r ev (wt : bool) (cb : option nat) (kp : bool) l S :
  instances w !! r = Some l →
  first_match SuspendSessionState r ev w l = None →
  first_match SpareSessionState r ev w l = Some S →
  ∃ x w',
    sessions w !! S = Some x ∧ _state x = SpareSessionState ∧
    get ev (Some r) wt cb kp w = Done (Some S) w' ∧
    sessions w' = <[S := mkSession ev (rule x) kp WorkingSessionState]> (sessions w) ∧
    instances w' = instances w ∧
    trace w' = trace w.
Proof.
  intros Hl Hsu Hsp.
  destruct (first_match_found _ _ _ _ _ _ Hsp) as (Hin & x & Hx & Hst & Hc).
  assert (Hlt : S < length (sessions w)) by (by eapply lookup_lt_Some).
  exists x. eexists. split; [done|]. split; [done|]. split.
  - rewrite (get_on_registry r ev wt cb kp w l Hl). rewrite scan_suspends_first.
    change (first_match SuspendSessionState r ev (scanning r w) l)
      with (first_match SuspendSessionState r ev w l).
    rewrite Hsu. cbn [obind]. unfold bind at 1. rewrite scan_spares_first.
    change (first_match SpareSessionState r ev (scanning r w) l)
      with (first_match SpareSessionState r ev w l).
    rewrite Hsp.
    unfold work, bind, get_session. cbn [sessions scanning set_instance_locks].
    rewrite Hx. cbn [obind]. rewrite Hst. cbn [work_of].
    unfold SpareSessionState_work, bind, set_event.
    cbn [sessions scanning set_instance_locks]. rewrite Hx. cbn [obind].
    unfold to_state. cbn [sessions set_sessions].
    rewrite list_lookup_insert_eq by done. cbn [obind].
    unfold set_keep. cbn [sessions set_sessions].
    rewrite list_lookup_insert_eq by (by rewrite length_insert). cbn [obind].
    reflexivity.
  - simpl. rewrite !list_insert_insert_eq. done.
Qed.

(** X2. With [wait=False], when no suspended and no spare member of the
    registry matches the event but a working one does, [get] returns
    [None] after calling [nowait_cb] once (if one is given); no session
    changes, none is created and the registry is as it was. *)
Theorem get_nowait_busy w r ev (cb : option nat) (kp : bool) l S :
  instances w !! r = Some l →
  first_match SuspendSessionState r ev w l = None →
  first_match SpareSessionState r ev w l = None →
  first_match WorkingSessionState r ev w l = Some S →
  ∃ w',
    get ev (Some r) false cb kp w = Done None w' ∧
    sessions w' = sessions w ∧ instances w' = instances w ∧
    trace w' = trace w ++ match cb with Some c => [CallNowaitCb c] | None => [] end.
Proof.
  intros Hl Hsu Hsp Hwk. eexists. split.
  - rewrite (get_on_registry r ev false cb kp w l Hl). rewrite scan_suspends_first.
    change (first_match SuspendSessionState r ev (scanning r w) l)
      with (first_match SuspendSessionState r ev w l).
    rewrite Hsu. cbn [obind]. unfold bind at 1. rewrite scan_spares_first.
    change (first_match SpareSessionState r ev (scanning r w) l)
      with (first_match SpareSessionState r ev w l).
    rewrite Hsp. cbn [obind]. unfold bind at 1. rewrite expired_members.
    cbn [obind]. unfold bind at 1. rewrite scan_workings_nowait.
    change (first_match WorkingSessionState r ev (scanning r w) l)
      with (first_match WorkingSessionState r ev w l).
    rewrite Hwk. cbn [obind]. reflexivity.
  - destruct cb; simpl; [done|]. by rewrite app_nil_r.
Qed.

(** *** Calls that do not block *)

Lemma immediate_bind {A B} (o : Outcome A) (f : A → M B) :
  immediate o → (∀ a w, immediate (f a w)) → immediate (obind o f).
Proof. destruct o; simpl; [by auto|done|done]. Qed.

Lemma to_state_immediate s c w : immediate (to_state s c w).
Proof. unfold to_state. by destruct (sessions w !! s). Qed.

Lemma work_immediate s ev w : immediate (work s ev w).
Proof.
  unfold work, bind, get_session.
  destruct (sessions w !! s) as [x|] eqn:H; [|done]. cbn [obind].
  destruct (_state x); try done. cbn [work_of].
  unfold SpareSessionState_work, bind, set_event. rewrite H. cbn [obind].
  apply to_state_immediate.
Qed.

Lemma wakeup_immediate s ev w : immediate (wakeup s ev w).
Proof.
  unfold wakeup, bind, get_session.
  destruct (sessions w !! s) as [x|] eqn:H; [|done]. cbn [obind].
  destruct (_state x); try done. cbn [wakeup_of].
  unfold SuspendSessionState_wakeup, bind, set_event. rewrite H. cbn [obind].
  apply to_state_immediate.
Qed.

Lemma set_keep_immediate s kp w : immediate (set_keep s kp w).
Proof. unfold set_keep. by destruct (sessions w !! s). Qed.

Lemma remove_expires_immediate expires : ∀ w, immediate (remove_expires expires w).
Proof.
  induction expires as [|s l IH]; intros w; [done|].
  cbn [remove_expires]. unfold bind at 1. apply immediate_bind.
  - unfold get_session. by destruct (sessions w !! s).
  - intros x w1. unfold bind. apply immediate_bind; [|by intros].
    unfold instances_remove. destruct (rule x) as [r|]; [|done].
    destruct (instances w1 !! r) as [l'|]; [|done]. by destruct (bool_decide _).
Qed.

Lemma create_immediate r ev kp w :
  immediate (bind (new_session ev (Some r) kp) (λ s,
               bind (instances_add r s) (λ _, ret (Some s))) w).
Proof.
  unfold bind at 1. unfold new_session. cbn [obind]. unfold bind.
  apply immediate_bind; [|by intros]. unfold instances_add.
  destruct (instances _ !! r) as [l|]; [|done]. by destruct (bool_decide _).
Qed.

(** X3. A call of [get] with [wait=False] never waits on a condition
    variable: once it has the locks, whatever the registry holds, it runs
    to its return or its raise without reaching [cond.wait()] (what
    awaiting [nowait_cb] does is the callback's own affair). *)
Theorem get_nowait_immediate w ev (rule_ : option Rule) (cb : option nat) (kp : bool) :
  immediate (get ev rule_ false cb kp w).
Proof.
  destruct rule_ as [r|]; [|done].
  unfold SessionBase.get. unfold bind at 1. unfold setdefault_lock. cbn [obind].
  unfold bind at 1. unfold setdefault_instances.
  destruct (instances _ !! r) as [l|]; cbn [obind].
  - unfold bind at 1. apply immediate_bind.
    { rewrite scan_suspends_first. destruct (SessionBase.first_match _ _ _ _ _ _); [|done].
      apply immediate_bind; [apply wakeup_immediate|done]. }
    intros [v|] w1; [done|]. unfold bind at 1. apply immediate_bind.
    { rewrite scan_spares_first. destruct (SessionBase.first_match _ _ _ _ _ _); [|done].
      apply immediate_bind; [apply work_immediate|]. intros _ w2. unfold bind.
      apply immediate_bind; [apply set_keep_immediate|done]. }
    intros [v|] w2; [done|]. unfold bind at 1. rewrite expired_members. cbn [obind].
    unfold bind at 1. apply immediate_bind.
    { rewrite scan_workings_nowait. by destruct (SessionBase.first_match _ _ _ _ _ _). }
    intros [v|ex] w3; [done|]. unfold bind at 1. apply immediate_bind.
    { apply remove_expires_immediate. }
    intros _ w4. apply create_immediate.
  - unfold bind at 1. cbn [scan_suspends SessionBase.scan_suspends obind ret].
    unfold bind at 1. cbn [SessionBase.scan_spares obind ret].
    unfold bind at 1. cbn [collect_expires obind ret].
    unfold bind at 1. cbn [SessionBase.scan_workings obind ret].
    unfold bind at 1. cbn [remove_expires obind ret].
    apply create_immediate.
Qed.

(** *** What [get] hands out *)

Lemma returns_bind {A B} (P : A → World → Prop) (P' : B → World → Prop)
    (f : A → M B) (o : Outcome A) :
  returns P o → (∀ a w, P a w → returns P' (f a w)) → returns P' (obind o f).
Proof.
  induction o as [a w|e w|c t w k IH]; intros Ho Hf; simpl in *; [by auto|done|].
  intros wk w1. by apply IH.
Qed.

Lemma returns_any {A} (o : Outcome A) :
  immediate o → returns (λ (_ : A) (_ : World), True) o.
Proof. by destruct o. Qed.

(** [work] and then [session.keep = keep]. *)
Lemma work_then_keep s ev kp w :
  returns (λ (_ : unit) w', ∃ x, sessions w' !! s = Some x ∧
                                 _state x = WorkingSessionState ∧
                                 event x = ev ∧ keep x = kp)
          (obind (work s ev w) (λ _, set_keep s kp)).
Proof.
  unfold work, bind, get_session.
  destruct (sessions w !! s) as [x|] eqn:H; [|done]. cbn [obind].
  assert (Hlt : s < length (sessions w)) by (by eapply lookup_lt_Some).
  destruct (_state x); try done. cbn [work_of].
  unfold SpareSessionState_work, bind, set_event. rewrite H. cbn [obind].
  unfold to_state. cbn [sessions set_sessions].
  rewrite list_lookup_insert_eq by done. cbn [obind]. unfold set_keep.
  cbn [sessions set_sessions].
  rewrite list_lookup_insert_eq by (by rewrite length_insert). cbn [returns].
  eexists. split.
  - simpl. apply list_lookup_insert_eq. by rewrite !length_insert.
  - done.
Qed.

Lemma attach_handed_out {R} (wrap : option nat → R) s ev kp w (P : R → World → Prop) :
  (∀ w', handed_out ev kp (Some s) w' → P (wrap (Some s)) w') →
  returns P (obind (work s ev w) (λ _,
               bind (set_keep s kp) (λ _, ret (wrap (Some s))))).
Proof.
  intros HP.
  pose proof (work_then_keep s ev kp w) as H.
  destruct (work s ev w) as [[] w1|e w1|c t w1 k] eqn:E.
  - cbn [obind] in *. unfold bind.
    destruct (set_keep s kp w1) as [[] w2|e w2|c t w2 k] eqn:E2; simpl in *.
    + apply HP. intros s' [= <-]. exact H.
    + done.
    + pose proof (set_keep_immediate s kp w1) as Hi. by rewrite E2 in Hi.
  - done.
  - pose proof (work_immediate s ev w) as Hi. by rewrite E in Hi.
Qed.

Lemma scan_workings_handed_out r ev wt cb kp l : ∀ expires w,
  returns (λ found w', ∀ v, found = inl v → handed_out ev kp v w')
          (scan_workings r ev wt cb kp l expires w).
Proof.
  induction l as [|s l IH]; intros expires w; [by intros v [=]|].
  cbn [SessionBase.scan_workings]. unfold bind at 1. unfold on_state. cbn [obind].
  destruct (match sessions w !! s with
            | Some x => bool_decide (_state x = WorkingSessionState)
            | None => false
            end); [|apply IH].
  unfold bind at 1. unfold get_session.
  destruct (sessions w !! s) as [x|]; [|done]. cbn [obind].
  destruct (compare r (event x) ev); cbn [negb]; [|apply IH].
  destruct wt; cbn [negb].
  - unfold bind at 1. unfold wait. cbn [obind returns].
    intros wk w1. destruct wk.
    1,2: unfold bind at 1; cbn beta; cbn [obind];
         (destruct (match sessions w1 !! s with
                    | Some x0 => bool_decide (_state x0 = ExpireSessionState)
                    | None => false
                    end); [apply IH|]);
         unfold bind at 1; cbn beta; cbn [obind];
         (destruct (match sessions w1 !! s with
                    | Some x0 => bool_decide (_state x0 = SuspendSessionState)
                    | None => false
                    end));
         [ unfold bind;
           eapply returns_bind; [apply returns_any, wakeup_immediate|];
           intros _ w2 _ v [= <-]; by intros s' [=]
         | apply (attach_handed_out inl); by intros w' Hh v [= <-] ].
    done.
  - unfold bind. destruct cb; simpl; intros v [= <-]; by intros s' [=].
Qed.

(** X4. Whenever a call of [get] returns a session, however long it has
    waited and whatever the other tasks have done meanwhile, that session
    is in the working state, bound to the event of the call, and has the
    [keep] of the call. *)
Theorem get_hands_out_working w ev (rule_ : option Rule) (wt : bool)
    (cb : option nat) (kp : bool) :
  returns (handed_out ev kp) (get ev rule_ wt cb kp w).
Proof.
  assert (Hnew : ∀ ro w0 (P : World → Prop),
            returns (handed_out ev kp)
              (obind (new_session ev ro kp w0) (λ s,
                 match ro with
                 | Some r => bind (instances_add r s) (λ _, ret (Some s))
                 | None => ret (Some s)
                 end))).
  { intros ro w0 _. unfold new_session. cbn [obind].
    assert (Hx : ∀ w', sessions w' =
                         sessions w0 ++ [mkSession ev ro kp WorkingSessionState] →
                       handed_out ev kp (Some (length (sessions w0))) w').
    { intros w' E s [= <-].
      exists (mkSession ev ro kp WorkingSessionState). split; [|done]. rewrite E.
      rewrite lookup_app_r by lia. by rewrite Nat.sub_diag. }
    destruct ro as [r|]; [|by apply Hx].
    unfold bind, instances_add. cbn [instances set_sessions].
    destruct (instances w0 !! r) as [l|]; [|done].
    destruct (bool_decide _); simpl; by apply Hx. }
  destruct rule_ as [r|]; [|apply (Hnew None w (λ _, True))].
  unfold SessionBase.get. unfold bind at 1. unfold setdefault_lock. cbn [obind].
  unfold bind at 1. unfold setdefault_instances.
  assert (Hgo : ∀ l w0,
    returns (handed_out ev kp)
      (obind (scan_suspends r ev l w0) (λ found,
         match found with
         | Some v => ret v
         | None =>
             bind (scan_spares r ev kp l) (λ found,
               match found with
               | Some v => ret v
               | None =>
                   bind (collect_expires l) (λ expires,
                     bind (scan_workings r ev wt cb kp l expires) (λ found,
                       match found with
                       | inl v => ret v
                       | inr expires =>
                           bind (remove_expires expires) (λ _,
                             bind (new_session ev (Some r) kp) (λ s,
                               bind (instances_add r s) (λ _, ret (Some s))))
                       end))
               end)
         end))).
  { intros l w0.
    eapply (returns_bind (λ found w', ∀ v, found = Some v → handed_out ev kp v w')).
    { rewrite scan_suspends_first.
      destruct (SessionBase.first_match _ _ _ _ _ _); [|by intros v [=]].
      eapply returns_bind; [apply returns_any, wakeup_immediate|].
      intros _ w1 _ v [= <-]. by intros s' [=]. }
    intros [v|] w1 H1; [by apply H1|]. unfold bind at 1.
    eapply (returns_bind (λ found w', ∀ v, found = Some v → handed_out ev kp v w')).
    { rewrite scan_spares_first.
      destruct (SessionBase.first_match _ _ _ _ _ _) as [s|]; [|by intros v [=]].
      apply (attach_handed_out Some). by intros w' Hh v [= <-]. }
    intros [v|] w2 H2; [by apply H2|]. unfold bind at 1.
    rewrite expired_members. cbn [obind]. unfold bind at 1.
    eapply returns_bind; [apply scan_workings_handed_out|].
    intros [v|ex] w3 H3; [by apply H3|]. unfold bind at 1.
    eapply returns_bind; [apply returns_any, remove_expires_immediate|].
    intros _ w4 _. apply (Hnew (Some r) w4 (λ _, True)). }
  destruct (instances _ !! r) as [l|]; cbn [obind]; apply Hgo.
Qed.

Lemma filter_agree (P Q : nat → Prop) `{∀ y, Decision (P y)} `{∀ y, Decision (Q y)}
    (l : list nat) :
  (∀ y, y ∈ l → P y ↔ Q y) → filter P l = filter Q l.
Proof.
  induction l as [|y l IH]; intros Hpq; [done|].
  assert (IH' : filter P l = filter Q l).
  { apply IH. intros z Hz. apply Hpq. by right. }
  destruct (decide (P y)) as [Hp|Hp].
  - rewrite !filter_cons_True; [by f_equal| |done].
    by apply (Hpq y (list_elem_of_here _ _)).
  - rewrite !filter_cons_False; [done| |done].
    intros Hq. apply Hp. by apply (Hpq y (list_elem_of_here _ _)).
Qed.

(** *** Waiting behind a working session *)

Lemma scan_workings_waits r ev cb kp l S : ∀ expires w,
  first_match WorkingSessionState r ev w l = Some S →
  ∃ k rest_set,
    rest_set ⊆ l ∧
    scan_workings r ev true cb kp l expires w = Await (refresh_cond S) None w k ∧
    ∀ wk w1, k wk w1 = resumed_behind compare r ev cb kp S rest_set expires wk w1.
Proof.
  induction l as [|s l IH]; intros expires w Hf; [done|].
  rewrite first_match_step in Hf. unfold SessionBase.matches in Hf.
  cbn [SessionBase.scan_workings]. unfold bind at 1. unfold on_state at 1. cbn [obind].
  assert (Hrec : first_match WorkingSessionState r ev w l = Some S →
            ∃ k rest_set, rest_set ⊆ s :: l ∧
              scan_workings r ev true cb kp l expires w =
                Await (refresh_cond S) None w k ∧
              ∀ wk w1, k wk w1 =
                resumed_behind compare r ev cb kp S rest_set expires wk w1).
  { intros H. destruct (IH expires w H) as (k & rs & Hsub & E & Hk).
    exists k, rs. split; [|done]. intros y Hy. right. by apply Hsub. }
  destruct (sessions w !! s) as [x|] eqn:Hx; [|by apply Hrec].
  destruct (bool_decide (_state x = WorkingSessionState)); [|by apply Hrec].
  unfold bind at 1. unfold get_session. rewrite Hx. cbn [obind andb] in *.
  destruct (compare r (event x) ev); cbn [negb]; [|by apply Hrec].
  injection Hf as ->.
  unfold bind at 1. unfold wait. cbn [obind].
  eexists. exists l. split; [by intros y Hy; right|]. split; [reflexivity|].
  intros wk w1. by destruct wk.
Qed.

(** [get] up to its wait. *)
Lemma get_reaches_wait w r ev cb kp l S :
  instances w !! r = Some l →
  first_match SuspendSessionState r ev w l = None →
  first_match SpareSessionState r ev w l = None →
  first_match WorkingSessionState r ev w l = Some S →
  ∃ k rest_set,
    rest_set ⊆ l ∧
    get ev (Some r) true cb kp w = Await (refresh_cond S) None (scanning r w) k ∧
    ∀ wk w1,
      k wk w1 =
        obind (resumed_behind compare r ev cb kp S rest_set
                 (filter (λ s, is_expired w s = true) l) wk w1)
          (λ found,
             match found with
             | inl v => ret v
             | inr expires =>
                 bind (remove_expires expires) (λ _,
                   bind (new_session ev (Some r) kp) (λ s,
                     bind (instances_add r s) (λ _, ret (Some s))))
             end).
Proof.
  intros Hl Hsu Hsp Hwk.
  destruct (scan_workings_waits r ev cb kp l S
              (filter (λ s, is_expired w s = true) l) (scanning r w))
    as (k & rs & Hsub & E & Hk); [done|].
  eexists. exists rs. split; [done|]. split.
  - rewrite (get_on_registry r ev true cb kp w l Hl). rewrite scan_suspends_first.
    change (first_match SuspendSessionState r ev (scanning r w) l)
      with (first_match SuspendSessionState r ev w l).
    rewrite Hsu. cbn [obind]. unfold bind at 1. rewrite scan_spares_first.
    change (first_match SpareSessionState r ev (scanning r w) l)
      with (first_match SpareSessionState r ev w l).
    rewrite Hsp. cbn [obind]. unfold bind at 1. rewrite expired_members.
    cbn [obind]. unfold bind at 1.
    change (is_expired (scanning r w)) with (is_expired w).
    rewrite E. cbn [obind]. reflexivity.
  - intros wk w1. cbn beta. by rewrite Hk.
Qed.

(** X5. With [wait=True], when no suspended and no spare member of the
    registry matches the event and [S] is the first working member that
    does, [get] blocks on the [refresh_cond] of [S], having changed
    nothing but the lock table. When the wait ends by a cancellation,
    [get] raises it. Otherwise it looks at [S] again: a suspended [S] is
    woken with the event and [get] returns [None]; a spare [S] is bound to
    the event, put to work, given the [keep] of the call and returned; an
    [S] that is still working makes [get] raise [SessionStateError]. *)
Theorem get_waits_behind_working w r ev (cb : option nat) (kp : bool) l S :
  instances w !! r = Some l →
  first_match SuspendSessionState r ev w l = None →
  first_match SpareSessionState r ev w l = None →
  first_match WorkingSessionState r ev w l = Some S →
  ∃ k,
    get ev (Some r) true cb kp w = Await (refresh_cond S) None (scanning r w) k ∧
    (∀ w1, k Cancelled w1 = Raised CancelledError w1) ∧
    (∀ wk w1 x1,
        wk ≠ Cancelled → sessions w1 !! S = Some x1 →
        match _state x1 with
        | SuspendSessionState =>
            k wk w1 =
              Done None
                (mkWorld
                   (<[S := mkSession ev (rule x1) (keep x1) WorkingSessionState]>
                      (sessions w1))
                   (instances w1) (instance_locks w1) (session_ctx w1)
                   (trace w1 ++ [Notify (wakeup_cond S)]))
        | SpareSessionState =>
            k wk w1 =
              Done (Some S)
                (set_sessions
                   <[S := mkSession ev (rule x1) kp WorkingSessionState]> w1)
        | WorkingSessionState =>
            k wk w1 = Raised (SessionStateError (Unsupported "work")) w1
        | ExpireSessionState => True
        end).
Proof.
  intros Hl Hsu Hsp Hwk.
  destruct (get_reaches_wait w r ev cb kp l S Hl Hsu Hsp Hwk)
    as (k & rs & _ & E & Hk).
  exists k. split; [done|]. split.
  - intros w1. by rewrite Hk.
  - intros wk w1 x1 Hwk1 Hx1. rewrite Hk.
    assert (Hlt : S < length (sessions w1)) by (by eapply lookup_lt_Some).
    assert (Hres : resumed_behind compare r ev cb kp S rs
                     (filter (λ s, is_expired w s = true) l) wk w1 =
                   resumed_behind compare r ev cb kp S rs
                     (filter (λ s, is_expired w s = true) l) Notified w1)
      by (by destruct wk).
    rewrite Hres. clear Hres. unfold resumed_behind.
    destruct (_state x1) eqn:Hst; [| | |done];
      (unfold bind at 1; unfold on_state at 1; rewrite Hx1; cbn [obind];
       rewrite Hst).
    + (* spare *)
      rewrite bool_decide_eq_false_2 by done.
      unfold bind at 1. unfold on_state at 1. rewrite Hx1. cbn [obind].
      rewrite Hst. rewrite bool_decide_eq_false_2 by done.
      unfold bind at 1. rewrite (SessionFacts.work_spare w1 S x1 ev Hx1 Hst).
      cbn [obind]. unfold bind at 1. unfold set_keep, moved.
      cbn [sessions set_sessions]. rewrite list_lookup_insert_eq by done.
      cbn [obind ret]. f_equal. unfold set_sessions. simpl.
      by rewrite list_insert_insert_eq.
    + (* working *)
      rewrite bool_decide_eq_false_2 by done.
      unfold bind at 1. unfold on_state at 1. rewrite Hx1. cbn [obind].
      rewrite Hst. rewrite bool_decide_eq_false_2 by done.
      unfold bind at 1. unfold work, bind, get_session. rewrite Hx1. cbn [obind].
      by rewrite Hst.
    + (* suspended *)
      rewrite bool_decide_eq_false_2 by done.
      unfold bind at 1. unfold on_state at 1. rewrite Hx1. cbn [obind].
      rewrite Hst. rewrite bool_decide_eq_true_2 by done.
      unfold bind at 1. rewrite (SessionFacts.wakeup_suspended w1 S x1 ev Hx1 Hst).
      cbn [obind ret]. reflexivity.
Qed.

(** X6. If [S] has expired when the wait of [get] behind it ends (its
    handler returned without [keep]), no member of the registry is a
    working match any more, and the registry of the rule is as the scan
    found it, with distinct members that are sessions of the rule, then
    [get] removes from the registry the members that were expired when the
    scan began and [S], creates a session bound to the event, registers
    it and returns it. *)
Theorem get_after_handler_expired w r ev (cb : option nat) (kp : bool) l S :
  instances w !! r = Some l →
  first_match SuspendSessionState r ev w l = None →
  first_match SpareSessionState r ev w l = None →
  first_match WorkingSessionState r ev w l = Some S →
  ∃ k,
    get ev (Some r) true cb kp w = Await (refresh_cond S) None (scanning r w) k ∧
    ∀ wk w1,
      wk ≠ Cancelled →
      state_in w1 S = Some ExpireSessionState →
      instances w1 !! r = Some l →
      NoDup l →
      (∀ s, s ∈ l → ∃ x, sessions w1 !! s = Some x ∧ rule x = Some r) →
      (∀ s, s ∈ l → matches WorkingSessionState r ev w1 s = false) →
      ∃ w',
        k wk w1 = Done (Some (length (sessions w1))) w' ∧
        sessions w' = sessions w1 ++ [mkSession ev (Some r) kp WorkingSessionState] ∧
        registry w' r =
          filter (λ s, is_expired w s = false ∧ s ≠ S) l ++ [length (sessions w1)].
Proof.
  intros Hl Hsu Hsp Hwk.
  destruct (get_reaches_wait w r ev cb kp l S Hl Hsu Hsp Hwk)
    as (k & rs & Hsub & E & Hk).
  destruct (first_match_found _ _ _ _ _ _ Hwk) as (HSl & x & Hx & Hst & _).
  exists k. split; [done|].
  intros wk w1 Hwk1 Hex1 Hl1 Hnd Hm Hno. rewrite Hk.
  set (old := filter (λ s, is_expired w s = true) l).
  assert (Hres : resumed_behind compare r ev cb kp S rs old wk w1 =
                 resumed_behind compare r ev cb kp S rs old Notified w1)
    by (by destruct wk).
  rewrite Hres. clear Hres. unfold resumed_behind.
  unfold bind at 1. unfold on_state at 1. cbn [obind].
  unfold state_in in Hex1. destruct (sessions w1 !! S) as [x1|] eqn:Hx1; [|done].
  injection Hex1 as Hst1. rewrite Hst1. rewrite bool_decide_eq_true_2 by done.
  rewrite (SessionFacts.scan_workings_none compare r ev true cb kp rs (old ++ [S]) w1)
    by (intros s Hs; apply Hno; by apply Hsub).
  cbn [obind]. unfold bind at 1.
  assert (HSold : S ∉ old).
  { intros [He _]%list_elem_of_filter. unfold is_expired, state_in in He.
    rewrite Hx in He. simpl in He. apply bool_decide_eq_true in He.
    injection He as He. by rewrite Hst in He. }
  rewrite (SessionFacts.remove_expires_eq compare r (old ++ [S]) w1 l Hl1).
  2:{ apply NoDup_app. split; [by apply NoDup_filter|].
      split; [|apply NoDup_singleton].
      intros y Hy Hy'. apply list_elem_of_singleton in Hy'. by subst. }
  2:{ intros s [[_ Hs]%list_elem_of_filter|Hs%list_elem_of_singleton]%elem_of_app.
      - split; [done|]. by apply Hm.
      - subst. split; [done|]. by apply Hm. }
  cbn [obind]. unfold bind at 1. unfold new_session. cbn [obind].
  unfold bind at 1. unfold instances_add. cbn [instances set_sessions set_instances].
  rewrite lookup_insert_eq.
  assert (Hfresh : length (sessions w1) ∉ filter (λ y, y ∉ old ++ [S]) l).
  { intros [_ Hin]%list_elem_of_filter. destruct (Hm _ Hin) as (x' & Hx' & _).
    apply lookup_lt_Some in Hx'. lia. }
  rewrite bool_decide_eq_false_2 by done. cbn [obind ret].
  eexists. split; [reflexivity|]. split; [done|].
  unfold registry. simpl. rewrite lookup_insert_eq. simpl. f_equal.
  apply filter_agree. intros y Hy. rewrite not_elem_of_app.
  unfold old. rewrite list_elem_of_filter, list_elem_of_singleton.
  split.
  - intros [H1 H2]. split; [|done].
    destruct (is_expired w y) eqn:Ey; [|done]. by destruct H1.
  - intros [H1 H2]. split; [|done]. intros [H3 _]. by rewrite H1 in H3.
Qed.

(** *** A session that steps aside and the next event of its rule *)

Lemma first_match_only c r ev w l s :
  s ∈ l → matches c r ev w s = true →
  (∀ s', s' ∈ l → s' ≠ s → matches c r ev w s' = false) →
  first_match c r ev w l = Some s.
Proof.
  induction l as [|y l IH]; intros Hin Hm Hno; [by apply elem_of_nil in Hin|].
  rewrite first_match_step. destruct (decide (y = s)) as [->|Hne].
  - by rewrite Hm.
  - rewrite (Hno y (list_elem_of_here _ _) Hne). apply IH; [|done|].
    + apply elem_of_cons in Hin as [->|Hin]; done.
    + intros s' Hs'. apply Hno. by right.
Qed.

Lemma first_match_absent c r ev w l :
  (∀ s, s ∈ l → matches c r ev w s = false) → first_match c r ev w l = None.
Proof.
  induction l as [|y l IH]; intros Hno; [done|].
  rewrite first_match_step, (Hno y (list_elem_of_here _ _)).
  apply IH. intros s Hs. apply Hno. by right.
Qed.

Lemma matches_moved_ne c r ev w s s' x c' cd :
  s' ≠ s →
  matches c r ev (moved s x c' (signalled cd w)) s' = matches c r ev w s'.
Proof.
  intros Hne. unfold SessionBase.matches, moved. cbn [sessions set_sessions signalled set_trace].
  by rewrite list_lookup_insert_ne.
Qed.

Lemma matches_moved_eq c r ev w s x c' cd :
  sessions w !! s = Some x →
  matches c r ev (moved s x c' (signalled cd w)) s =
    bool_decide (c' = c) && compare r (event x) ev.
Proof.
  intros Hx. unfold SessionBase.matches, moved.
  cbn [sessions set_sessions signalled set_trace].
  rewrite list_lookup_insert_eq by (by eapply lookup_lt_Some). done.
Qed.

(** X7. A working session of rule [r] suspends, and an event that its rule
    matches with its own arrives while no other member of the registry is
    a suspended match: [suspend] has reached its wait on [wakeup_cond],
    [get] on the event returns [None] without creating a session or
    touching the registry, the session is working again and bound to the
    new event, its [wakeup_cond] has been notified, and the [suspend]
    resumed by that notification returns [True]. *)
Theorem suspend_then_get_resumes w s x r l ev2 (t : option Q)
    (wt : bool) (cb : option nat) (kp : bool) :
  sessions w !! s = Some x → _state x = WorkingSessionState →
  rule x = Some r →
  instances w !! r = Some l → s ∈ l →
  compare r (event x) ev2 = true →
  (∀ s', s' ∈ l → s' ≠ s → matches SuspendSessionState r ev2 w s' = false) →
  ∃ k wS w2,
    suspend s t w = Await (wakeup_cond s) t wS k ∧
    get ev2 (Some r) wt cb kp wS = Done None w2 ∧
    sessions w2 =
      <[s := mkSession ev2 (Some r) (keep x) WorkingSessionState]> (sessions w) ∧
    instances w2 = instances w ∧
    trace w2 = trace w ++ [Notify (refresh_cond s); Notify (wakeup_cond s)] ∧
    k Notified w2 = Done true w2.
Proof.
  intros Hx Hst Hr Hl Hin Hc Hno.
  destruct (SessionFacts.suspend_working w s x r t Hx Hst Hr) as (k & Es & Hk).
  set (wS := moved s x SuspendSessionState (signalled (refresh_cond s) w)) in *.
  assert (Hlt : s < length (sessions w)) by (by eapply lookup_lt_Some).
  assert (HxS : sessions (scanning r wS) !! s =
                  Some (mkSession (event x) (rule x) (keep x) SuspendSessionState)).
  { unfold wS, moved. simpl. by apply list_lookup_insert_eq. }
  assert (Hf : first_match SuspendSessionState r ev2 wS l = Some s).
  { apply first_match_only; [done| |].
    - unfold wS. rewrite matches_moved_eq by done. rewrite Hc.
      by rewrite bool_decide_eq_true_2.
    - intros s' Hs' Hne. unfold wS. rewrite matches_moved_ne by done.
      by apply Hno. }
  exists k, wS. eexists. split; [done|]. split.
  - rewrite (get_on_registry r ev2 wt cb kp wS l) by done.
    rewrite scan_suspends_first.
    change (first_match SuspendSessionState r ev2 (scanning r wS) l)
      with (first_match SuspendSessionState r ev2 wS l).
    rewrite Hf.
    rewrite (SessionFacts.wakeup_suspended (scanning r wS) s _ ev2 HxS eq_refl).
    cbn [obind ret]. reflexivity.
  - split.
    { unfold wS, moved. simpl. rewrite list_insert_insert_eq. by rewrite Hr. }
    split; [done|]. split.
    { unfold wS. simpl. by rewrite <- app_assoc. }
    rewrite Hk. by destruct t.
Qed.

(** X8. A working session of rule [r] is put to rest, and an event that
    its rule matches with its own arrives while no other member of the
    registry is a suspended or a spare match: [get] hands out that very
    session, working again, bound to the new event and with the [keep] of
    the call; it creates no session and leaves the registry as it is. *)
Theorem rest_then_get_reuses w s x r l ev2 (wt : bool) (cb : option nat) (kp : bool) :
  sessions w !! s = Some x → _state x = WorkingSessionState →
  rule x = Some r →
  instances w !! r = Some l → s ∈ l →
  compare r (event x) ev2 = true →
  (∀ s', s' ∈ l → s' ≠ s →
         matches SuspendSessionState r ev2 w s' = false ∧
         matches SpareSessionState r ev2 w s' = false) →
  ∃ w1 w2,
    rest s w = Done tt w1 ∧
    get ev2 (Some r) wt cb kp w1 = Done (Some s) w2 ∧
    sessions w2 = <[s := mkSession ev2 (Some r) kp WorkingSessionState]> (sessions w) ∧
    instances w2 = instances w ∧
    trace w2 = trace w ++ [Notify (refresh_cond s)].
Proof.
  intros Hx Hst Hr Hl Hin Hc Hno.
  set (w1 := moved s x SpareSessionState (signalled (refresh_cond s) w)).
  assert (Hlt : s < length (sessions w)) by (by eapply lookup_lt_Some).
  assert (Hx1 : sessions (scanning r w1) !! s =
                  Some (mkSession (event x) (rule x) (keep x) SpareSessionState)).
  { unfold w1, moved. simpl. by apply list_lookup_insert_eq. }
  assert (Hsu : first_match SuspendSessionState r ev2 w1 l = None).
  { apply first_match_absent. intros s' Hs'. unfold w1.
    destruct (decide (s' = s)) as [->|Hne].
    - rewrite matches_moved_eq by done. by rewrite bool_decide_eq_false_2.
    - rewrite matches_moved_ne by done. by apply Hno. }
  assert (Hsp : first_match SpareSessionState r ev2 w1 l = Some s).
  { apply first_match_only; [done| |].
    - unfold w1. rewrite matches_moved_eq by done. rewrite Hc.
      by rewrite bool_decide_eq_true_2.
    - intros s' Hs' Hne. unfold w1. rewrite matches_moved_ne by done.
      by apply Hno. }
  exists w1. eexists. split; [by apply SessionFacts.rest_working with r|]. split.
  - rewrite (get_on_registry r ev2 wt cb kp w1 l) by done.
    rewrite scan_suspends_first.
    change (first_match SuspendSessionState r ev2 (scanning r w1) l)
      with (first_match SuspendSessionState r ev2 w1 l).
    rewrite Hsu. cbn [obind]. unfold bind at 1. rewrite scan_spares_first.
    change (first_match SpareSessionState r ev2 (scanning r w1) l)
      with (first_match SpareSessionState r ev2 w1 l).
    rewrite Hsp.
    rewrite (SessionFacts.work_spare (scanning r w1) s _ ev2 Hx1 eq_refl).
    cbn [obind]. unfold bind at 1. unfold set_keep, moved.
    cbn [sessions set_sessions]. rewrite list_lookup_insert_eq.
    2:{ unfold w1, moved. simpl. by rewrite length_insert. }
    cbn [obind ret]. reflexivity.
  - split.
    { unfold w1, moved. simpl. rewrite !list_insert_insert_eq. by rewrite Hr. }
    done.
Qed.

End WithEvents.

End SessionGetFacts.

(* ===================================================================== *)
(** ** Theorems: more of _di.py                                           *)
(* ===================================================================== *)

Module DIScopeFacts.
Import DI DIProps.

Section WithTyping.

Context {TypeExpr : Type}.
Variable issubclass : PyType → PyType → bool.
Variable is_type : Val → @Hint TypeExpr → bool.
Variable is_subhint : @Hint TypeExpr → @Hint TypeExpr → bool.
Variable LoggerT : @Hint TypeExpr.
Variable factory : nat → nat → @Exn TypeExpr + Val.

Abbreviation State := (@State).
Abbreviation SubGetter := (@SubGetter TypeExpr).
Abbreviation Depends := (@Depends TypeExpr).
Abbreviation AutoDepends := (@AutoDepends TypeExpr).
Abbreviation Arg := (@Arg TypeExpr).
Abbreviation fulfill := (fulfill factory).
Abbreviation fulfill_many := (fulfill_many factory).
Abbreviation call_getter := (call_getter factory).
Abbreviation resolution_at := (resolution_at factory).
Abbreviation call_orig_getter := (@call_orig_getter TypeExpr).
Abbreviation AutoDepends_fulfill :=
  (AutoDepends_fulfill issubclass is_type is_subhint LoggerT).
Abbreviation fulfill_arg := (fulfill_arg issubclass is_type is_subhint LoggerT factory).
Abbreviation fulfill_args := (fulfill_args issubclass is_type is_subhint LoggerT factory).
Abbreviation admissible := (admissible issubclass is_type).

Implicit Types (st : State) (v : Val) (g id : nat) (sg : option SubGetter).

Lemma times_invoked_call g st :
  times_invoked g (call_getter g st).2 = S (times_invoked g st).
Proof.
  unfold times_invoked, DI.call_getter. simpl.
  rewrite filter_app, length_app. rewrite filter_cons_True by done. simpl. lia.
Qed.

Lemma get_on_factory g sg st :
  apply_sub_getter sg (call_getter g st) =
    (resolution_at g sg (times_invoked g st), (call_getter g st).2).
Proof.
  unfold DIProps.resolution_at, DI.call_getter, apply_sub_getter, sub_value. simpl.
  destruct (factory g _) as [e|v]; [done|]. by destruct sg.
Qed.

(** [fulfill] of an uncached [Depends] on a factory. *)
Lemma fulfill_uncached_on id g sg st :
  fulfill (DependsOn id g sg false) st =
    match resolution_at g sg (times_invoked g st) with
    | inr v => (inr v, set_scope id v (call_getter g st).2)
    | inl e => (inl e, (call_getter g st).2)
    end.
Proof.
  cbn [DI.fulfill]. unfold fulfill_with. cbn [dep_cache negb dep_id].
  rewrite get_on_factory. by destruct (resolution_at _ _ _).
Qed.

(** [fulfill] of a cached [Depends] on a factory that holds nothing. *)
Lemma fulfill_cached_void id g sg st :
  cached_of st id = VOID →
  fulfill (DependsOn id g sg true) st =
    match resolution_at g sg (times_invoked g st) with
    | inr v => (inr v, set_scope id v (set_cached id v (call_getter g st).2))
    | inl e => (inl e, (call_getter g st).2)
    end.
Proof.
  intros Hc. cbn [DI.fulfill]. unfold fulfill_with. cbn [dep_cache negb dep_id].
  rewrite Hc. rewrite bool_decide_eq_true_2 by done. cbn [negb].
  rewrite get_on_factory. destruct (resolution_at _ _ _) as [e|v]; [done|].
  unfold cached_of, set_cached. cbn [cached]. by rewrite lookup_insert_eq.
Qed.

(** X9. A [Depends] built without [cache] on a factory runs the factory at
    every resolution, whether it is a further reference within one call
    or the first of a new call: [K] resolutions make [K] invocations, and
    the [i]-th result is what the [i]-th of these invocations gives (with
    [sub_getter] applied). The [dep_scope] entry it writes is never read
    for a direct reference. *)
Theorem uncached_depends_runs_each_time id g sg (new_call : list bool) :
  ∀ st,
    ∃ st',
      fulfill_many (DependsOn id g sg false) new_call st =
        (map (resolution_at g sg) (seq (times_invoked g st) (length new_call)), st') ∧
      times_invoked g st' = times_invoked g st + length new_call.
Proof.
  induction new_call as [|b bs IH]; intros st.
  - exists st. split; [done|]. simpl. lia.
  - cbn [DI.fulfill_many]. rewrite fulfill_uncached_on.
    set (st0 := if b then new_scope st else st).
    assert (Ht : times_invoked g st0 = times_invoked g st) by (by destruct b).
    pose proof (times_invoked_call g st0) as Hc.
    destruct (resolution_at g sg (times_invoked g st0)) as [e|v] eqn:E.
    + destruct (IH (call_getter g st0).2) as (st' & E' & Hn).
      rewrite E'. exists st'. split.
      * cbn [length seq map]. rewrite <- Ht, E. do 3 f_equal. by rewrite Hc.
      * rewrite Hn, Hc, Ht. simpl. lia.
    + destruct (IH (set_scope id v (call_getter g st0).2)) as (st' & E' & Hn).
      rewrite E'. exists st'.
      change (times_invoked g (set_scope id v (call_getter g st0).2))
        with (times_invoked g (call_getter g st0).2) in *.
      split.
      * cbn [length seq map]. rewrite <- Ht, E. do 3 f_equal. by rewrite Hc.
      * rewrite Hn, Hc, Ht. simpl. lia.
Qed.

(** A reference to [base] when the scope holds a value for it. *)
Lemma fulfill_ref_served i base sg st v :
  dep_scope st !! dep_id base = Some v → v ≠ VOID →
  fulfill (DependsRef i base sg false) st =
    match sub_value sg v with
    | inr x => (inr x, set_scope i x st)
    | inl e => (inl e, st)
    end.
Proof.
  intros Hs Hv. cbn [DI.fulfill]. unfold fulfill_with. cbn [dep_cache negb dep_id].
  rewrite Hs. cbn [default]. rewrite bool_decide_eq_false_2 by done.
  unfold apply_sub_getter, sub_value. simpl.
  destruct sg as [f|]; [by destruct (f v)|done].
Qed.

Lemma fulfill_refs_served base (refs : list (nat * option SubGetter)) v : ∀ st,
  dep_scope st !! dep_id base = Some v → v ≠ VOID →
  dep_id base ∉ refs.*1 →
  ∃ st',
    fulfill_args (refs_to base refs) st = (sub_values v refs.*2, st') ∧
    invoked st' = invoked st.
Proof.
  induction refs as [|[i sgi] refs IH]; intros st Hs Hv Hni.
  - by exists st.
  - cbn [refs_to map fmap list_fmap fst snd] in *.
    apply not_elem_of_cons in Hni as [Hne Hni].
    cbn [DI.fulfill_args DI.fulfill_arg sub_values].
    change (DI.fulfill factory (DependsRef i base sgi false) st)
      with (fulfill (DependsRef i base sgi false) st).
    rewrite (fulfill_ref_served i base sgi st v Hs Hv).
    destruct (sub_value sgi v) as [e|x]; [by exists st|].
    destruct (IH (set_scope i x st)) as (st' & E & Hinv); [|done|done|].
    { unfold set_scope. cbn [dep_scope]. by rewrite lookup_insert_ne. }
    change (map (λ r, Dep (DependsRef r.1 base r.2 false)) refs)
      with (refs_to base refs).
    rewrite E. exists st'. split; [|done].
    by destruct (sub_values v refs.*2).
Qed.

(** X10. Within one call of [wrapped], the parameters whose defaults are
    uncached [Depends] objects built on one uncached [Depends] share a
    single resolution of it: when that resolution gives a value other
    than [VOID], the factory runs once for the whole call, and every
    parameter gets that value passed through its own [sub_getter]. *)
Theorem refs_share_one_resolution id g sg (refs : list (nat * option SubGetter)) st v :
  refs ≠ [] →
  id ∉ refs.*1 →
  resolution_at g sg (times_invoked g st) = inr v →
  v ≠ VOID →
  ∃ st',
    fulfill_args (refs_to (DependsOn id g sg false) refs) (new_scope st) =
      (sub_values v refs.*2, st') ∧
    times_invoked g st' = S (times_invoked g st).
Proof.
  intros Hne Hni Hres Hv. destruct refs as [|[i sgi] refs]; [done|].
  cbn [refs_to map fmap list_fmap fst snd] in *.
  apply not_elem_of_cons in Hni as [Hid Hni].
  cbn [DI.fulfill_args DI.fulfill_arg sub_values].
  cbn [DI.fulfill]. unfold fulfill_with at 1. cbn [dep_cache negb dep_id].
  change (dep_scope (new_scope st) !! id) with (@None Val).
  cbn [default]. rewrite bool_decide_eq_true_2 by done.
  change (fulfill_with _ (DependsOn id g sg false) (new_scope st))
    with (fulfill (DependsOn id g sg false) (new_scope st)).
  rewrite fulfill_uncached_on.
  change (times_invoked g (new_scope st)) with (times_invoked g st).
  rewrite Hres. cbn [apply_sub_getter].
  set (st1 := set_scope id v (call_getter g (new_scope st)).2).
  assert (Hinv1 : times_invoked g st1 = S (times_invoked g st)).
  { change (times_invoked g st1)
      with (times_invoked g (call_getter g (new_scope st)).2).
    by rewrite times_invoked_call. }
  assert (Hsub : (match sgi with Some f => (f v, st1) | None => (inr v, st1) end)
                 = (sub_value sgi v, st1)) by (by destruct sgi).
  rewrite Hsub. clear Hsub.
  destruct (sub_value sgi v) as [e|x]; [by exists st1|].
  destruct (fulfill_refs_served (DependsOn id g sg false) refs v (set_scope i x st1))
    as (st' & E & Hinv); [|done|done|].
  { unfold set_scope, st1. cbn [dep_scope dep_id].
    rewrite lookup_insert_ne by done. unfold set_scope. cbn [dep_scope].
    by rewrite lookup_insert_eq. }
  change (map (λ r, Dep (DependsRef r.1 (DependsOn id g sg false) r.2 false)) refs)
    with (refs_to (DependsOn id g sg false) refs).
  rewrite E. exists st'. split; [by destruct (sub_values v refs.*2)|].
  unfold times_invoked in *. rewrite Hinv. exact Hinv1.
Qed.

(** X11. A resolution of a cached [Depends] that raises, or that gives the
    [VOID] sentinel, is not remembered: [_cached] is still [VOID]
    afterwards, and the next resolution runs the factory again and gives
    what that invocation gives. *)
Theorem failed_resolution_not_cached id g sg st :
  cached_of st id = VOID →
  (resolution_at g sg (times_invoked g st) = inr VOID ∨
   ∃ e, resolution_at g sg (times_invoked g st) = inl e) →
  ∃ st1 st2,
    fulfill (DependsOn id g sg true) st =
      (resolution_at g sg (times_invoked g st), st1) ∧
    cached_of st1 id = VOID ∧
    fulfill (DependsOn id g sg true) st1 =
      (resolution_at g sg (S (times_invoked g st)), st2) ∧
    times_invoked g st2 = S (S (times_invoked g st)).
Proof.
  intros Hc Hres.
  assert (Hstep : ∀ st0, cached_of st0 id = VOID →
            ∃ st', fulfill (DependsOn id g sg true) st0 =
                     (resolution_at g sg (times_invoked g st0), st') ∧
                   times_invoked g st' = S (times_invoked g st0) ∧
                   (∀ v, resolution_at g sg (times_invoked g st0) = inr v →
                         cached_of st' id = v) ∧
                   (∀ e, resolution_at g sg (times_invoked g st0) = inl e →
                         cached_of st' id = VOID)).
  { intros st0 Hc0. rewrite (fulfill_cached_void id g sg st0 Hc0).
    pose proof (times_invoked_call g st0) as Ht.
    destruct (resolution_at g sg (times_invoked g st0)) as [e|v].
    - eexists. split; [done|]. split; [done|]. split; [done|]. intros _ _. exact Hc0.
    - eexists. split; [done|]. split; [exact Ht|]. split; [|done].
      intros v' [= <-]. unfold cached_of, set_scope, set_cached. cbn [cached].
      by rewrite lookup_insert_eq. }
  destruct (Hstep st Hc) as (st1 & E1 & Ht1 & Hv1 & He1).
  assert (Hc1 : cached_of st1 id = VOID).
  { destruct Hres as [Hr|[e Hr]]; [by apply Hv1|by apply (He1 e)]. }
  destruct (Hstep st1 Hc1) as (st2 & E2 & Ht2 & _).
  exists st1, st2. rewrite Ht1 in E2. split; [done|]. split; [done|].
  split; [done|]. by rewrite Ht2, Ht1.
Qed.

(** X12. What [AutoDepends.fulfill] returns for a parameter whose hint it
    checks (one with an [Exclude] tag, or with no [CustomLogger] tag and a
    hint that is no subhint of the logger type) is the value fetched from
    the context, it satisfies the hint and is an instance of no excluded
    type; the value has been entered in [dep_scope] and nothing else has
    changed. *)
Theorem auto_depends_result_checked (a : AutoDepends) st v st' :
  AutoDepends_fulfill a st = (inr v, st') →
  ((∃ types, ad_metadata a = Some (Exclude types)) ∨
   (is_CustomLogger (ad_metadata a) = false ∧ is_subhint (ad_hint a) LoggerT = false)) →
  call_orig_getter (ad_orig_getter a) (contexts st) = inr v ∧
  admissible a v ∧
  st' = set_scope (ad_id a) v st.
Proof.
  unfold DI.AutoDepends_fulfill, AutoDepends_super_fulfill, DIProps.admissible.
  intros Hf Hchk.
  destruct (call_orig_getter (ad_orig_getter a) (contexts st)) as [e|val] eqn:Hg;
    [done|].
  destruct (ad_metadata a) as [[types|gt|tag]|] eqn:Hm.
  - destruct (existsb (isinstance issubclass val) types) eqn:Hex; [done|].
    destruct (is_type val (ad_hint a)) eqn:Hty; [|done].
    injection Hf as <- <-. split; [done|]. split; [|done]. split; [done|].
    intros types' [= <-] t Ht.
    destruct (isinstance issubclass val t) eqn:Hi; [|done].
    assert (existsb (isinstance issubclass val) types = true); [|congruence].
    apply existsb_exists. exists t. split; [|done]. by apply list_elem_of_In.
  - destruct Hchk as [[types [=]]|[Hcl _]]. done.
  - destruct Hchk as [[types [=]]|[_ Hl]]. rewrite Hl in Hf.
    destruct (is_type val (ad_hint a)) eqn:Hty; [|done].
    injection Hf as <- <-. done.
  - destruct Hchk as [[types [=]]|[_ Hl]]. rewrite Hl in Hf.
    destruct (is_type val (ad_hint a)) eqn:Hty; [|done].
    injection Hf as <- <-. done.
Qed.

(** X13. The loop of [wrapped] over the positional arguments keeps their
    number and their places, and replaces only the [Depends] objects: an
    argument given by the caller reaches the user callable as it is. *)
Theorem given_arguments_pass_through (args : list Arg) : ∀ st vals st',
  fulfill_args args st = (inr vals, st') →
  length vals = length args ∧
  ∀ i v, args !! i = Some (Given v) → vals !! i = Some v.
Proof.
  induction args as [|x args IH]; intros st vals st' Hf.
  - injection Hf as <- <-. done.
  - cbn [DI.fulfill_args] in Hf.
    destruct (DI.fulfill_arg issubclass is_type is_subhint LoggerT factory x st)
      as [[e|v0] st1] eqn:Hx; [done|].
    destruct (DI.fulfill_args issubclass is_type is_subhint LoggerT factory args st1)
      as [[e|vs] st2] eqn:Hr; [done|].
    injection Hf as <- <-. destruct (IH st1 vs st2 Hr) as [Hlen Hat].
    split; [simpl; by rewrite Hlen|].
    intros [|i] v Hi.
    + simpl in Hi. injection Hi as ->. simpl in Hx. by injection Hx as <- <-.
    + simpl in *. by apply Hat.
Qed.

End WithTyping.

End DIScopeFacts.

(* ===================================================================== *)
(** ** Theorems: more of utils.py                                         *)
(* ===================================================================== *)

Module UtilsCallFacts.
Import TwinEvent Utils UtilsCalls.

(** *** Twin events *)

Lemma apply_op_flags h a b o :
  twinned h a b →
  is_set (apply_op a b h o) a = sets_first o ∧
  is_set (apply_op a b h o) b = negb (sets_first o) ∧
  ∀ c, c ≠ a → c ≠ b → apply_op a b h o !! c = h !! c.
Proof.
  intros (Hne & va & vb & Ha & Hb & Hx).
  assert (Hla : a < length h) by (by eapply lookup_lt_Some).
  assert (Hlb : b < length h) by (by eapply lookup_lt_Some).
  destruct o as [[] []]; unfold apply_op, set, clear, super_set, super_clear,
    twin_of, is_set; cbn [fst snd sets_first negb];
    rewrite ?Ha, ?Hb; cbn [_value _twin];
    rewrite ?list_lookup_insert_eq by done; cbn [_value _twin];
    rewrite ?list_lookup_insert_ne by done; rewrite ?Ha, ?Hb; cbn [_value _twin];
    (split; [|split]);
    try (intros c Hca Hcb; by rewrite !list_lookup_insert_ne by done);
    rewrite ?list_lookup_insert_eq by (by rewrite ?length_insert);
    rewrite ?list_lookup_insert_ne by done;
    rewrite ?list_lookup_insert_eq by (by rewrite ?length_insert);
    done.
Qed.

(** X14. For a pair of twin events, the last operation decides: after any
    sequence of [set] and [clear] calls on either of them that is not
    empty, the first event is set exactly when the last call was [set] on
    it or [clear] on the second, the second has the opposite flag, and no
    other event object has been touched. *)
Theorem twin_last_operation_decides h a b (ops : list (op * side)) (o : op * side) :
  twinned h a b →
  is_set (run_ops a b h (ops ++ [o])) a = sets_first o ∧
  is_set (run_ops a b h (ops ++ [o])) b = negb (sets_first o) ∧
  ∀ c, c ≠ a → c ≠ b → run_ops a b h (ops ++ [o]) !! c = h !! c.
Proof.
  intros Htw. unfold run_ops. rewrite foldl_app. cbn [foldl].
  assert (Hpre : twinned (foldl (apply_op a b) h ops) a b ∧
                 ∀ c, c ≠ a → c ≠ b → foldl (apply_op a b) h ops !! c = h !! c).
  { clear o. revert h Htw. induction ops as [|o' ops IH]; intros h Htw; [done|].
    cbn [foldl].
    destruct (IH (apply_op a b h o') (TwinEventFacts.apply_op_twinned h a b o' Htw))
      as [Ht Hc].
    split; [done|]. intros c Hca Hcb. rewrite Hc by done.
    by apply (apply_op_flags h a b o' Htw). }
  destruct Hpre as [Ht Hc].
  destruct (apply_op_flags _ a b o Ht) as (Hfa & Hfb & Hfc).
  split; [done|]. split; [done|].
  intros c Hca Hcb. rewrite Hfc by done. by apply Hc.
Qed.

(** X15. [bind] works in one direction only. After [a.bind(b)] alone, with
    [b] bound to nothing, [b] has the flag opposite to that of [a], but
    [set] and [clear] on [b] leave [a] as it is: the two can then carry
    the same flag. It takes the second [bind] of [get_twin_event] to make
    them twins. *)
Theorem bind_is_one_directional h a b oa ob :
  a ≠ b →
  h !! a = Some oa → h !! b = Some ob → _twin ob = None →
  is_set (bind h a b) b = negb (_value oa) ∧
  is_set (bind h a b) a = _value oa ∧
  is_set (set (bind h a b) b) a = _value oa ∧
  is_set (set (bind h a b) b) b = true ∧
  is_set (clear (bind h a b) b) a = _value oa ∧
  is_set (clear (bind h a b) b) b = false.
Proof.
  intros Hne Ha Hb Htw.
  assert (Hla : a < length h) by (by eapply lookup_lt_Some).
  assert (Hlb : b < length h) by (by eapply lookup_lt_Some).
  destruct oa as [va ta], ob as [vb tb]. simpl in Htw. subst tb. cbn [_value].
  set (h1 := bind h a b).
  assert (H1 : h1 !! a = Some (mkTwin va (Some b)) ∧
               h1 !! b = Some (mkTwin (negb va) None)).
  { unfold h1, bind, set_twin, is_set. rewrite Ha. cbn [_value _twin].
    rewrite list_lookup_insert_eq by done. cbn [_value].
    destruct va; unfold super_clear, super_set;
      rewrite list_lookup_insert_ne by done; rewrite Hb; cbn [_value _twin];
      (split; [rewrite list_lookup_insert_ne by done;
               by rewrite list_lookup_insert_eq
              |by rewrite list_lookup_insert_eq by (by rewrite length_insert)]). }
  destruct H1 as [H1a H1b].
  assert (Hl1 : b < length h1) by (by eapply lookup_lt_Some).
  assert (Hset : set h1 b = <[b := mkTwin true None]> h1).
  { unfold set, super_set, twin_of. rewrite H1b. cbn [_twin].
    by rewrite list_lookup_insert_eq by done. }
  assert (Hclear : clear h1 b = <[b := mkTwin false None]> h1).
  { unfold clear, super_clear, twin_of. rewrite H1b. cbn [_twin].
    by rewrite list_lookup_insert_eq by done. }
  rewrite Hset, Hclear. unfold is_set.
  rewrite !list_lookup_insert_ne by done.
  rewrite !list_lookup_insert_eq by done.
  rewrite ?list_lookup_insert_ne by done.
  by rewrite H1a, H1b.
Qed.

(** *** speedlimit *)

Section Arithmetic.

Variable fsub : Q → Q → Q.
Variable isub : Z → Q → option Q.

Abbreviation _wrapped_func := (_wrapped_func fsub isub).
Abbreviation calls := (calls fsub isub).
Abbreviation over_limit := (over_limit fsub isub).

Lemma result_set_now t : result_set (mkResultSet t (-1)) = Guarded t.
Proof. done. Qed.

(** A call changes nothing but the counter and the start of the window,
    and leaves the counter in range. *)
Lemma _wrapped_func_env now now' env :
  (0 < sl_limit env)%Z →
  (0 ≤ called_num env ≤ sl_limit env)%Z →
  sl_limit (_wrapped_func now now' env).2 = sl_limit env ∧
  (0 ≤ called_num (_wrapped_func now now' env).2
     ≤ sl_limit (_wrapped_func now now' env).2)%Z.
Proof.
  intros Hl Hc. unfold UtilsCalls._wrapped_func.
  destruct (Qle_bool _ _).
  - destruct (Z.ltb_spec (called_num env) (sl_limit env)).
    + simpl. lia.
    + destruct (sl_callback env); [done|]. by destruct (isub _ _).
  - simpl. lia.
Qed.

(** X16. The counter of [speedlimit] never leaves the range from 0 to
    [limit], whatever the clock gives: it counts the calls let through in
    the window in progress. *)
Theorem speedlimit_counter_bounded (clock : list (Q * Q)) : ∀ env,
  (0 < sl_limit env)%Z →
  (0 ≤ called_num env ≤ sl_limit env)%Z →
  (0 ≤ called_num (calls clock env).2 ≤ sl_limit (calls clock env).2)%Z ∧
  sl_limit (calls clock env).2 = sl_limit env.
Proof.
  induction clock as [|[now now'] clock IH]; intros env Hl Hc; [done|].
  cbn [UtilsCalls.calls].
  destruct (_wrapped_func_env now now' env Hl Hc) as [Hl1 Hc1].
  destruct (_wrapped_func now now' env) as [rs env1]. cbn [snd] in *.
  destruct (IH env1) as [IH1 IH2]; [lia|done|].
  destruct (calls clock env1) as [ss env2]. simpl in *. split; [done|]. lia.
Qed.

(** The calls for which [passed_time] comes out within the window in
    progress. *)
Lemma calls_inside_window (clock : list (Q * Q)) : ∀ env,
  (0 ≤ called_num env)%Z →
  Forall (λ c, (fsub c.1 (min_start env) <= inject_Z (sl_duration env))%Q) clock →
  min_start (calls clock env).2 = min_start env ∧
  called_num (calls clock env).2 =
    Z.max (called_num env)
          (Z.min (called_num env + Z.of_nat (length clock)) (sl_limit env)) ∧
  ∀ i c, clock !! i = Some c →
    (calls clock env).1 !! i =
      Some (if (called_num env + Z.of_nat i <? sl_limit env)%Z
            then inr (Guarded TFunc)
            else over_limit env c.1).
Proof.
  induction clock as [|[now now'] clock IH]; intros env Hc Hin.
  - split; [done|]. split; [simpl; lia|]. done.
  - apply Forall_cons in Hin as [Hnow Hin]. cbn [fst] in Hnow.
    cbn [UtilsCalls.calls]. unfold UtilsCalls._wrapped_func.
    assert (Hle : Qle_bool (fsub now (min_start env)) (inject_Z (sl_duration env))
                  = true) by (by apply Qle_bool_iff).
    rewrite Hle.
    destruct (Z.ltb_spec (called_num env) (sl_limit env)) as [Hlt|Hge].
    + set (env1 := mkSpeedlimit _ _ _ _ _).
      destruct (IH env1) as (Hm & Hn & Hs); [simpl; lia|done|].
      destruct (calls clock env1) as [ss env2]. cbn [fst snd] in *.
      split; [done|]. split.
      * rewrite Hn. unfold env1. cbn [called_num sl_limit length]. lia.
      * intros [|i] c Hi.
        -- cbn [lookup list_lookup started]. rewrite result_set_now.
           by destruct (Z.ltb_spec (called_num env + Z.of_nat 0) (sl_limit env));
             [|lia].
        -- change (ss !! i = Some
                     (if (called_num env + Z.of_nat (S i) <? sl_limit env)%Z
                      then inr (Guarded TFunc)
                      else over_limit env c.1)).
           change (clock !! i = Some c) in Hi. rewrite (Hs i c Hi).
           unfold env1. cbn [called_num sl_limit].
           by replace (called_num env + 1 + Z.of_nat i)%Z
             with (called_num env + Z.of_nat (S i))%Z by lia.
    + assert (Hstep : ∃ r,
                (match sl_callback env with
                 | Some _ => (inr (mkResultSet TCallback (-1)), env)
                 | None =>
                     match isub (sl_duration env) (fsub now (min_start env)) with
                     | Some delay => (inr (mkResultSet TFunc delay), env)
                     | None => (inl OverflowError, env)
                     end
                 end) = (r, env) ∧
                started r = over_limit env now).
      { unfold UtilsCalls.over_limit.
        destruct (sl_callback env); [by eexists|].
        destruct (isub _ _); by eexists. }
      destruct Hstep as (r & -> & Hr).
      destruct (IH env) as (Hm & Hn & Hs); [done|done|].
      destruct (calls clock env) as [ss env2]. cbn [fst snd] in *.
      split; [done|]. split.
      * rewrite Hn. cbn [length]. lia.
      * intros [|i] c Hi.
        -- injection Hi as <-. cbn [lookup list_lookup fst]. rewrite Hr.
           by destruct (Z.ltb_spec (called_num env + Z.of_nat 0) (sl_limit env));
             [lia|].
        -- change (ss !! i = Some
                     (if (called_num env + Z.of_nat (S i) <? sl_limit env)%Z
                      then inr (Guarded TFunc)
                      else over_limit env c.1)).
           change (clock !! i = Some c) in Hi. rewrite (Hs i c Hi).
           destruct (Z.ltb_spec (called_num env + Z.of_nat i) (sl_limit env));
             [lia|].
           by destruct (Z.ltb_spec (called_num env + Z.of_nat (S i)) (sl_limit env));
             [lia|].
Qed.

(** X17. Of the calls that reach a newly built [speedlimit] while the
    [passed_time] it computes is at most [duration], exactly the first
    [limit] start the decorated function at once and are counted. Each
    later one starts [callback] if there is one; otherwise it is handed
    to [result_set] with the delay the code computes as
    [duration - passed_time], which sleeps and tries again when that
    delay is positive and starts the function at once, uncounted, when it
    is not (or the call raises [OverflowError] when [duration] is too
    large for a float). The window is not restarted meanwhile. *)
Theorem speedlimit_first_window now0 cb limit duration env (clock : list (Q * Q)) :
  speedlimit now0 cb limit duration = inr env →
  Forall (λ c, (fsub c.1 now0 <= inject_Z duration)%Q) clock →
  min_start (calls clock env).2 = now0 ∧
  called_num (calls clock env).2 = Z.min (Z.of_nat (length clock)) limit ∧
  ∀ i c, clock !! i = Some c →
    (calls clock env).1 !! i =
      Some (if (Z.of_nat i <? limit)%Z then inr (Guarded TFunc)
            else match cb with
                 | Some _ => inr (Guarded TCallback)
                 | None =>
                     match isub duration (fsub c.1 now0) with
                     | Some delay =>
                         inr (if Qlt_le_dec 0 delay then SleepRetry delay
                              else Guarded TFunc)
                     | None => inl OverflowError
                     end
                 end).
Proof.
  intros Hsp Hin. unfold speedlimit in Hsp.
  destruct (Z.leb_spec limit 0) as [|Hl]; [done|].
  destruct (Z.leb_spec duration 0) as [|Hd]; [done|].
  injection Hsp as <-.
  set (env := mkSpeedlimit cb limit duration 0 now0).
  destruct (calls_inside_window clock env) as (Hm & Hn & Hs); [done|done|].
  split; [done|]. split; [rewrite Hn; simpl; lia|].
  intros i c Hi. by rewrite (Hs i c Hi).
Qed.

(** X18. At the very end of the window the limit does not hold. A call
    for which [passed_time] comes out as exactly [duration], with the
    counter at [limit] and no [callback], is given the delay 0 (an
    integer minus the float equal to it is 0), and [result_set] starts
    the decorated function at once for it without counting it:
    [limit + 1] runs have then started within one window. *)
Theorem speedlimit_boundary_call_uncounted env now now' :
  (∀ p, (p == inject_Z (sl_duration env))%Q →
        ∃ z, isub (sl_duration env) p = Some z ∧ (z == 0)%Q) →
  sl_callback env = None →
  (sl_limit env ≤ called_num env)%Z →
  (fsub now (min_start env) == inject_Z (sl_duration env))%Q →
  started (_wrapped_func now now' env).1 = inr (Guarded TFunc) ∧
  (_wrapped_func now now' env).2 = env.
Proof.
  intros Hsub Hcb Hfull Hend. unfold UtilsCalls._wrapped_func.
  assert (Hle : Qle_bool (fsub now (min_start env)) (inject_Z (sl_duration env))
                = true).
  { apply Qle_bool_iff. rewrite Hend. apply Qle_refl. }
  rewrite Hle.
  destruct (Z.ltb_spec (called_num env) (sl_limit env)); [lia|].
  rewrite Hcb. destruct (Hsub _ Hend) as (z & -> & Hz).
  cbn [fst snd started]. split; [|done].
  unfold result_set. cbn [rs_delay rs_target].
  destruct (Qlt_le_dec 0 z) as [Hpos|]; [|done]. rewrite Hz in Hpos.
  by apply Qlt_irrefl in Hpos.
Qed.

End Arithmetic.

(** *** singleton *)

Lemma singleton_calls_built cls o (argss : list (list Z)) : ∀ env,
  obj_map env = Some o →
  singleton_calls cls argss env = (map (λ _, inr o) argss, env).
Proof.
  induction argss as [|args argss IH]; intros env Ho; [done|].
  cbn [singleton_calls]. unfold singleton_wrapped. rewrite Ho.
  by rewrite (IH env Ho).
Qed.

(** X21. [singleton] builds one object: once a call of [wrapped] has got
    an object out of the class, every later call returns that object,
    whatever its arguments, and the class is not called again. A call in
    which the class raises stores nothing, so the next call tries
    again. *)
Theorem singleton_builds_once cls (failed : list (list Z)) args (later : list (list Z)) :
  (∀ i a, failed !! i = Some a → cls i a ≠ None) →
  cls (length failed) args = None →
  ∃ errs,
    length errs = length failed ∧
    singleton_calls cls (failed ++ args :: later) (mkSingleton None 0) =
      (map inl errs ++ inr (length failed) :: map (λ _, inr (length failed)) later,
       mkSingleton (Some (length failed)) (S (length failed))).
Proof.
  intros Hfail Hok.
  assert (Hgen : ∀ n (fl : list (list Z)),
            (∀ i a, fl !! i = Some a → cls (n + i) a ≠ None) →
            cls (n + length fl) args = None →
            ∃ errs, length errs = length fl ∧
              singleton_calls cls (fl ++ args :: later) (mkSingleton None n) =
                (map inl errs ++ inr (n + length fl) ::
                   map (λ _, inr (n + length fl)) later,
                 mkSingleton (Some (n + length fl)) (S (n + length fl)))).
  { intros n fl. revert n. induction fl as [|a fl IH]; intros n Hf Ha.
    - exists []. split; [done|]. cbn [app length] in *. rewrite Nat.add_0_r in *.
      cbn [singleton_calls]. unfold singleton_wrapped. cbn [obj_map cls_calls].
      rewrite Ha. by rewrite (singleton_calls_built cls n later).
    - cbn [app singleton_calls]. unfold singleton_wrapped. cbn [obj_map cls_calls].
      pose proof (Hf 0 a eq_refl) as H0. rewrite Nat.add_0_r in H0.
      destruct (cls n a) as [e|] eqn:Ec; [|done].
      destruct (IH (S n)) as (errs & Hlen & E).
      { intros i a' Hi. replace (S n + i) with (n + S i) by lia. by apply Hf. }
      { by replace (S n + length fl) with (n + length (a :: fl)) by (simpl; lia). }
      rewrite E. exists (e :: errs). split; [simpl; by rewrite Hlen|].
      cbn [length map app].
      by replace (S n + length fl) with (n + S (length fl)) by lia. }
  destruct (Hgen 0 failed) as (errs & Hlen & E); [done|done|].
  exists errs. split; [done|]. exact E.
Qed.

End UtilsCallFacts.

(* ===================================================================== *)
(** ** The theorems at work on concrete worlds                            *)
(* ===================================================================== *)

Module MoreScenarioFacts.
Import SessionBase SessionProps Scenarios MoreScenarios.

Lemma get_attaches_spare_witness :
  ∃ w', get same_user 7 (Some 0) true None false w_spare = Done (Some 0) w' ∧
        sessions w' = [mkSession 7 (Some 0) false WorkingSessionState].
Proof.
  destruct (SessionGetFacts.get_attaches_spare same_user w_spare 0 7 true None
              false [0] 0 eq_refl eq_refl eq_refl)
    as (x & w' & Hx & _ & Hg & Hs & _).
  exists w'. split; [exact Hg|]. rewrite Hs. injection Hx as <-. reflexivity.
Defined.

Lemma get_nowait_busy_witness :
  ∃ w', get same_user 7 (Some 0) false (Some 4) false w_working = Done None w' ∧
        sessions w' = sessions w_working ∧
        trace w' = [CallNowaitCb 4].
Proof.
  destruct (SessionGetFacts.get_nowait_busy same_user w_working 0 7 (Some 4)
              false [0] 0 eq_refl eq_refl eq_refl eq_refl)
    as (w' & Hg & Hs & _ & Ht).
  exists w'. split; [exact Hg|]. split; [exact Hs|exact Ht].
Defined.

Lemma get_waits_behind_working_witness :
  ∃ k,
    get same_user 7 (Some 0) true None false w_working =
      Await (refresh_cond 0) None (scanning 0 w_working) k ∧
    k Cancelled w_spare = Raised CancelledError w_spare ∧
    k Notified w_spare =
      Done (Some 0)
           (set_sessions <[0 := mkSession 7 (Some 0) false WorkingSessionState]>
                         w_spare) ∧
    k Notified w_working =
      Raised (SessionStateError (Unsupported "work")) w_working.
Proof.
  destruct (SessionGetFacts.get_waits_behind_working same_user w_working 0 7 None
              false [0] 0 eq_refl eq_refl eq_refl eq_refl)
    as (k & Hg & Hc & Hk).
  exists k. split; [exact Hg|]. split; [exact (Hc w_spare)|]. split.
  - exact (Hk Notified w_spare _ ltac:(discriminate) eq_refl).
  - exact (Hk Notified w_working _ ltac:(discriminate) eq_refl).
Defined.

Lemma get_after_handler_expired_witness :
  ∃ k w',
    get same_user 7 (Some 0) true None false w_working =
      Await (refresh_cond 0) None (scanning 0 w_working) k ∧
    k Notified w_expired = Done (Some 1) w' ∧
    registry w' 0 = [1].
Proof.
  destruct (SessionGetFacts.get_after_handler_expired same_user w_working 0 7 None
              false [0] 0 eq_refl eq_refl eq_refl eq_refl)
    as (k & Hg & Hk).
  destruct (Hk Notified w_expired ltac:(discriminate) eq_refl eq_refl)
    as (w' & Hd & _ & Hr).
  - apply NoDup_singleton.
  - intros s Hs. apply list_elem_of_singleton in Hs. subst. by eexists.
  - intros s Hs. apply list_elem_of_singleton in Hs. by subst.
  - exists k, w'. split; [exact Hg|]. split; [exact Hd|]. rewrite Hr. reflexivity.
Defined.

Lemma suspend_then_get_resumes_witness :
  ∃ k wS w2,
    suspend 0 None w_working = Await (wakeup_cond 0) None wS k ∧
    get any_event 8 (Some 0) true None false wS = Done None w2 ∧
    sessions w2 = [mkSession 8 (Some 0) false WorkingSessionState] ∧
    k Notified w2 = Done true w2.
Proof.
  destruct (SessionGetFacts.suspend_then_get_resumes any_event w_working 0
              (mkSession 7 (Some 0) false WorkingSessionState) 0 [0] 8 None
              true None false eq_refl eq_refl eq_refl eq_refl
              (list_elem_of_here _ _) eq_refl)
    as (k & wS & w2 & Hs & Hg & Hss & _ & _ & Hk).
  - intros s' Hs' Hne. apply list_elem_of_singleton in Hs'. by subst.
  - exists k, wS, w2. split; [exact Hs|]. split; [|split; [exact Hss|exact Hk]].
    exact Hg.
Defined.

Lemma rest_then_get_reuses_witness :
  ∃ w1 w2,
    rest 0 w_working = Done tt w1 ∧
    get same_user 7 (Some 0) true None true w1 = Done (Some 0) w2 ∧
    sessions w2 = [mkSession 7 (Some 0) true WorkingSessionState] ∧
    instances w2 = instances w_working.
Proof.
  destruct (SessionGetFacts.rest_then_get_reuses same_user w_working 0
              (mkSession 7 (Some 0) false WorkingSessionState) 0 [0] 7
              true None true eq_refl eq_refl eq_refl eq_refl
              (list_elem_of_here _ _) eq_refl)
    as (w1 & w2 & Hr & Hg & Hs & Hi & _).
  - intros s' Hs' Hne. apply list_elem_of_singleton in Hs'. by subst.
  - exists w1, w2. split; [exact Hr|]. split; [exact Hg|]. split; [exact Hs|exact Hi].
Defined.

Import DI DIProps.

Lemma refs_share_one_resolution_witness :
  ∃ st',
    toy_fulfill_args
      (refs_to uncached_dep [(7, None); (8, Some next_object)])
      (new_scope st_message) =
      (inr [PyObj 9 300; PyObj 9 301], st') ∧
    times_invoked 3 st' = 1.
Proof.
  destruct (DIScopeFacts.refs_share_one_resolution toy_issubclass toy_is_type
              toy_is_subhint (HPlain 1) toy_factory 6 3 None
              [(7, None); (8, Some next_object)] st_message (PyObj 9 300))
    as (st' & Hf & Ht).
  - discriminate.
  - simpl. intros H. repeat (apply elem_of_cons in H as [H|H]; [discriminate|]).
    by apply elem_of_nil in H.
  - reflexivity.
  - discriminate.
  - exists st'. split; [exact Hf|exact Ht].
Defined.

Lemma failed_resolution_not_cached_witness :
  ∃ st1 st2,
    fulfill flaky_factory (DependsOn 5 3 None true) st_message =
      (inl (UserError 1), st1) ∧
    fulfill flaky_factory (DependsOn 5 3 None true) st1 = (inr (PyObj 9 1), st2) ∧
    times_invoked 3 st2 = 2.
Proof.
  destruct (DIScopeFacts.failed_resolution_not_cached flaky_factory 5 3 None
              st_message eq_refl (or_intror (ex_intro _ (UserError 1) eq_refl)))
    as (st1 & st2 & H1 & _ & H2 & Ht).
  exists st1, st2. split; [exact H1|]. split; [exact H2|exact Ht].
Defined.

Lemma auto_depends_result_checked_witness :
  toy_auto_fulfill message_param st_message =
    (inr (PyObj 7 0), set_scope 3 (PyObj 7 0) st_message) ∧
  admissible toy_issubclass toy_is_type message_param (PyObj 7 0).
Proof.
  split; [reflexivity|].
  exact (proj1 (proj2
    (DIScopeFacts.auto_depends_result_checked toy_issubclass toy_is_type
       toy_is_subhint (HPlain 1) message_param st_message (PyObj 7 0)
       (set_scope 3 (PyObj 7 0) st_message) eq_refl
       (or_intror (conj eq_refl eq_refl))))).
Defined.

Lemma given_arguments_pass_through_witness :
  ∃ vals st',
    toy_fulfill_args [Given (PyObj 4 1); Dep cached_dep; Given (PyObj 4 2)]
                     st_message = (inr vals, st') ∧
    length vals = 3 ∧
    vals !! 0 = Some (PyObj 4 1) ∧ vals !! 2 = Some (PyObj 4 2).
Proof.
  destruct (toy_fulfill_args [Given (PyObj 4 1); Dep cached_dep; Given (PyObj 4 2)]
                             st_message) as [[e|vals] st'] eqn:E;
    [discriminate E|].
  destruct (DIScopeFacts.given_arguments_pass_through toy_issubclass toy_is_type
              toy_is_subhint (HPlain 1) toy_factory _ _ _ _ E) as [Hlen Hat].
  exists vals, st'. split; [reflexivity|]. split; [exact Hlen|].
  split; [exact (Hat 0 _ eq_refl)|exact (Hat 2 _ eq_refl)].
Defined.

Import TwinEvent Utils UtilsCalls.

Lemma twin_last_operation_decides_witness :
  is_set (run_ops 0 1 (get_twin_event []).1
            [(OpSet, OnFirst); (OpSet, OnSecond); (OpClear, OnSecond)]) 0 = true ∧
  is_set (run_ops 0 1 (get_twin_event []).1
            [(OpSet, OnFirst); (OpSet, OnSecond); (OpClear, OnSecond)]) 1 = false.
Proof.
  assert (Htw : twinned (get_twin_event []).1 0 1).
  { split; [discriminate|]. exists false, true. repeat split. }
  destruct (UtilsCallFacts.twin_last_operation_decides (get_twin_event []).1 0 1
              [(OpSet, OnFirst); (OpSet, OnSecond)] (OpClear, OnSecond) Htw)
    as (Ha & Hb & _).
  split; [exact Ha|exact Hb].
Defined.

Lemma bind_is_one_directional_witness :
  is_set (TwinEvent.set (bind [mkTwin true None; init] 0 1) 1) 0 = true ∧
  is_set (TwinEvent.set (bind [mkTwin true None; init] 0 1) 1) 1 = true.
Proof.
  destruct (UtilsCallFacts.bind_is_one_directional [mkTwin true None; init] 0 1
              (mkTwin true None) init ltac:(discriminate) eq_refl eq_refl eq_refl)
    as (_ & _ & Ha & Hb & _).
  split; [exact Ha|exact Hb].
Defined.

Lemma speedlimit_counter_bounded_witness :
  (0 ≤ called_num (calls floor_fsub exact_isub
                         [(0, 0); (1, 1); (100, 100); (101, 101)]%Q
                         two_per_minute).2 ≤ 2)%Z.
Proof.
  exact (proj1 (UtilsCallFacts.speedlimit_counter_bounded floor_fsub exact_isub
                  [(0, 0); (1, 1); (100, 100); (101, 101)]%Q two_per_minute
                  ltac:(reflexivity) ltac:(vm_compute; split; discriminate))).
Defined.

Lemma speedlimit_first_window_witness :
  called_num (calls exact_fsub exact_isub [(1, 1); (2, 2); (3, 3)]%Q
                    two_per_minute).2 = 2%Z ∧
  (calls exact_fsub exact_isub [(1, 1); (2, 2); (3, 3)]%Q two_per_minute).1 !! 1 =
    Some (inr (Guarded TFunc)) ∧
  (calls exact_fsub exact_isub [(1, 1); (2, 2); (3, 3)]%Q two_per_minute).1 !! 2 =
    Some (inr (SleepRetry (inject_Z 60 - (3 - 0))%Q)).
Proof.
  destruct (UtilsCallFacts.speedlimit_first_window exact_fsub exact_isub 0 None 2 60
              two_per_minute [(1, 1); (2, 2); (3, 3)]%Q eq_refl)
    as (_ & Hn & Hs).
  - repeat (apply Forall_cons_2; [vm_compute; discriminate|]). apply Forall_nil_2.
  - split; [exact Hn|].
    split; [exact (Hs 1 _ eq_refl)|exact (Hs 2 _ eq_refl)].
Defined.

(** The clock gave 1/10 when the window began and gives 601/10 now; the
    machine rounds the difference to 60. *)
Lemma speedlimit_boundary_call_uncounted_witness :
  started (_wrapped_func floor_fsub exact_isub (601 # 10) (601 # 10)
             (mkSpeedlimit None 2 60 2 (1 # 10))).1 = inr (Guarded TFunc) ∧
  called_num (_wrapped_func floor_fsub exact_isub (601 # 10) (601 # 10)
                (mkSpeedlimit None 2 60 2 (1 # 10))).2 = 2%Z.
Proof.
  destruct (UtilsCallFacts.speedlimit_boundary_call_uncounted floor_fsub exact_isub
              (mkSpeedlimit None 2 60 2 (1 # 10)) (601 # 10) (601 # 10))
    as [Hr He].
  - intros p Hp. exists (inject_Z 60 - p)%Q. split; [reflexivity|].
    cbn [sl_duration] in Hp. rewrite Hp. apply Qplus_opp_r.
  - reflexivity.
  - vm_compute. discriminate.
  - vm_compute. reflexivity.
  - split; [exact Hr|]. rewrite He. reflexivity.
Defined.

Lemma singleton_builds_once_witness :
  ∃ errs,
    length errs = 1 ∧
    singleton_calls flaky_cls [[1]; [2]; [3]; [4]]%Z (mkSingleton None 0) =
      (map inl errs ++ [inr 1; inr 1; inr 1], mkSingleton (Some 1) 2).
Proof.
  apply (UtilsCallFacts.singleton_builds_once flaky_cls [[1]]%Z [2]%Z [[3]; [4]]%Z).
  - intros [|i] a H; [discriminate|discriminate H].
  - reflexivity.
Defined.

End MoreScenarioFacts.

(* ===================================================================== *)
(** ** Theorems: RWContext                                                *)
(* ===================================================================== *)

Module RWContextFacts.
Import RWContext.

Lemma count_cons p t tasks :
  count p (t :: tasks) = (if decide (t = p) then 1 else 0) + count p tasks.
Proof.
  unfold count. destruct (decide (t = p)) as [->|Hne].
  - by rewrite filter_cons_True.
  - by rewrite filter_cons_False.
Qed.

(** Moving one task from [t] to [t'] moves one unit of the counts. *)
Lemma count_insert p tasks : ∀ i t t',
  tasks !! i = Some t →
  count p (<[i := t']> tasks) + (if decide (t = p) then 1 else 0) =
    count p tasks + (if decide (t' = p) then 1 else 0).
Proof.
  induction tasks as [|t0 tasks IH]; intros i t t' Hi; [done|].
  destruct i as [|i].
  - injection Hi as ->. change (<[0:=t']> (t :: tasks)) with (t' :: tasks).
    rewrite !count_cons. repeat case_decide; lia.
  - change (<[S i:=t']> (t0 :: tasks)) with (t0 :: <[i:=t']> tasks).
    rewrite !count_cons. pose proof (IH i t t' Hi). repeat case_decide; lia.
Qed.

Lemma count_fresh p tasks :
  fresh tasks → p ≠ RStart → p ≠ WStart → count p tasks = 0.
Proof.
  intros Hf H1 H2. induction Hf as [|t tasks Ht _ IH]; [done|].
  rewrite count_cons, IH. destruct Ht as [-> | ->]; by rewrite decide_False.
Qed.

Lemma count_quiescent p tasks :
  quiescent tasks → p ≠ RStart → p ≠ RDone → p ≠ WStart → p ≠ WDone →
  count p tasks = 0.
Proof.
  intros Hq H1 H2 H3 H4. induction Hq as [|t tasks Ht _ IH]; [done|].
  rewrite count_cons, IH. destruct Ht as [-> | [-> | [-> | ->]]];
    by rewrite decide_False.
Qed.

Lemma init_consistent read_limit c tasks :
  init read_limit = inr c → fresh tasks →
  consistent (read_semaphore c) (c, tasks).
Proof.
  intros Hi Hf. unfold consistent. cbn [fst snd].
  rewrite !(count_fresh _ tasks Hf) by done.
  assert (Hc : write_semaphore c = 1 ∧ read_num c = 0%Z ∧ read_num_lock c = false).
  { unfold init in Hi. destruct read_limit as [n|]; [|by injection Hi as <-].
    destruct (n =? 0)%Z; [by injection Hi as <-|].
    destruct (n <? 0)%Z; [done|]. by injection Hi as <-. }
  destruct Hc as (-> & -> & ->). repeat split; try done.
  destruct (read_semaphore c) as [v|]; [|done]. exists v. split; [done|lia].
Qed.

(** Settles the tests [decide (t = p)] between two given points. *)
Ltac settle_counts :=
  repeat match goal with
    | H : context [decide (_ = _)] |- _ =>
        first [rewrite decide_True in H by done
              |rewrite decide_False in H by done]
    end.

Lemma schedule_consistent limit i s :
  consistent limit s → consistent limit (schedule i s).
Proof.
  destruct s as [c tasks]. unfold schedule. cbn [fst snd].
  destruct (tasks !! i) as [t|] eqn:Hi; [|done].
  destruct (step t c) as [[t' c']|] eqn:Hstep; [|done].
  intros (Hn & Hw & Hl & Hlk & Hr). unfold consistent. cbn [fst snd] in *.
  pose proof (count_insert RIn tasks i t t' Hi) as CI.
  pose proof (count_insert WIn tasks i t t' Hi) as CW.
  pose proof (count_insert RWaitWrite tasks i t t' Hi) as CL.
  pose proof (count_insert RHasPermit tasks i t t' Hi) as CP.
  destruct c as [ws rs rn lk]. cbn [write_semaphore read_semaphore read_num
                                     read_num_lock] in *.
  destruct t; cbn [step write_semaphore read_semaphore read_num read_num_lock]
    in Hstep.
  - (* RStart *)
    destruct rs as [[|v]|]; [done| |]; injection Hstep as <- <-; settle_counts;
      cbn [write_semaphore read_semaphore read_num read_num_lock];
      replace (count RIn (<[i:=RHasPermit]> tasks)) with (count RIn tasks) by lia;
      replace (count WIn (<[i:=RHasPermit]> tasks)) with (count WIn tasks) by lia;
      (split; [done|]); (split; [done|]); (split; [lia|]); (split; [done|]).
    + destruct limit as [n|]; [|done]. destruct Hr as (v0 & [= <-] & Hr).
      exists v. split; [done|]. lia.
    + destruct limit as [n|]; [|done]. by destruct Hr as (v0 & [=] & _).
  - (* RHasPermit *)
    destruct lk; [done|]. destruct (Z.eqb_spec rn 0) as [Hz|Hnz].
    + assert (HI0 : count RIn tasks = 0) by lia. rewrite HI0 in Hw.
      destruct ws as [|v]; injection Hstep as <- <-; settle_counts;
        cbn [write_semaphore read_semaphore read_num read_num_lock].
      * replace (count RIn (<[i:=RWaitWrite]> tasks)) with 0 by lia.
        replace (count WIn (<[i:=RWaitWrite]> tasks)) with (count WIn tasks) by lia.
        split; [lia|]. split; [done|]. split; [lia|]. split; [done|].
        destruct limit as [n|]; [|done]. destruct Hr as (v0 & -> & Hr).
        exists v0. split; [done|]. lia.
      * replace (count RIn (<[i:=RIn]> tasks)) with 1 by lia.
        replace (count WIn (<[i:=RIn]> tasks)) with (count WIn tasks) by lia.
        split; [lia|]. split; [lia|]. split; [lia|]. split; [done|].
        destruct limit as [n|]; [|done]. destruct Hr as (v0 & -> & Hr).
        exists v0. split; [done|]. lia.
    + assert (HI0 : count RIn tasks ≠ 0) by lia.
      injection Hstep as <- <-. settle_counts.
      cbn [write_semaphore read_semaphore read_num read_num_lock].
      replace (count WIn (<[i:=RIn]> tasks)) with (count WIn tasks) by lia.
      replace (count RIn (<[i:=RIn]> tasks)) with (S (count RIn tasks)) by lia.
      split; [lia|]. split; [destruct (count RIn tasks); [done|lia]|].
      split; [lia|]. split; [done|].
      destruct limit as [n|]; [|done]. destruct Hr as (v0 & -> & Hr).
      exists v0. split; [done|]. lia.
  - (* RWaitWrite *)
    destruct ws as [|v]; [done|]. injection Hstep as <- <-. settle_counts.
    assert (Hlk1 : lk = true) by (destruct lk; [done|lia]). subst lk.
    specialize (Hlk eq_refl). rewrite Hlk in Hw.
    cbn [write_semaphore read_semaphore read_num read_num_lock].
    replace (count RIn (<[i:=RIn]> tasks)) with 1 by lia.
    replace (count WIn (<[i:=RIn]> tasks)) with (count WIn tasks) by lia.
    split; [lia|]. split; [lia|]. split; [lia|]. split; [done|].
    destruct limit as [n|]; [|done]. destruct Hr as (v0 & -> & Hr).
    exists v0. split; [done|]. lia.
  - (* RIn *)
    destruct lk; [done|]. injection Hstep as <- <-. settle_counts.
    cbn [write_semaphore read_semaphore read_num read_num_lock].
    replace (count WIn (<[i:=RDone]> tasks)) with (count WIn tasks) by lia.
    split; [lia|]. split.
    { destruct (Z.eqb_spec (rn - 1) 0) as [Hz|Hnz].
      - replace (count RIn (<[i:=RDone]> tasks)) with 0 by lia.
        destruct (count RIn tasks); lia.
      - destruct (count RIn (<[i:=RDone]> tasks)) eqn:E; [lia|].
        destruct (count RIn tasks); lia. }
    split; [lia|]. split; [done|].
    destruct limit as [n|].
    + destruct Hr as (v0 & -> & Hr). exists (S v0). split; [done|]. lia.
    + by rewrite Hr.
  - (* RDone *) done.
  - (* WStart *)
    destruct ws as [|v]; [done|]. injection Hstep as <- <-. settle_counts.
    cbn [write_semaphore read_semaphore read_num read_num_lock].
    replace (count RIn (<[i:=WIn]> tasks)) with (count RIn tasks) by lia.
    split; [lia|]. split; [lia|]. split; [lia|]. split; [done|].
    destruct limit as [n|]; [|done]. destruct Hr as (v0 & -> & Hr).
    exists v0. split; [done|]. lia.
  - (* WIn *)
    injection Hstep as <- <-. settle_counts.
    cbn [write_semaphore read_semaphore read_num read_num_lock].
    replace (count RIn (<[i:=WDone]> tasks)) with (count RIn tasks) by lia.
    split; [lia|]. split; [lia|]. split; [lia|]. split; [done|].
    destruct limit as [n|]; [|done]. destruct Hr as (v0 & -> & Hr).
    exists v0. split; [done|]. lia.
  - (* WDone *) done.
Qed.

Lemma run_consistent limit (sched : list nat) : ∀ s,
  consistent limit s → consistent limit (run sched s).
Proof.
  induction sched as [|i sched IH]; intros s Hs; [done|].
  unfold run. cbn [foldl]. apply IH. by apply schedule_consistent.
Qed.

(** X22. Readers and writers exclude each other. Whatever the order in
    which the event loop runs the tasks that use one [RWContext] (none
    of them being cancelled), at every point at most one task is inside
    [write()], no task is inside [read()] while one is inside [write()],
    and with a read limit [n] at most [n] tasks are inside [read()]. *)
Theorem readers_writers_exclusion read_limit c tasks (sched : list nat) :
  init read_limit = inr c →
  fresh tasks →
  count WIn (run sched (c, tasks)).2 ≤ 1 ∧
  (count WIn (run sched (c, tasks)).2 = 1 → count RIn (run sched (c, tasks)).2 = 0) ∧
  (∀ n, read_semaphore c = Some n → count RIn (run sched (c, tasks)).2 ≤ n).
Proof.
  intros Hi Hf.
  pose proof (run_consistent _ sched _ (init_consistent read_limit c tasks Hi Hf))
    as (Hn & Hw & Hl & Hlk & Hr).
  destruct (run sched (c, tasks)) as [c' tasks']. cbn [fst snd] in *.
  split; [lia|]. split.
  - intros H1. destruct (count RIn tasks'); [done|lia].
  - intros n Hs. rewrite Hs in Hr. destruct Hr as (v & _ & Hr). lia.
Qed.

(** X23. Nothing is left held. When, after any run, no task is inside
    [read()] or [write()] or on its way in, the context is as it was
    built: the write semaphore and all read permits are free, [read_num]
    is 0 and [read_num_lock] is not held. *)
Theorem quiescent_context_restored read_limit c tasks (sched : list nat) :
  init read_limit = inr c →
  fresh tasks →
  quiescent (run sched (c, tasks)).2 →
  (run sched (c, tasks)).1 = c.
Proof.
  intros Hi Hf Hq.
  pose proof (run_consistent _ sched _ (init_consistent read_limit c tasks Hi Hf))
    as (Hn & Hw & Hl & Hlk & Hr).
  destruct (run sched (c, tasks)) as [c' tasks']. cbn [fst snd] in *.
  rewrite !(count_quiescent _ tasks' Hq) in * by done.
  assert (Hc : write_semaphore c = 1 ∧ read_num c = 0%Z ∧ read_num_lock c = false).
  { unfold init in Hi. destruct read_limit as [n|]; [|by injection Hi as <-].
    destruct (n =? 0)%Z; [by injection Hi as <-|].
    destruct (n <? 0)%Z; [done|]. by injection Hi as <-. }
  destruct Hc as (Hc1 & Hc2 & Hc3).
  destruct c as [ws rs rn lk], c' as [ws' rs' rn' lk']. cbn in *. subst.
  assert (lk' = false) as -> by (destruct lk'; [lia|done]).
  assert (ws' = 1) as -> by lia.
  assert (rs' = rs) as ->; [|done].
  destruct rs as [n|]; [|done]. destruct Hr as (v & -> & Hr). f_equal. lia.
Qed.

Lemma count_replicate p k : count p (replicate k p) = k.
Proof.
  induction k as [|k IH]; [done|].
  cbn [replicate]. rewrite count_cons, decide_True by done. by rewrite IH.
Qed.

Lemma readers_state_step d k :
  schedule d (schedule d (readers_state d (S k))) = readers_state (S d) k.
Proof.
  unfold readers_state.
  assert (Hlen : length (replicate d RIn) = d) by apply length_replicate.
  unfold schedule at 2. cbn [fst snd].
  rewrite lookup_app_r by lia. rewrite Hlen, Nat.sub_diag. cbn [replicate lookup
    list_lookup step read_semaphore].
  unfold schedule. cbn [fst snd].
  rewrite list_lookup_insert_eq by (rewrite length_app, Hlen; simpl; lia).
  cbn [step read_num_lock read_num write_semaphore read_semaphore].
  assert (Htasks : <[d:=RIn]> (<[d:=RHasPermit]>
                     (replicate d RIn ++ RStart :: replicate k RStart)) =
                   replicate (S d) RIn ++ replicate k RStart).
  { rewrite list_insert_insert_eq.
    rewrite insert_app_r_alt by lia. rewrite Hlen, Nat.sub_diag.
    cbn [insert list_insert].
    rewrite replicate_S_end. by rewrite <- app_assoc. }
  destruct (Z.eqb_spec (Z.of_nat d) 0) as [Hz|Hnz].
  - assert (d = 0) as -> by lia. cbn match. rewrite Htasks. done.
  - rewrite Htasks. destruct d as [|d]; [done|]. do 2 f_equal. lia.
Qed.

Lemma readers_all_in k : ∀ d,
  run (readers_schedule d k) (readers_state d k) = readers_state (d + k) 0.
Proof.
  induction k as [|k IH]; intros d.
  - by rewrite Nat.add_0_r.
  - cbn [readers_schedule].
    change (run (d :: d :: readers_schedule (S d) k) (readers_state d (S k)))
      with (run (readers_schedule (S d) k)
                (schedule d (schedule d (readers_state d (S k))))).
    rewrite readers_state_step, IH. by replace (S d + k) with (d + S k) by lia.
Qed.

(** X24. [read_limit=0] does not forbid reading: 0 is falsy, so the
    context is built without a read semaphore, as with [read_limit=None],
    and any number of tasks can be inside [read()] together: [k] tasks
    that each enter [read()] in turn are all inside at the end. *)
Theorem zero_read_limit_is_no_limit (k : nat) :
  ∃ c,
    init (Some 0%Z) = inr c ∧
    read_semaphore c = None ∧
    count RIn (run (readers_schedule 0 k) (c, replicate k RStart)).2 = k.
Proof.
  exists (mkRW 1 None 0 false). split; [done|]. split; [done|].
  change (mkRW 1 None 0 false, replicate k RStart) with (readers_state 0 k).
  rewrite readers_all_in. unfold readers_state. cbn [snd replicate].
  rewrite app_nil_r. apply count_replicate.
Qed.

End RWContextFacts.

(* ===================================================================== *)
(** ** Theorems: plugin/ipc.py                                            *)
(* ===================================================================== *)

Module IpcFacts.
Import Ipc.

Lemma bind_step_keeps self b :
  name (bind_step self b) = name self ∧
  _static (bind_step self b) = _static self ∧
  (∀ f, reflect self = Some f → reflect (bind_step self b) = Some f) ∧
  (∀ f, callback self = Some f → callback (bind_step self b) = Some f) ∧
  (_static self = true → callback self = None →
   callback (bind_step self b) = None).
Proof.
  unfold bind_step. destruct b as [g|g].
  - unfold Share_call. case_bool_decide as Hr; [done|].
    cbn [name _static reflect callback]. repeat split; try done.
    intros f Hf. by rewrite Hr in Hf.
  - unfold Share_setter. destruct (_static self) eqn:Hs; [done|].
    case_bool_decide as Hc; [done|].
    cbn [name _static reflect callback]. repeat split; try done.
    intros f Hf. by rewrite Hc in Hf.
Qed.

(** X25. The bindings of a share are final. Over any sequence of uses of
    its two decorators, a reflector or a callback that is bound stays the
    one it is; and a share built as static never has a callback, so that
    [set] on it raises [BotIpcError] at every point of its life. *)
Theorem share_bindings_final nm reflector callabck static self (bs : list Binding) :
  Share_init nm reflector callabck static = inr self →
  (∀ f, reflect self = Some f → reflect (bind_all self bs) = Some f) ∧
  (∀ f, callback self = Some f → callback (bind_all self bs) = Some f) ∧
  (static = true → Share_set (bind_all self bs) = inl NoCallback) ∧
  name (bind_all self bs) = nm.
Proof.
  intros Hinit.
  assert (Hself : name self = nm ∧ _static self = static ∧
                  (static = true → callback self = None)).
  { unfold Share_init in Hinit. destruct (startswith "_" nm); [done|].
    destruct static.
    - case_bool_decide as Hc; [done|]. injection Hinit as <-.
      repeat split. intros _. exact Hc.
    - injection Hinit as <-. done. }
  clear Hinit. destruct Hself as (Hn & Hs & Hc).
  revert self Hn Hs Hc. induction bs as [|b bs IH]; intros self Hn Hs Hc.
  - cbn [bind_all foldl]. repeat split; [done|done| |done].
    intros Hst. unfold Share_set. by rewrite (Hc Hst).
  - change (bind_all self (b :: bs)) with (bind_all (bind_step self b) bs).
    destruct (bind_step_keeps self b) as (Kn & Ks & Kr & Kc & Kst).
    destruct (IH (bind_step self b)) as (IHr & IHc & IHs & IHn).
    { by rewrite Kn. } { by rewrite Ks. }
    { intros Hst. apply Kst; [by rewrite Hs|by apply Hc]. }
    repeat split; [|  |done|done].
    + intros f Hf. by apply IHr, Kr.
    + intros f Hf. by apply IHc, Kc.
Qed.

Lemma add_ok plugin obj m m' :
  add plugin obj m = (None, m') →
  get plugin (name_of m obj) m' = inr obj ∧
  heap m' = heap m ∧
  (∀ p id o, get p id m = inr o → get p id m' = inr o) ∧
  (∀ p id o, get p id m' = inr o →
             (p = plugin ∧ id = name_of m obj ∧ o = obj) ∨ get p id m = inr o).
Proof.
  unfold add, get.
  destruct (_shares m !! plugin) as [objs|] eqn:Hp.
  - destruct (objs !! name_of m obj) as [o0|] eqn:Hn; [done|].
    intros [= <-]. cbn [_shares heap]. rewrite lookup_insert_eq, lookup_insert_eq.
    split; [done|]. split; [done|]. split.
    + intros p id o. destruct (decide (p = plugin)) as [->|Hne].
      * rewrite lookup_insert_eq, Hp.
        destruct (decide (id = name_of m obj)) as [->|Hid].
        -- by rewrite Hn.
        -- by rewrite lookup_insert_ne.
      * by rewrite lookup_insert_ne.
    + intros p id o. destruct (decide (p = plugin)) as [->|Hne].
      * rewrite lookup_insert_eq, Hp.
        destruct (decide (id = name_of m obj)) as [->|Hid].
        -- rewrite lookup_insert_eq. intros [= <-]. by left.
        -- rewrite lookup_insert_ne by done. by right.
      * rewrite lookup_insert_ne by done. by right.
  - rewrite lookup_empty. intros [= <-]. cbn [_shares heap].
    rewrite lookup_insert_eq, lookup_insert_eq.
    split; [done|]. split; [done|]. split.
    + intros p id o. destruct (decide (p = plugin)) as [->|Hne].
      * by rewrite Hp.
      * by rewrite !lookup_insert_ne by done.
    + intros p id o. destruct (decide (p = plugin)) as [->|Hne].
      * rewrite lookup_insert_eq.
        destruct (decide (id = name_of m obj)) as [->|Hid].
        -- rewrite lookup_insert_eq. intros [= <-]. by left.
        -- by rewrite lookup_insert_ne, lookup_empty.
      * rewrite !lookup_insert_ne by done. by right.
Qed.

(** X26. A share that [IPCManager.add] has accepted is found again under
    its plugin and its name, and the lookups that succeeded before give
    what they gave; nothing else is found that was not there. A second
    share of the same name in the same plugin is refused with
    [BotIpcError], and the manager is then as it was. *)
Theorem add_then_get plugin obj m m' :
  add plugin obj m = (None, m') →
  get plugin (name_of m obj) m' = inr obj ∧
  (∀ p id o, get p id m = inr o → get p id m' = inr o) ∧
  (∀ p id o, get p id m' = inr o →
             (p = plugin ∧ id = name_of m obj ∧ o = obj) ∨ get p id m = inr o) ∧
  (∀ obj', name_of m' obj' = name_of m obj →
           add plugin obj' m' =
             (Some (DuplicateShare plugin (name_of m obj)), m')).
Proof.
  intros Hadd. destruct (add_ok plugin obj m m' Hadd) as (Hg & Hh & Hold & Hnew).
  split; [done|]. split; [done|]. split; [done|].
  intros obj' Hname. unfold get in Hg. unfold add. rewrite Hname.
  destruct (_shares m' !! plugin) as [objs|] eqn:Hp; [|done].
  destruct (objs !! name_of m obj) as [o|] eqn:Hn; [|done].
  by destruct m'.
Qed.

Lemma add_no_empty plugin obj m :
  no_empty_plugin m → no_empty_plugin (add plugin obj m).2.
Proof.
  intros Hinv. unfold add.
  destruct (_shares m !! plugin) as [objs|] eqn:Hp.
  - destruct (objs !! name_of m obj) as [o0|] eqn:Hn; cbn [snd _shares]; [done|].
    intros p objs'. cbn [_shares]. destruct (decide (p = plugin)) as [->|Hne].
    + rewrite lookup_insert_eq. intros [= <-]. apply insert_non_empty.
    + rewrite lookup_insert_ne by done. apply Hinv.
  - rewrite lookup_empty. cbn [snd _shares].
    intros p objs'. cbn [_shares]. destruct (decide (p = plugin)) as [->|Hne].
    + rewrite lookup_insert_eq. intros [= <-]. apply insert_non_empty.
    + rewrite !lookup_insert_ne by done. apply Hinv.
Qed.

Lemma apply_op_no_empty m o :
  no_empty_plugin m → no_empty_plugin (apply_op m o).
Proof.
  intros Hinv. destruct o as [plugin obj|plugin fn r]; cbn [apply_op].
  - by apply add_no_empty.
  - unfold add_func. destruct (Share_init fn (Some r) None true) as [e|s]; [done|].
    by apply (add_no_empty plugin _ (mkIPC (heap m ++ [s]) (_shares m))).
Qed.

(** X27. [IPCManager.get] tells a plugin that shares nothing from a share
    that is missing: after any sequence of [add] and [add_func] calls on
    a new manager, successful or refused, no plugin is left with an empty
    table, so [get] answers "the plugin provides no sharing" exactly for
    the plugins no share was ever added for, and for every other plugin
    some identifier is found. *)
Theorem get_missing_plugin (ops : list Op) plugin :
  let m := foldl apply_op (mkIPC [] ∅) ops in
  (_shares m !! plugin = None ↔ ∀ id, get plugin id m = inl (NoSuchPlugin plugin)) ∧
  (_shares m !! plugin ≠ None → ∃ id obj, get plugin id m = inr obj).
Proof.
  intros m.
  assert (Hrun : ∀ m0, no_empty_plugin m0 → no_empty_plugin (foldl apply_op m0 ops)).
  { clear m. induction ops as [|o ops IH]; intros m0 H0; [done|].
    cbn [foldl]. by apply IH, apply_op_no_empty. }
  assert (Hinv : no_empty_plugin m).
  { apply Hrun. intros p objs Hp. cbn [_shares] in Hp. by rewrite lookup_empty in Hp. }
  split; [split|].
  - intros Hn id. unfold get. by rewrite Hn.
  - intros Hall. specialize (Hall ""). unfold get in Hall.
    destruct (_shares m !! plugin) as [objs|]; [|done].
    by destruct (objs !! "").
  - intros Hsome. unfold get.
    destruct (_shares m !! plugin) as [objs|] eqn:Hp; [|done].
    destruct (map_choose objs (Hinv plugin objs Hp)) as (id & obj & Hid).
    exists id, obj. by rewrite Hid.
Qed.

(** X28. [add_func] shares a function as a static value. A function whose
    name starts with an underscore is refused and the manager stays as it
    is. Any other function that is accepted is found under its name as a
    share whose [get] calls the reflector that returns the function, on
    which [setter] is refused and whose [set] raises. *)
Theorem add_func_shares_static plugin fn reflector m :
  (startswith "_" fn = true →
   add_func plugin fn reflector m = (Some PrivateName, m)) ∧
  (∀ m', add_func plugin fn reflector m = (None, m') →
         ∃ obj s,
           get plugin fn m' = inr obj ∧
           heap m' !! obj = Some s ∧
           heap m ++ [s] = heap m' ∧
           Share_get s = inr reflector ∧
           Share_set s = inl NoCallback ∧
           ∀ f, Share_setter f s = inl StaticSetter).
Proof.
  unfold add_func, Share_init. split.
  - by intros ->.
  - intros m'. destruct (startswith "_" fn); [done|]. cbn [andb bool_decide].
    rewrite bool_decide_eq_false_2 by (by intros H; apply H).
    set (s := mkShare fn (Some reflector) None true).
    set (m1 := mkIPC (heap m ++ [s]) (_shares m)).
    intros Hadd. destruct (add_ok plugin (length (heap m)) m1 m' Hadd)
      as (Hg & Hh & _).
    assert (Hs : heap m1 !! length (heap m) = Some s).
    { unfold m1. cbn [heap]. rewrite lookup_app_r by lia.
      by rewrite Nat.sub_diag. }
    assert (Hname : name_of m1 (length (heap m)) = fn).
    { unfold name_of. by rewrite Hs. }
    rewrite Hname in Hg.
    exists (length (heap m)), s. split; [done|]. rewrite Hh.
    split; [done|]. split; [done|]. done.
Qed.

End IpcFacts.

(* ===================================================================== *)
(** ** Theorems: BotSessionManager                                        *)
(* ===================================================================== *)

Module BotSessionFacts.
Import BotSessions.

Section WithEvents.

Context {EventT : Type}.
Variable verify : nat → option EventT → EventT → bool.

Abbreviation Manager := (@Manager EventT).
Abbreviation __attach := (__attach verify).
Abbreviation attachable := (attachable verify).

Lemma set_add_fresh (s : nat) (l : list nat) : s ∉ l → set_add s l = l ++ [s].
Proof. intros H. unfold set_add. by rewrite bool_decide_eq_false_2. Qed.

Lemma filter_out_fresh (s : nat) (l : list nat) :
  s ∉ l → filter (λ y, y ≠ s) l = l.
Proof.
  induction l as [|y l IH]; intros H; [done|].
  apply not_elem_of_cons in H as [Hne Hl].
  rewrite filter_cons_True by done. by rewrite IH.
Qed.

Lemma set_remove_last (s : nat) (l : list nat) :
  s ∉ l → set_remove s (l ++ [s]) = Some l.
Proof.
  intros H. unfold set_remove.
  rewrite bool_decide_eq_true_2 by (apply elem_of_app; right; by left).
  rewrite filter_app, filter_out_fresh by done.
  rewrite filter_cons_False by (by intros Hn; apply Hn). by rewrite app_nil_r.
Qed.

Lemma head_filter_last (P : nat → Prop) `{∀ y, Decision (P y)} l s :
  (∀ y, y ∈ l → ¬ P y) → P s → head (filter P (l ++ [s])) = Some s.
Proof.
  intros Hno Hs. rewrite filter_app.
  assert (Hnil : filter P l = []).
  { clear Hs. induction l as [|y l IH]; [done|].
    rewrite filter_cons_False by (apply Hno; by left).
    apply IH. intros z Hz. apply Hno. by right. }
  rewrite Hnil. by rewrite filter_cons_True.
Qed.

(** X29. The life of a session leaves the storages as they were. On a
    registered handler with a rule, [_make] puts the new session into
    [STORAGE]; [_hup] moves it to [HUP_STORAGE] and clears its awake
    signal; [__attach] with an event the rule matches with its last one,
    when no other hung-up session matches, appends the event, moves it
    back and sets the signal, returning [True]; and [recycle] without
    [alive] marks it expired, empties it and takes it out: [STORAGE] and
    [HUP_STORAGE] are then exactly what they were before [_make]. *)
Theorem session_life_leaves_no_trace (m : Manager) h l hl ev ev2 (now : Q) :
  STORAGE m !! h = Some l →
  HUP_STORAGE m !! h = Some hl →
  (∀ s', s' ∈ l → s' < length (sessions m)) →
  (∀ s', s' ∈ hl → s' < length (sessions m)) →
  verify h (Some ev) ev2 = true →
  (∀ s', s' ∈ hl → attachable h ev2 m s' = false) →
  ∃ m1 m2 m3 m4,
    let s := length (sessions m) in
    _make ev (Some h) true m = (inr s, m1) ∧
    _hup now s m1 = (None, m2) ∧
    STORAGE m2 !! h = Some l ∧ HUP_STORAGE m2 !! h = Some (hl ++ [s]) ∧
    __attach ev2 h m2 = (inr true, m3) ∧
    sessions m3 = sessions m ++ [mkBotSession [] [now] [ev; ev2] true true false (Some h)] ∧
    STORAGE m3 !! h = Some (l ++ [s]) ∧ HUP_STORAGE m3 !! h = Some hl ∧
    recycle s false m3 = (None, m4) ∧
    sessions m4 = sessions m ++ [mkBotSession [] [] [] true true true (Some h)] ∧
    STORAGE m4 = STORAGE m ∧ HUP_STORAGE m4 = HUP_STORAGE m.
Proof.
  intros Hl Hhl Hlb Hhlb Hver Hno.
  set (s := length (sessions m)).
  assert (Hsl : s ∉ l) by (intros Hin; specialize (Hlb _ Hin); unfold s in *; lia).
  assert (Hshl : s ∉ hl) by (intros Hin; specialize (Hhlb _ Hin); unfold s in *; lia).
  (* _make *)
  set (x0 := mkBotSession [] [] [ev] true true false (Some h)).
  set (m1 := mkManager (sessions m ++ [x0]) (<[h := l ++ [s]]> (STORAGE m))
                       (HUP_STORAGE m)).
  assert (E1 : _make ev (Some h) true m = (inr s, m1)).
  { unfold _make, storage_add. cbn [STORAGE sessions HUP_STORAGE]. rewrite Hl.
    by rewrite set_add_fresh. }
  assert (Hx0 : ∀ ss, (sessions m ++ ss) !! s = ss !! 0).
  { intros ss. rewrite lookup_app_r by (unfold s; lia).
    by replace (s - length (sessions m)) with 0 by (unfold s; lia). }
  assert (Hins : ∀ (y y' : BotSession), <[s := y']> (sessions m ++ [y]) = sessions m ++ [y']).
  { intros y y'. rewrite insert_app_r_alt by (unfold s; lia).
    by replace (s - length (sessions m)) with 0 by (unfold s; lia). }
  (* _hup *)
  set (x2 := mkBotSession [] [now] [ev] true false false (Some h)).
  set (m2 := mkManager (sessions m ++ [x2]) (<[h := l]> (<[h := l ++ [s]]> (STORAGE m)))
                       (<[h := hl ++ [s]]> (HUP_STORAGE m))).
  assert (E2 : _hup now s m1 = (None, m2)).
  { unfold _hup. unfold m1 at 1. cbn [sessions]. rewrite Hx0. cbn [lookup list_lookup].
    unfold x0 at 1 2. cbn [_space_tag _expired].
    unfold storage_remove, set_session, m1. cbn [STORAGE sessions HUP_STORAGE].
    rewrite lookup_insert_eq, set_remove_last by done.
    unfold hup_storage_add. cbn [STORAGE sessions HUP_STORAGE]. rewrite Hhl.
    rewrite set_add_fresh by done. cbn [STORAGE sessions HUP_STORAGE].
    unfold x0. cbn [store hup_times events _free_signal _awake_signal _expired
                    _space_tag app].
    by rewrite !Hins. }
  (* __attach *)
  set (x3 := mkBotSession [] [now] [ev; ev2] true true false (Some h)).
  set (m3 := mkManager (sessions m ++ [x3])
                       (<[h := l ++ [s]]> (<[h := l]> (<[h := l ++ [s]]> (STORAGE m))))
                       (<[h := hl]> (<[h := hl ++ [s]]> (HUP_STORAGE m)))).
  assert (E3 : __attach ev2 h m2 = (inr true, m3)).
  { unfold BotSessions.__attach. unfold m2 at 1. cbn [HUP_STORAGE].
    rewrite lookup_insert_eq.
    rewrite (head_filter_last (λ y, BotSessions.attachable verify h ev2 m2 y = true) hl s).
    2:{ intros y Hy. specialize (Hno y Hy). specialize (Hhlb y Hy).
        unfold BotSessions.attachable in *. unfold m2. cbn [sessions].
        rewrite lookup_app_l by done. by rewrite Hno. }
    2:{ unfold BotSessions.attachable, m2. cbn [sessions]. rewrite Hx0.
        cbn [lookup list_lookup]. exact Hver. }
    unfold m2 at 1. cbn [sessions]. rewrite Hx0. cbn [lookup list_lookup].
    unfold _rouse, set_session, m2. cbn [sessions STORAGE HUP_STORAGE].
    rewrite Hins, Hx0. cbn [lookup list_lookup].
    unfold x2. cbn [store hup_times events _free_signal _awake_signal _expired
                    _space_tag app].
    unfold hup_storage_remove. cbn [sessions STORAGE HUP_STORAGE].
    rewrite lookup_insert_eq, set_remove_last by done.
    unfold storage_add. cbn [sessions STORAGE HUP_STORAGE].
    rewrite lookup_insert_eq, set_add_fresh by done.
    cbn [sessions STORAGE HUP_STORAGE]. by rewrite Hins. }
  (* recycle *)
  set (x4 := mkBotSession [] [] [] true true true (Some h)).
  set (m4 := mkManager (sessions m ++ [x4])
                       (<[h := l]> (STORAGE m3)) (HUP_STORAGE m3)).
  assert (E4 : recycle s false m3 = (None, m4)).
  { unfold recycle. unfold m3 at 1. cbn [sessions]. rewrite Hx0.
    cbn [lookup list_lookup].
    unfold _expire, set_session, m3. cbn [sessions STORAGE HUP_STORAGE].
    rewrite Hins, Hx0. cbn [lookup list_lookup].
    unfold x3. cbn [store hup_times events _free_signal _awake_signal _expired
                    _space_tag].
    unfold storage_remove. cbn [sessions STORAGE HUP_STORAGE].
    rewrite lookup_insert_eq, set_remove_last by done.
    cbn [sessions STORAGE HUP_STORAGE]. by rewrite Hins. }
  exists m1, m2, m3, m4. cbn zeta. fold s.
  split; [done|]. split; [done|].
  split; [unfold m2; cbn [STORAGE]; by rewrite lookup_insert_eq|].
  split; [unfold m2; cbn [HUP_STORAGE]; by rewrite lookup_insert_eq|].
  split; [done|]. split; [done|].
  split; [unfold m3; cbn [STORAGE]; by rewrite lookup_insert_eq|].
  split; [unfold m3; cbn [HUP_STORAGE]; by rewrite lookup_insert_eq|].
  split; [done|]. split; [done|].
  unfold m4, m3. cbn [STORAGE HUP_STORAGE]. split.
  - rewrite !insert_insert_eq. by apply insert_id.
  - rewrite !insert_insert_eq. by apply insert_id.
Qed.

End WithEvents.

End BotSessionFacts.

(* ===================================================================== *)
(** ** Theorems: _init_auto_deps                                          *)
(* ===================================================================== *)

Module AutoDepsFacts.
Import DI AutoDeps.

Section WithTyping.

Variable is_subhint : @Hint PyType → @Hint PyType → bool.
Variables LoggerT StoreT RuleOrNoneT BotT AdapterT EventT : @Hint PyType.

Abbreviation AutoDepends_init :=
  (AutoDepends_init is_subhint LoggerT StoreT RuleOrNoneT BotT AdapterT EventT).
Abbreviation visit :=
  (visit is_subhint LoggerT StoreT RuleOrNoneT BotT AdapterT EventT).
Abbreviation visit_all :=
  (visit_all is_subhint LoggerT StoreT RuleOrNoneT BotT AdapterT EventT).
Abbreviation _init_auto_deps :=
  (_init_auto_deps is_subhint LoggerT StoreT RuleOrNoneT BotT AdapterT EventT).

(** [AutoDepends.__init__] raises nothing but [DependInitError]. *)
Lemma AutoDepends_init_error id func nm hint e :
  AutoDepends_init id func nm hint = inl e → e = DependInitError.
Proof.
  unfold DI.AutoDepends_init.
  destruct hint as [t|t [|m [|m' ms]]]; try (by intros [= <-]);
    repeat (match goal with |- context [if ?b then _ else _] => destruct b end;
            try done); by intros [= <-].
Qed.

(** With [allow_pass_arg], a parameter without default either gets an
    [AutoDepends] or is passed over. *)
Lemma visit_undefaulted func st p :
  p_kind p ≠ VAR_POSITIONAL → p_kind p ≠ VAR_KEYWORD → p_default p = None →
  visit func true st p = inr st ∨
  ∃ dep,
    visit func true st p =
      inr (if bool_decide (p_kind p = KEYWORD_ONLY)
           then mkLoop (ds st) (<[p_name p := Injects dep]> (kwds st)) (vals st)
                       (S (next_id st))
           else mkLoop (ds st) (kwds st) (vals st ++ [Injects dep])
                       (S (next_id st))).
Proof.
  intros Hv1 Hv2 Hd. unfold AutoDeps.visit. rewrite Hd.
  destruct (p_annotation p) as [hint|]; [|by left; destruct (p_kind p)].
  destruct (AutoDepends_init (next_id st) func (p_name p) hint) as [e|dep] eqn:Hi.
  - rewrite (AutoDepends_init_error _ _ _ _ _ Hi). left. by destruct (p_kind p).
  - right. exists dep. by destruct (p_kind p).
Qed.

Lemma visit_all_app func st ps qs :
  visit_all func true st (ps ++ qs) =
    match visit_all func true st ps with
    | (None, st') => visit_all func true st' qs
    | r => r
    end.
Proof.
  revert st. induction ps as [|p ps IH]; intros st; [done|].
  cbn [app AutoDeps.visit_all]. by destruct (visit func true st p).
Qed.

(** The loop over the positional parameters: it takes the defaults off
    the deque one by one, after the [AutoDepends] it has built. *)
Lemma visit_all_positional func ann names : ∀ pl n ds0 st,
  (∀ name, name ∈ names → kwds st !! name = None) →
  length names = n + length ds0 →
  length ds0 ≤ ds st →
  ∃ inj next',
    visit_all func true st (positional_params ann names pl n ds0) =
      (None, mkLoop (ds st - length ds0) (kwds st) (vals st ++ inj ++ ds0) next') ∧
    length inj ≤ n ∧ Forall is_AutoDepends inj.
Proof.
  induction names as [|name names IH]; intros pl n ds0 st Hkw Hlen Hds.
  - destruct n; [|done]. destruct ds0; [|done]. exists [], (next_id st).
    split; [|by split]. cbn [AutoDeps.visit_all positional_params length app].
    rewrite Nat.sub_0_r, app_nil_r. by destruct st.
  - assert (Hkw' : ∀ st1, kwds st1 = kwds st →
                     ∀ nm, nm ∈ names → kwds st1 !! nm = None).
    { intros st1 -> nm Hnm. apply Hkw. by right. }
    cbn [positional_params]. destruct n as [|n].
    + destruct ds0 as [|d ds0]; [done|]. cbn [head tail length] in *.
      cbn [AutoDeps.visit_all]. unfold AutoDeps.visit at 1.
      cbn [p_kind p_default p_name]. rewrite (Hkw name) by left.
      rewrite bool_decide_eq_false_2 by (by intros [? ?]).
      destruct (ds st) as [|m] eqn:Hm; [lia|].
      set (st1 := mkLoop m (kwds st) (vals st ++ [d]) (next_id st)).
      destruct (IH (pred pl) 0 ds0 st1) as (inj & next' & Hrun & Hinj & _);
        [by apply Hkw'|lia|unfold st1; cbn [ds]; lia|].
      destruct inj; [|cbn [length] in Hinj; lia].
      exists [], next'. split; [|by split].
      assert (Hstep : ∀ k : ParamKind,
                k = POSITIONAL_OR_KEYWORD ∨ k = POSITIONAL_ONLY →
                match k with
                | VAR_POSITIONAL | VAR_KEYWORD => inr st
                | _ => inr st1
                end = (inr st1 : InitExn + Loop)) by (by intros k [->| ->]).
      rewrite Hstep by (destruct pl; auto). rewrite Hrun. unfold st1.
      cbn [ds kwds vals app]. by rewrite <- app_assoc.
    + cbn [length] in Hlen. set (p := mkParam name _ None (ann !! name)).
      destruct (visit_undefaulted func st p) as [Hv|[dep Hv]];
        [by destruct pl|by destruct pl|done|..];
        cbn [AutoDeps.visit_all]; rewrite Hv.
      * destruct (IH (pred pl) n ds0 st) as (inj & next' & Hrun & Hinj & Hall);
          [by apply Hkw'|lia|done|].
        exists inj, next'. split; [done|]. split; [lia|done].
      * rewrite bool_decide_eq_false_2 by (by destruct pl).
        set (st1 := mkLoop _ _ _ _).
        destruct (IH (pred pl) n ds0 st1) as (inj & next' & Hrun & Hinj & Hall);
          [by apply Hkw'|lia|done|].
        exists (Injects dep :: inj), next'. split.
        -- rewrite Hrun. unfold st1. cbn [ds kwds vals]. by rewrite <- app_assoc.
        -- split; [cbn [length]; lia|]. by apply Forall_cons.
Qed.

(** The loop over the keyword-only parameters, whose defaults were read
    from [kw0]: it only adds to [kwds], under their names. *)
Lemma visit_all_keyword_only func (ann : gmap string (@Hint PyType)) kw0 names :
  ∀ st,
  NoDup names →
  kw0 ⊆ kwds st →
  (∀ name, name ∈ names → kwds st !! name = kw0 !! name) →
  ∃ kw' next',
    visit_all func true st
      ((λ name, mkParam name KEYWORD_ONLY (kw0 !! name) (ann !! name)) <$> names) =
      (None, mkLoop (ds st) kw' (vals st) next') ∧
    kwds st ⊆ kw' ∧
    ∀ name, is_Some (kw' !! name) → is_Some (kwds st !! name) ∨ name ∈ names.
Proof.
  induction names as [|name names IH]; intros st Hnd Hsub Hsame.
  - exists (kwds st), (next_id st). split; [by destruct st|]. split; [done|].
    by left.
  - apply NoDup_cons in Hnd as [Hname Hnd]. cbn [fmap list_fmap].
    cbn [AutoDeps.visit_all].
    set (p := mkParam name KEYWORD_ONLY (kw0 !! name) (ann !! name)).
    assert (Hgo : ∀ st1,
              ds st1 = ds st → vals st1 = vals st → kwds st ⊆ kwds st1 →
              (∀ nm, nm ∈ names → kwds st1 !! nm = kwds st !! nm) →
              (∀ nm, is_Some (kwds st1 !! nm) →
                     is_Some (kwds st !! nm) ∨ nm = name) →
              ∃ kw' next',
                visit_all func true st1
                  ((λ name, mkParam name KEYWORD_ONLY (kw0 !! name) (ann !! name))
                     <$> names) =
                  (None, mkLoop (ds st) kw' (vals st) next') ∧
                kwds st ⊆ kw' ∧
                ∀ nm, is_Some (kw' !! nm) →
                      is_Some (kwds st !! nm) ∨ nm ∈ name :: names).
    { intros st1 Hd Hv Hk Hrest Hkeys.
      destruct (IH st1 Hnd) as (kw' & next' & Hrun & Hsub' & Hkeys').
      - by etrans.
      - intros nm Hnm. rewrite (Hrest nm Hnm). apply Hsame. by right.
      - exists kw', next'. rewrite Hrun, Hd, Hv. split; [done|].
        split; [by etrans|]. intros nm Hnm.
        destruct (Hkeys' nm Hnm) as [Hin|Hin]; [|right; by right].
        destruct (Hkeys nm Hin) as [?| ->]; [by left|right; by left]. }
    destruct (kw0 !! name) as [d|] eqn:Hd.
    + unfold AutoDeps.visit at 1. cbn [p p_kind p_default p_name].
      rewrite (lookup_weaken _ _ _ _ Hd Hsub).
      rewrite bool_decide_eq_true_2 by done.
      apply Hgo; try done. by left.
    + destruct (visit_undefaulted func st p) as [Hv|[dep Hv]]; [done..| |];
        rewrite Hv.
      * apply Hgo; try done. by left.
      * rewrite bool_decide_eq_true_2 by done. apply Hgo; try done.
        -- cbn [kwds p p_name]. apply insert_subseteq.
           rewrite (Hsame name) by left. done.
        -- intros nm Hnm. cbn [kwds p p_name]. apply lookup_insert_ne.
           by intros ->.
        -- intros nm. cbn [kwds p p_name].
           destruct (decide (name = nm)) as [->|Hne]; [by right|].
           rewrite lookup_insert_ne by done. by left.
Qed.

(** Defaults put before those of [__defaults__] leave every positional
    parameter the default it had. *)
Lemma positional_params_keep ann names : ∀ pl n inj ds0,
  length names = n + length inj + length ds0 →
  Forall2 keeps_default
    (positional_params ann names pl (n + length inj) ds0)
    (positional_params ann names pl n (inj ++ ds0)).
Proof.
  induction names as [|name names IH]; intros pl n inj ds0 Hlen;
    [constructor|].
  destruct n as [|n].
  - destruct inj as [|a inj].
    + destruct ds0 as [|d ds0]; [done|]. cbn [positional_params length app plus].
      constructor; [done|]. apply (IH (pred pl) 0 [] ds0).
      cbn [length] in *. lia.
    + cbn [positional_params length app plus head tail]. constructor.
      * split; [done|]. split; [done|]. split; [done|]. by intros [? ?].
      * apply (IH (pred pl) 0 inj ds0). cbn [length] in *. lia.
  - cbn [positional_params plus]. constructor.
    + split; [done|]. split; [done|]. split; [done|]. by intros [? ?].
    + apply IH. cbn [length] in *. lia.
Qed.

Lemma keeps_default_refl l : Forall2 keeps_default l l.
Proof. induction l; constructor; [done|done]. Qed.


End WithTyping.

End AutoDepsFacts.

(* ===================================================================== *)
(** ** The later theorems at work                                         *)
(* ===================================================================== *)

Module FurtherScenarioFacts.
Import Scenarios FurtherScenarios.

Lemma readers_writers_exclusion_witness :
  RWContext.count RWContext.WIn
    (RWContext.run [0; 0; 1; 2; 2; 3; 3; 0; 1; 1]
       (two_readers, [RWContext.RStart; RWContext.WStart; RWContext.RStart;
                      RWContext.RStart])).2 ≤ 1 ∧
  RWContext.count RWContext.RIn
    (RWContext.run [0; 0; 1; 2; 2; 3; 3; 0; 1; 1]
       (two_readers, [RWContext.RStart; RWContext.WStart; RWContext.RStart;
                      RWContext.RStart])).2 ≤ 2.
Proof.
  destruct (RWContextFacts.readers_writers_exclusion (Some 2%Z) two_readers
              [RWContext.RStart; RWContext.WStart; RWContext.RStart;
               RWContext.RStart]
              [0; 0; 1; 2; 2; 3; 3; 0; 1; 1] eq_refl) as (Hw & _ & Hr).
  - repeat (apply Forall_cons_2; [auto|]). apply Forall_nil_2.
  - split; [exact Hw|exact (Hr 2 eq_refl)].
Defined.

Lemma quiescent_context_restored_witness :
  (RWContext.run [0; 0; 0; 1; 1]
     (two_readers, [RWContext.RStart; RWContext.WStart])).1 = two_readers.
Proof.
  apply (RWContextFacts.quiescent_context_restored (Some 2%Z)); [reflexivity| |].
  - repeat (apply Forall_cons_2; [auto|]). apply Forall_nil_2.
  - vm_compute. repeat (apply Forall_cons_2; [auto 6|]). apply Forall_nil_2.
Defined.

Lemma share_bindings_final_witness :
  Ipc.Share_set
    (Ipc.bind_all (Ipc.mkShare "version" None None true)
                  [Ipc.Call 1; Ipc.Setter 2; Ipc.Call 3]) = inl Ipc.NoCallback ∧
  Ipc.reflect
    (Ipc.bind_all counter_share [Ipc.Call 4; Ipc.Setter 2]) = Some 1.
Proof.
  split.
  - exact (proj1 (proj2 (proj2
      (IpcFacts.share_bindings_final "version" None None true _
         [Ipc.Call 1; Ipc.Setter 2; Ipc.Call 3] eq_refl))) eq_refl).
  - exact (proj1
      (IpcFacts.share_bindings_final "counter" (Some 1) None false counter_share
         [Ipc.Call 4; Ipc.Setter 2] eq_refl) 1 eq_refl).
Defined.

Lemma add_then_get_witness :
  ∃ m',
    Ipc.add "plugin" 0 new_manager = (None, m') ∧
    Ipc.get "plugin" "counter" m' = inr 0 ∧
    Ipc.add "plugin" 0 m' = (Some (Ipc.DuplicateShare "plugin" "counter"), m').
Proof.
  destruct (Ipc.add "plugin" 0 new_manager) as [[e|] m'] eqn:E;
    [vm_compute in E; discriminate E|].
  destruct (IpcFacts.add_then_get "plugin" 0 new_manager m' E) as (Hg & _ & _ & Hd).
  exists m'. split; [reflexivity|]. split; [exact Hg|].
  apply (Hd 0). apply (f_equal snd) in E. cbn [snd] in E. subst m'. reflexivity.
Defined.

Lemma session_life_leaves_no_trace_witness :
  ∃ m1 m2 m3 m4,
    BotSessions._make 1 (Some 5) true registered = (inr 0, m1) ∧
    BotSessions._hup 10 0 m1 = (None, m2) ∧
    BotSessions.__attach any_events 2 5 m2 = (inr true, m3) ∧
    BotSessions.recycle 0 false m3 = (None, m4) ∧
    BotSessions.STORAGE m4 = BotSessions.STORAGE registered ∧
    BotSessions.HUP_STORAGE m4 = BotSessions.HUP_STORAGE registered.
Proof.
  destruct (BotSessionFacts.session_life_leaves_no_trace any_events registered
              5 [] [] 1 2 10)
    as (m1 & m2 & m3 & m4 & H1 & H2 & _ & _ & H3 & _ & _ & _ & H4 & _ & H5 & H6).
  - reflexivity.
  - reflexivity.
  - intros s' Hs'. by apply elem_of_nil in Hs'.
  - intros s' Hs'. by apply elem_of_nil in Hs'.
  - reflexivity.
  - intros s' Hs'. by apply elem_of_nil in Hs'.
  - exists m1, m2, m3, m4. repeat split; assumption.
Defined.

Import DI AutoDeps.


End FurtherScenarioFacts.
